(** * Spot: the tool-augmented conversation loop and the context continuity engine

    A shallow embedding of the TypeScript sources of Spot
    (the Ollama client with its tool-call extractor and chat loop, the tool
    registry, the summarizer, the session manager and the session storage,
    the prompt the REPL builds, the project context, the todo tool and the
    edit tool) together with the properties its design document states
    about them and further properties read off the code.

    Conventions of the embedding.
    - A JavaScript string is a [text], the list of its UTF-16 code units,
      each a number ([N]); its [length] is the length of the list.
    - A JavaScript number that holds a timestamp or a length is a [Z].
    - What the sources obtain from their environment (the model backend, the
      clock, the UUID generator, the tools' executions, the file system) is
      passed in explicitly, and what they change is returned. *)

From Stdlib Require Import String Ascii List NArith ZArith Lia Bool Arith Sorted.
From Stdlib Require DecimalFacts DecimalN.
Import ListNotations.
Open Scope list_scope.

Set Warnings "-register-all".

(* ================================================================== *)
(** * Text *)

Abbreviation text := (list N).

(** The code unit of an ASCII character. *)
Definition ch (c : ascii) : N := N_of_ascii c.

Definition lit (s : string) : text := map ch (list_ascii_of_string s).

Definition dquote : N := 34%N.
Definition nl : N := 10%N.

(** [js s] is the text [s] in which every apostrophe stands for a double
    quote, so that JSON samples stay readable. *)
Definition js (s : string) : text :=
  map (fun c => if N.eqb c (ch "'") then dquote else c) (lit s).

Fixpoint text_eqb (a b : text) : bool :=
  match a, b with
  | [], [] => true
  | x :: a', y :: b' => N.eqb x y && text_eqb a' b'
  | _, _ => false
  end.

Lemma text_eqb_eq (a b : text) : text_eqb a b = true <-> a = b.
Proof.
  revert b; induction a as [|x a IH]; intros [|y b]; simpl;
    try (split; [discriminate | congruence]).
  - split; reflexivity.
  - rewrite andb_true_iff, N.eqb_eq, IH. split.
    + intros [-> ->]; reflexivity.
    + intros H; inversion H; auto.
Qed.

Lemma text_eqb_refl (a : text) : text_eqb a a = true.
Proof. apply text_eqb_eq; reflexivity. Qed.

Definition in_range (lo hi : N) (c : N) : bool :=
  (N.leb lo c) && (N.leb c hi).

(* ================================================================== *)
(** * Regular expressions

    The three regular-expression literals of the sources are run by a
    backtracking matcher.  [run r st] lists every way [r] can match at the
    state [st], in the order in which a backtracking engine explores them:
    the first element is the match JavaScript reports. *)

Module Regex.

Inductive regex : Type :=
| Eps
| Chr (p : N -> bool)
| Seq (a b : regex)
| Alt (a b : regex)
| Star (a : regex)
| Group (n : nat) (a : regex)
| WordBoundary.

(** [prev] is the code unit just before the current position, [rest] the
    input from the current position on, [caps] the capture groups set on the
    way. *)
Record mstate : Type := MState {
  prev : option N;
  rest : text;
  caps : list (nat * text)
}.

(** [\s]: the white space and line terminators of ECMAScript. *)
Definition is_space (c : N) : bool :=
  (in_range 9 13 c || N.eqb c 32 || N.eqb c 160 || N.eqb c 5760
   || in_range 8192 8202 c || N.eqb c 8232 || N.eqb c 8233 || N.eqb c 8239
   || N.eqb c 8287 || N.eqb c 12288 || N.eqb c 65279)%N.

(** [\w]: ASCII letters, digits and the underscore. *)
Definition is_word (c : N) : bool :=
  in_range (ch "a") (ch "z") c || in_range (ch "A") (ch "Z") c
  || in_range (ch "0") (ch "9") c || N.eqb c (ch "_").

Definition is_word_opt (o : option N) : bool :=
  match o with Some c => is_word c | None => false end.

Definition consumed (st st' : mstate) : text :=
  firstn (length (rest st) - length (rest st')) (rest st).

(** The iterations of a starred expression, greedy: one more iteration is
    tried before stopping; an iteration that consumes nothing is not
    repeated.  [n] bounds the number of iterations by the length of the
    input. *)
Fixpoint star_iter (step : mstate -> list mstate) (n : nat) (st : mstate)
  : list mstate :=
  match n with
  | O => [st]
  | S n' =>
      flat_map
        (fun st' =>
           if length (rest st') <? length (rest st)
           then star_iter step n' st' else [])
        (step st)
      ++ [st]
  end.

Fixpoint run (r : regex) (st : mstate) : list mstate :=
  match r with
  | Eps => [st]
  | Chr p =>
      match rest st with
      | c :: t => if p c then [MState (Some c) t (caps st)] else []
      | [] => []
      end
  | Seq a b => flat_map (run b) (run a st)
  | Alt a b => run a st ++ run b st
  | Star a => star_iter (run a) (length (rest st)) st
  | Group n a =>
      map (fun st' => MState (prev st') (rest st')
                        ((n, consumed st st') :: caps st'))
          (run a st)
  | WordBoundary =>
      if xorb (is_word_opt (prev st)) (is_word_opt (hd_error (rest st)))
      then [st] else []
  end.

Definition Plus (a : regex) : regex := Seq a (Star a).

Definition Is (c : N) : regex := Chr (N.eqb c).

Fixpoint Lit (s : text) : regex :=
  match s with
  | [] => Eps
  | c :: s' => Seq (Is c) (Lit s')
  end.

Fixpoint cap (n : nat) (cs : list (nat * text)) : option text :=
  match cs with
  | [] => None
  | (k, v) :: cs' => if Nat.eqb k n then Some v else cap n cs'
  end.

(** One match, as [RegExp.prototype.exec] returns it: the offset, the
    matched text and the capture groups. *)
Record rmatch : Type := RMatch {
  index : nat;
  matched : text;
  groups : list (nat * text)
}.

Definition group (n : nat) (m : rmatch) : option text := cap n (groups m).

(** The first match of [r] starting exactly at the current position. *)
Definition match_here (r : regex) (p : option N) (s : text) (pos : nat)
  : option rmatch :=
  let st := MState p s [] in
  match run r st with
  | st' :: _ => Some (RMatch pos (consumed st st') (caps st'))
  | [] => None
  end.

(** All matches of a global regular expression, left to right: after a match
    the search resumes at its end ([lastIndex]); [skip] counts the code
    units of the last match that are still to be stepped over.  After an
    empty match the search resumes one code unit further, as
    [String.prototype.match] does. *)
Fixpoint scan (r : regex) (p : option N) (s : text) (pos skip : nat)
  : list rmatch :=
  match skip with
  | S k =>
      match s with
      | [] => []
      | c :: t => scan r (Some c) t (S pos) k
      end
  | O =>
      match match_here r p s pos with
      | Some m =>
          m :: match s with
               | [] => []
               | c :: t => scan r (Some c) t (S pos) (pred (length (matched m)))
               end
      | None =>
          match s with
          | [] => []
          | c :: t => scan r (Some c) t (S pos) 0
          end
      end
  end.

Definition match_all (r : regex) (s : text) : list rmatch :=
  scan r None s 0 0.

(** The code unit before the place reached after the text [w]. *)
Definition last_or (p : option N) (w : text) : option N :=
  match w with
  | [] => p
  | _ => Some (last w 0%N)
  end.

(** [RegExp.prototype.exec] on a global expression.  The place [lastIndex]
    points to is given by the code unit before it, the text from it on and
    its offset; the result is the first match at or after that place,
    with the place just after the match, which is the new [lastIndex]. *)
Fixpoint exec (r : regex) (p : option N) (s : text) (pos : nat)
  : option (rmatch * (option N * text * nat)) :=
  let st := MState p s [] in
  match run r st with
  | st' :: _ =>
      let m := RMatch pos (consumed st st') (caps st') in
      Some (m, (prev st', rest st', pos + length (matched m)))
  | [] =>
      match s with
      | [] => None
      | c :: t => exec r (Some c) t (S pos)
      end
  end.

(** [while ((match = pattern.exec (text)) !== null)]: the matches the loop
    visits.  The loop does not end when a match is empty ([lastIndex]
    stays where it is); [None] says that it has not ended within [fuel]
    turns. *)
Fixpoint exec_loop (fuel : nat) (r : regex) (p : option N) (s : text)
  (pos : nat) : option (list rmatch) :=
  match fuel with
  | O => None
  | S fuel' =>
      match exec r p s pos with
      | None => Some []
      | Some (m, (p', s', pos')) =>
          option_map (cons m) (exec_loop fuel' r p' s' pos')
      end
  end.

(** The matches of the loop over the whole text.  For an expression that
    never matches the empty text, as both grammars of the extractor, the
    loop ends within this fuel and visits the matches [match_all] lists
    (lemma [execAll_match_all]). *)
Definition execAll (r : regex) (s : text) : list rmatch :=
  match exec_loop (S (length s)) r None s 0 with
  | Some ms => ms
  | None => []
  end.

End Regex.

Import Regex.

(* ------------------------------------------------------------------ *)
(** ** The three patterns of the sources *)

Definition ws : regex := Star (Chr is_space).

Definition not_brace (c : N) : bool :=
  negb (N.eqb c (ch "{") || N.eqb c (ch "}")).

(** The arguments object of the primary grammar: an opening brace, code
    units other than braces, any number of groups made of one brace pair
    (with no brace inside) followed by code units other than braces, and a
    closing brace.  In the source:
    [\{ [^{}]* (?: \{ [^{}]* \} [^{}]* )* \}] (written here with spaces
    between its parts). *)
Definition argsObject : regex :=
  Seq (Is (ch "{"))
    (Seq (Star (Chr not_brace))
       (Seq (Star (Seq (Is (ch "{"))
                     (Seq (Star (Chr not_brace))
                        (Seq (Is (ch "}")) (Star (Chr not_brace))))))
          (Is (ch "}")))).

(** The primary grammar, [jsonPattern] in [parseToolCalls].  With an
    apostrophe for each double quote and spaces between its parts:
    [\{ \s* 'name' \s* : \s* ' ([^']+) ' \s* , \s* 'arguments' \s* : \s*
     (argsObject) \s* \}], global. *)
Definition jsonPattern : regex :=
  Seq (Is (ch "{")) (Seq ws (Seq (Lit (js "'name'")) (Seq ws (Seq (Is (ch ":")) (Seq ws
    (Seq (Is dquote)
      (Seq (Group 1 (Plus (Chr (fun c => negb (N.eqb c dquote)))))
        (Seq (Is dquote) (Seq ws (Seq (Is (ch ",")) (Seq ws
          (Seq (Lit (js "'arguments'")) (Seq ws (Seq (Is (ch ":")) (Seq ws
            (Seq (Group 2 argsObject) (Seq ws (Is (ch "}"))))))))))))))))))).

Definition funcNames : list text :=
  [lit "bash"; lit "read_file"; lit "write_file"; lit "glob"; lit "grep";
   lit "todo"].

Definition funcNamesAlt : regex :=
  Alt (Lit (lit "bash")) (Alt (Lit (lit "read_file"))
    (Alt (Lit (lit "write_file")) (Alt (Lit (lit "glob"))
      (Alt (Lit (lit "grep")) (Lit (lit "todo")))))).

(** The fallback grammar, [funcPattern] in [parseToolCalls].  With spaces
    between its parts:
    [\b (bash|read_file|write_file|glob|grep|todo) \s* \( \s*
     ( \{ [^)]+ \} ) \s* \)], global. *)
Definition funcPattern : regex :=
  Seq WordBoundary (Seq (Group 1 funcNamesAlt) (Seq ws (Seq (Is (ch "(")) (Seq ws
    (Seq (Group 2 (Seq (Is (ch "{"))
                     (Seq (Plus (Chr (fun c => negb (N.eqb c (ch ")")))))
                        (Is (ch "}")))))
      (Seq ws (Is (ch ")")))))))).

Definition is_path_char (c : N) : bool :=
  N.eqb c (ch "/") || is_word c || N.eqb c (ch ".") || N.eqb c (ch "-").

(** The file-path pattern of [fallbackSummary]: [[\/\w.-]+ \. \w+],
    global. *)
Definition pathPattern : regex :=
  Seq (Plus (Chr is_path_char)) (Seq (Is (ch ".")) (Plus (Chr is_word))).

(* ================================================================== *)
(** * JSON

    [JSON.parse] and [JSON.stringify] of the JavaScript runtime, over the
    values the sources exchange: [null], booleans, numbers, strings, arrays
    and plain objects.  A number written without fraction and exponent is an
    integer ([Int]); any other number keeps its literal ([Real]), the double
    it denotes is not modelled.  An object is the list of its members in the
    order of the text. *)

Module JSON.

Local Open Scope N_scope.

Inductive number : Type :=
| Int (z : Z)
| Real (literal : text).

Inductive value : Type :=
| Null
| Bool (b : bool)
| Num (n : number)
| Str (s : text)
| Arr (elements : list value)
| Obj (members : list (text * value)).

(* ------------------------------------------------------------------ *)
(** ** Reading *)

Definition is_ws (c : N) : bool :=
  N.eqb c 32 || N.eqb c 9 || N.eqb c 10 || N.eqb c 13.

Fixpoint skip_ws (s : text) : text :=
  match s with
  | c :: t => if is_ws c then skip_ws t else s
  | [] => []
  end.

Definition is_digit (c : N) : bool := in_range 48 57 c.

Fixpoint span_digits (s : text) : text * text :=
  match s with
  | c :: t =>
      if is_digit c
      then let '(ds, r) := span_digits t in (c :: ds, r)
      else ([], s)
  | [] => ([], [])
  end.

Definition uint_of_digit (c : N) (d : Decimal.uint) : Decimal.uint :=
  match N.to_nat (c - 48) with
  | 0 => Decimal.D0 d | 1 => Decimal.D1 d | 2 => Decimal.D2 d
  | 3 => Decimal.D3 d | 4 => Decimal.D4 d | 5 => Decimal.D5 d
  | 6 => Decimal.D6 d | 7 => Decimal.D7 d | 8 => Decimal.D8 d
  | _ => Decimal.D9 d
  end%nat.

Fixpoint uint_of_digits (ds : text) : Decimal.uint :=
  match ds with
  | [] => Decimal.Nil
  | c :: t => uint_of_digit c (uint_of_digits t)
  end.

Definition is_nil {A : Type} (l : list A) : bool :=
  match l with [] => true | _ => false end.

(** An optional part of a number that, once opened by [opens], needs at
    least one digit (after an optional sign when [signed]). *)
Definition digits_after (opens : N -> bool) (signed : bool) (s : text)
  : option (bool * text) :=
  match s with
  | c :: t =>
      if opens c then
        let t' := match t with
                  | g :: u =>
                      if signed && (N.eqb g 43 || N.eqb g 45) then u else t
                  | [] => t
                  end in
        let '(ds, r) := span_digits t' in
        if is_nil ds then None else Some (true, r)
      else Some (false, s)
  | [] => Some (false, s)
  end.

(** The digits of a number after its sign: [Some n] for an integer
    literal, [None] for a number with a fraction or an exponent. *)
Definition parse_unsigned (s : text) : option (option N * text) :=
  let '(ds, s2) := span_digits s in
  match ds with
  | [] => None
  | d :: ds' =>
      if N.eqb d 48 && negb (is_nil ds') then None
      else
        match digits_after (N.eqb 46) false s2 with
        | None => None
        | Some (frac, s3) =>
            match digits_after (fun c => N.eqb c 101 || N.eqb c 69) true s3 with
            | None => None
            | Some (expo, s4) =>
                Some (if frac || expo then None
                      else Some (N.of_uint (uint_of_digits ds)), s4)
            end
        end
  end.

Definition parse_number (s : text) : option (number * text) :=
  let '(neg, s1) :=
    match s with
    | c :: t => if N.eqb c 45 then (true, t) else (false, s)
    | [] => (false, s)
    end in
  match parse_unsigned s1 with
  | Some (Some n, r) =>
      Some (Int (if neg then (- Z.of_N n)%Z else Z.of_N n), r)
  | Some (None, r) => Some (Real (firstn (length s - length r)%nat s), r)
  | None => None
  end.

Definition unhex (c : N) : option N :=
  if in_range 48 57 c then Some (c - 48)
  else if in_range 97 102 c then Some (c - 87)
  else if in_range 65 70 c then Some (c - 55)
  else None.

Definition unhex4 (a b c d : N) : option N :=
  match unhex a, unhex b, unhex c, unhex d with
  | Some x, Some y, Some z, Some w => Some (((x * 16 + y) * 16 + z) * 16 + w)
  | _, _, _, _ => None
  end.

Definition unescape (e : N) : option N :=
  if N.eqb e 34 then Some 34          (* quote *)
  else if N.eqb e 92 then Some 92     (* backslash *)
  else if N.eqb e 47 then Some 47     (* slash *)
  else if N.eqb e 98 then Some 8      (* b *)
  else if N.eqb e 102 then Some 12    (* f *)
  else if N.eqb e 110 then Some 10    (* n *)
  else if N.eqb e 114 then Some 13    (* r *)
  else if N.eqb e 116 then Some 9     (* t *)
  else None.

(** The code units of a string, from just after its opening quote up to and
    including its closing quote. *)
Fixpoint parse_chars (s : text) : option (text * text) :=
  match s with
  | [] => None
  | c :: t =>
      if N.eqb c 34 then Some ([], t)
      else if N.eqb c 92 then
        match t with
        | e :: t1 =>
            if N.eqb e 117 then
              match t1 with
              | h1 :: h2 :: h3 :: h4 :: t2 =>
                  match unhex4 h1 h2 h3 h4, parse_chars t2 with
                  | Some v, Some (r, k) => Some (v :: r, k)
                  | _, _ => None
                  end
              | _ => None
              end
            else
              match unescape e, parse_chars t1 with
              | Some v, Some (r, k) => Some (v :: r, k)
              | _, _ => None
              end
        | [] => None
        end
      else if N.ltb c 32 then None
      else
        match parse_chars t with
        | Some (r, k) => Some (c :: r, k)
        | None => None
        end
  end.

Fixpoint strip_prefix (p s : text) : option text :=
  match p, s with
  | [], _ => Some s
  | a :: p', b :: s' => if N.eqb a b then strip_prefix p' s' else None
  | _ :: _, [] => None
  end.

(** The text after the token [c], when [s] begins with it (after white
    space). *)
Definition token (c : N) (s : text) : option text :=
  match skip_ws s with
  | d :: r => if N.eqb d c then Some r else None
  | [] => None
  end.

(** [parse_value fuel s] reads one value at the head of [s] (after white
    space) and returns it with the text that follows; [fuel] bounds the
    nesting and the number of elements read. *)
Fixpoint parse_value (fuel : nat) (s : text) : option (value * text) :=
  match fuel with
  | O => None
  | S f =>
      match skip_ws s with
      | [] => None
      | c :: t =>
          if N.eqb c 123 then
            match token 125 t with
            | Some r => Some (Obj [], r)
            | None =>
                match parse_members f t with
                | Some (ms, r) => Some (Obj ms, r)
                | None => None
                end
            end
          else if N.eqb c 91 then
            match token 93 t with
            | Some r => Some (Arr [], r)
            | None =>
                match parse_elements f t with
                | Some (vs, r) => Some (Arr vs, r)
                | None => None
                end
            end
          else if N.eqb c 34 then
            match parse_chars t with
            | Some (str, r) => Some (Str str, r)
            | None => None
            end
          else if N.eqb c 116 then
            option_map (fun r => (Bool true, r)) (strip_prefix (lit "rue") t)
          else if N.eqb c 102 then
            option_map (fun r => (Bool false, r)) (strip_prefix (lit "alse") t)
          else if N.eqb c 110 then
            option_map (fun r => (Null, r)) (strip_prefix (lit "ull") t)
          else
            match parse_number (c :: t) with
            | Some (n, r) => Some (Num n, r)
            | None => None
            end
      end
  end

with parse_elements (fuel : nat) (s : text) : option (list value * text) :=
  match fuel with
  | O => None
  | S f =>
      match parse_value f s with
      | Some (v, r) =>
          match token 44 r with
          | Some r' =>
              match parse_elements f r' with
              | Some (vs, k) => Some (v :: vs, k)
              | None => None
              end
          | None =>
              match token 93 r with
              | Some r' => Some ([v], r')
              | None => None
              end
          end
      | None => None
      end
  end

with parse_members (fuel : nat) (s : text)
  : option (list (text * value) * text) :=
  match fuel with
  | O => None
  | S f =>
      match token 34 s with
      | Some t =>
          match parse_chars t with
          | Some (key, r) =>
              match token 58 r with
              | Some r1 =>
                  match parse_value f r1 with
                  | Some (v, r2) =>
                      match token 44 r2 with
                      | Some r3 =>
                          match parse_members f r3 with
                          | Some (ms, k) => Some ((key, v) :: ms, k)
                          | None => None
                          end
                      | None =>
                          match token 125 r2 with
                          | Some r3 => Some ([(key, v)], r3)
                          | None => None
                          end
                      end
                  | None => None
                  end
              | None => None
              end
          | None => None
          end
      | None => None
      end
  end.

(** [JSON.parse]: one value, white space around it, nothing else.  [None]
    stands for the [SyntaxError] it throws. *)
Definition parse (s : text) : option value :=
  match parse_value (S (length s)) s with
  | Some (v, r) => if is_nil (skip_ws r) then Some v else None
  | None => None
  end.

End JSON.

(* ------------------------------------------------------------------ *)
(** ** Writing: [JSON.stringify (value, null, 2)] *)

Module JSONWrite.
Import JSON.

Local Open Scope N_scope.

Definition hexdigit (n : N) : N := if n <? 10 then 48 + n else 87 + n.

(** The escape of one code unit by its four hexadecimal digits. *)
Definition uescape (c : N) : text :=
  [92; 117; hexdigit (c / 4096); hexdigit ((c / 256) mod 16);
   hexdigit ((c / 16) mod 16); hexdigit (c mod 16)].

Definition is_high (c : N) : bool := in_range 55296 56319 c.
Definition is_low (c : N) : bool := in_range 56320 57343 c.

Definition escape1 (c : N) : text :=
  if c =? 8 then [92; 98]
  else if c =? 9 then [92; 116]
  else if c =? 10 then [92; 110]
  else if c =? 12 then [92; 102]
  else if c =? 13 then [92; 114]
  else if c =? 34 then [92; 34]
  else if c =? 92 then [92; 92]
  else if c <? 32 then uescape c
  else [c].

(** [QuoteJSONString] without the quotes: control characters, the quote
    and the backslash are escaped, a surrogate that is not part of a pair is
    escaped by its hexadecimal digits, everything else stands for itself. *)
Fixpoint quote_chars (s : text) : text :=
  match s with
  | [] => []
  | c :: t =>
      if is_high c then
        match t with
        | d :: t' =>
            if is_low d then c :: d :: quote_chars t'
            else uescape c ++ quote_chars t
        | [] => uescape c
        end
      else if is_low c then uescape c ++ quote_chars t
      else escape1 c ++ quote_chars t
  end.

Definition quote (s : text) : text := 34 :: quote_chars s ++ [34].

Fixpoint digits_of_uint (d : Decimal.uint) : text :=
  match d with
  | Decimal.Nil => []
  | Decimal.D0 r => 48 :: digits_of_uint r
  | Decimal.D1 r => 49 :: digits_of_uint r
  | Decimal.D2 r => 50 :: digits_of_uint r
  | Decimal.D3 r => 51 :: digits_of_uint r
  | Decimal.D4 r => 52 :: digits_of_uint r
  | Decimal.D5 r => 53 :: digits_of_uint r
  | Decimal.D6 r => 54 :: digits_of_uint r
  | Decimal.D7 r => 55 :: digits_of_uint r
  | Decimal.D8 r => 56 :: digits_of_uint r
  | Decimal.D9 r => 57 :: digits_of_uint r
  end.

(** The decimal digits of a natural number, as [Number.prototype.toString]
    writes an integer. *)
Definition show_N (n : N) : text := digits_of_uint (N.to_uint n).

Definition show_Z (z : Z) : text :=
  if (z <? 0)%Z then 45 :: show_N (Z.abs_N z) else show_N (Z.to_N z).

Definition show_number (n : number) : text :=
  match n with
  | Int z => show_Z z
  | Real l => l
  end.

Definition spaces (k : nat) : text := repeat 32 k.

Fixpoint join (sep : text) (items : list text) : text :=
  match items with
  | [] => []
  | [x] => x
  | x :: rest => x ++ sep ++ join sep rest
  end.

(** An array or an object on several lines: each item on a line of its own,
    indented two spaces more than the brackets. *)
Definition block (opening closing : N) (ind : nat) (items : list text)
  : text :=
  match items with
  | [] => [opening; closing]
  | _ =>
      [opening; 10] ++ spaces (ind + 2)
      ++ join ([44; 10] ++ spaces (ind + 2)) items
      ++ [10] ++ spaces ind ++ [closing]
  end.

Fixpoint stringify_at (ind : nat) (v : value) : text :=
  match v with
  | Null => lit "null"
  | Bool true => lit "true"
  | Bool false => lit "false"
  | Num n => show_number n
  | Str s => quote s
  | Arr vs => block 91 93 ind (map (stringify_at (ind + 2)) vs)
  | Obj ms =>
      block 123 125 ind
        (map (fun kv => quote (fst kv) ++ [58; 32]
                        ++ stringify_at (ind + 2) (snd kv)) ms)
  end.

Definition stringify (v : value) : text := stringify_at 0 v.

End JSONWrite.

Import JSONWrite.

(* ================================================================== *)
(** * The data model (session/types.ts) *)

Inductive Role : Type := system | user | assistant | tool.

Definition Role_eqb (a b : Role) : bool :=
  match a, b with
  | system, system | user, user | assistant, assistant | tool, tool => true
  | _, _ => false
  end.

Module Message.
Record t : Type := mk {
  role : Role;
  content : text;
  timestamp : Z
}.
End Message.

Inductive TaskStatus : Type := pending | in_progress | completed.

Definition TaskStatus_eqb (a b : TaskStatus) : bool :=
  match a, b with
  | pending, pending | in_progress, in_progress | completed, completed => true
  | _, _ => false
  end.

Module Task.
Record t : Type := mk {
  id : text;
  content : text;
  status : TaskStatus;
  created : Z
}.
End Task.

Module Session.
Record t : Type := mk {
  id : text;
  projectRoot : text;
  model : text;
  messages : list Message.t;
  summary : option text;        (* null is [None] *)
  summaryUpTo : Z;
  todos : list Task.t;
  created : Z;
  updated : Z
}.
End Session.

(** A JavaScript condition on a [string | null]: [null] and the empty
    string are falsy. *)
Definition truthy (o : option text) : bool :=
  match o with
  | Some (_ :: _) => true
  | _ => false
  end.

(* ================================================================== *)
(** * The summarizer (session/summarizer.ts) *)

(** The backend's answer to a digest request: the content of the response
    message, or [None] when the request throws. *)
Definition Digest : Type := text -> option text.

Definition SUMMARIZE_PROMPT : text :=
  lit "You are a conversation summarizer. Summarize the following conversation between a user and an AI assistant (Spot)."
  ++ [nl; nl] ++ lit "Focus on:"
  ++ [nl] ++ lit "- Key decisions made"
  ++ [nl] ++ lit "- Important facts established"
  ++ [nl] ++ lit "- Tasks completed or in progress"
  ++ [nl] ++ lit "- Any code changes or file modifications"
  ++ [nl] ++ lit "- Context the assistant needs to continue helping"
  ++ [nl; nl]
  ++ lit "Be concise but preserve critical details. Output only the summary, no preamble."
  ++ [nl; nl] ++ lit "Conversation:" ++ [nl].

Definition count_role (r : Role) (messages : list Message.t) : nat :=
  length (filter (fun m => Role_eqb (Message.role m) r) messages).

(** The elements in the order of their first occurrence, as spreading a
    [Set] built from the array gives them. *)
Fixpoint uniq (seen : list text) (l : list text) : list text :=
  match l with
  | [] => []
  | x :: l' =>
      if existsb (text_eqb x) seen then uniq seen l'
      else x :: uniq (x :: seen) l'
  end.

Definition show_nat (n : nat) : text := show_N (N.of_nat n).

Definition uniquePaths (messages : list Message.t) : list text :=
  let allContent := join (lit " ") (map Message.content messages) in
  let filePaths := map matched (match_all pathPattern allContent) in
  firstn 10 (uniq [] filePaths).

Definition fallbackSummary (messages : list Message.t) : text :=
  let userMessages := count_role user messages in
  let assistantMessages := count_role assistant messages in
  let paths := uniquePaths messages in
  let summary :=
    lit "Previous conversation: " ++ show_nat userMessages
    ++ lit " user messages, " ++ show_nat assistantMessages
    ++ lit " assistant responses." in
  if (0 <? length paths)%nat
  then summary ++ lit " Files discussed: " ++ join (lit ", ") paths ++ lit "."
  else summary.

Definition formatMessage (m : Message.t) : text :=
  let role :=
    match Message.role m with
    | user => lit "User"
    | assistant => lit "Spot"
    | _ => lit "Tool"
    end in
  let content :=
    if (2000 <? length (Message.content m))%nat
    then firstn 2000 (Message.content m) ++ lit "...[truncated]"
    else Message.content m in
  role ++ lit ": " ++ content.

Definition summarizePrompt (messages : list Message.t) : text :=
  SUMMARIZE_PROMPT
  ++ join [nl; nl]
       (map formatMessage
          (filter (fun m => negb (Role_eqb (Message.role m) system)) messages)).

(** [Summarizer.summarize]: the digest of the backend, or the fallback when
    the request throws. *)
Definition summarize (digest : Digest) (messages : list Message.t) : text :=
  match digest (summarizePrompt messages) with
  | Some content => content
  | None => fallbackSummary messages
  end.

Definition estimateTokens (t : text) : Z :=
  (Z.of_nat (length t) + 3) / 4.          (* Math.ceil (length / 4) *)

Definition estimateMessagesTokens (messages : list Message.t) : Z :=
  fold_left (fun sum m => (sum + estimateTokens (Message.content m))%Z)
    messages 0%Z.

(* ================================================================== *)
(** * The session manager (session/index.ts)

    The operations of the manager are functions on the session they
    change; the dirty flag and the save timer that each of them also sets
    ([markDirty]) come with the persistence operations further down. *)

Definition CONTEXT_THRESHOLD : Z := 24000.
Definition KEEP_RECENT_MESSAGES : Z := 10.

Definition createEmptySession (projectRoot model uuid : text) (now now' : Z)
  : Session.t :=
  Session.mk uuid projectRoot model [] None 0 [] now now'.

Definition setModel (model : text) (s : Session.t) : Session.t :=
  Session.mk (Session.id s) (Session.projectRoot s) model
    (Session.messages s) (Session.summary s) (Session.summaryUpTo s)
    (Session.todos s) (Session.created s) (Session.updated s).

(** [addMessage]: [now] and [now'] are the two readings of the clock. *)
Definition addMessage (role : Role) (content : text) (now now' : Z)
  (s : Session.t) : Session.t :=
  Session.mk (Session.id s) (Session.projectRoot s) (Session.model s)
    (Session.messages s ++ [Message.mk role content now])
    (Session.summary s) (Session.summaryUpTo s)
    (Session.todos s) (Session.created s) now'.

Definition splitIndex (messages : list Message.t) : nat :=
  Z.to_nat (Z.max 0 (Z.of_nat (length messages) - KEEP_RECENT_MESSAGES)).

Definition combineSummary (old : option text) (newSummary : text) : text :=
  match old with
  | Some o =>
      if truthy old
      then o ++ [nl; nl] ++ lit "---" ++ [nl; nl] ++ newSummary
      else newSummary
  | None => newSummary
  end.

(** [maybeCompress]: the answer of the call and the session it leaves. *)
Definition maybeCompress (digest : Digest) (s : Session.t)
  : bool * Session.t :=
  let messages := Session.messages s in
  let tokenEstimate := estimateMessagesTokens messages in
  if (tokenEstimate <? CONTEXT_THRESHOLD)%Z then (false, s)
  else
    let toSummarize := firstn (splitIndex messages) messages in
    if (length toSummarize =? 0)%nat then (false, s)
    else
      let newSummary := summarize digest toSummarize in
      let summary' := combineSummary (Session.summary s) newSummary in
      let summaryUpTo' :=
        match nth_error toSummarize (length toSummarize - 1) with
        | Some lastSummarized => Message.timestamp lastSummarized
        | None => Session.summaryUpTo s
        end in
      (true,
       Session.mk (Session.id s) (Session.projectRoot s) (Session.model s)
         (skipn (splitIndex messages) messages)
         (Some summary') summaryUpTo'
         (Session.todos s) (Session.created s) (Session.updated s)).

Definition setTodos (todos : list Task.t) (s : Session.t) : Session.t :=
  Session.mk (Session.id s) (Session.projectRoot s) (Session.model s)
    (Session.messages s) (Session.summary s) (Session.summaryUpTo s)
    todos (Session.created s) (Session.updated s).

(** [addTodo]: [uuid] is the value of [randomUUID ()], [now] the clock. *)
Definition addTodo (content uuid : text) (now : Z) (s : Session.t)
  : Task.t * Session.t :=
  let task := Task.mk (firstn 8 uuid) content pending now in
  (task, setTodos (Session.todos s ++ [task]) s).

Definition setStatus (st : TaskStatus) (k : Task.t) : Task.t :=
  Task.mk (Task.id k) (Task.content k) st (Task.created k).

(** The first task with the given id gets the status ([Array.find]). *)
Fixpoint updateFirst (id : text) (st : TaskStatus) (l : list Task.t)
  : option (list Task.t) :=
  match l with
  | [] => None
  | k :: l' =>
      if text_eqb (Task.id k) id then Some (setStatus st k :: l')
      else option_map (cons k) (updateFirst id st l')
  end.

Definition updateTodo (id : text) (st : TaskStatus) (s : Session.t)
  : bool * Session.t :=
  match updateFirst id st (Session.todos s) with
  | Some l => (true, setTodos l s)
  | None => (false, s)
  end.

Fixpoint removeFirst (id : text) (l : list Task.t) : option (list Task.t) :=
  match l with
  | [] => None
  | k :: l' =>
      if text_eqb (Task.id k) id then Some l'
      else option_map (cons k) (removeFirst id l')
  end.

Definition removeTodo (id : text) (s : Session.t) : bool * Session.t :=
  match removeFirst id (Session.todos s) with
  | Some l => (true, setTodos l s)
  | None => (false, s)
  end.

Definition clearCompletedTodos (s : Session.t) : nat * Session.t :=
  let before := length (Session.todos s) in
  let kept :=
    filter (fun k => negb (TaskStatus_eqb (Task.status k) completed))
      (Session.todos s) in
  ((before - length kept)%nat, setTodos kept s).

(* ================================================================== *)
(** * The tool registry (tools/index.ts) *)

Inductive Tool : Type :=
| lsTool | readTool | writeTool | editTool
| bashTool | globTool | grepTool | todoTool.

Definition tool_name (t : Tool) : text :=
  match t with
  | lsTool => lit "ls"
  | readTool => lit "read_file"
  | writeTool => lit "write_file"
  | editTool => lit "edit_file"
  | bashTool => lit "bash"
  | globTool => lit "glob"
  | grepTool => lit "grep"
  | todoTool => lit "todo"
  end.

Definition allTools : list Tool :=
  [lsTool; readTool; writeTool; editTool; bashTool; globTool; grepTool;
   todoTool].

Definition getToolByName (name : text) : option Tool :=
  find (fun t => text_eqb (tool_name t) name) allTools.

(* ================================================================== *)
(** * The tool-call extractor (ollama-client.ts, parseToolCalls) *)

Module ParsedToolCall.
Record t : Type := mk {
  name : text;
  arguments : JSON.value
}.
End ParsedToolCall.

(** The elements on which [f] gives a result, in order. *)
Fixpoint collect {A B : Type} (f : A -> option B) (l : list A) : list B :=
  match l with
  | [] => []
  | x :: l' =>
      match f x with
      | Some y => y :: collect f l'
      | None => collect f l'
      end
  end.

(** The body of the first loop: the payload is parsed, a [SyntaxError] is
    swallowed by the empty [catch], and the call is kept when its name is
    registered. *)
Definition jsonCall (m : rmatch) : option ParsedToolCall.t :=
  match group 1 m, group 2 m with
  | Some name, Some payload =>
      match JSON.parse payload with
      | Some args =>
          match getToolByName name with
          | Some _ => Some (ParsedToolCall.mk name args)
          | None => None
          end
      | None => None
      end
  | _, _ => None
  end.

(** The body of the second loop: no look-up in the registry. *)
Definition funcCall (m : rmatch) : option ParsedToolCall.t :=
  match group 1 m, group 2 m with
  | Some name, Some payload =>
      match JSON.parse payload with
      | Some args => Some (ParsedToolCall.mk name args)
      | None => None
      end
  | _, _ => None
  end.

(** The calls with the offsets of the occurrences they come from. *)
Definition located (f : rmatch -> option ParsedToolCall.t) (m : rmatch)
  : option (nat * ParsedToolCall.t) :=
  option_map (fun c => (index m, c)) (f m).

Definition parseToolCallsAt (t : text) : list (nat * ParsedToolCall.t) :=
  let calls := collect (located jsonCall) (execAll jsonPattern t) in
  if (length calls =? 0)%nat
  then collect (located funcCall) (execAll funcPattern t)
  else calls.

Definition parseToolCalls (t : text) : list ParsedToolCall.t :=
  map snd (parseToolCallsAt t).

(* ================================================================== *)
(** * The conversation orchestrator (ollama-client.ts, chat) *)

Module ChatMessage.
Record t : Type := mk {
  role : Role;
  content : text
}.
End ChatMessage.

(** What a tool's [execute] does: it returns a text or throws. *)
Inductive Outcome : Type :=
| Returned (result : text)
| Threw (error : text).      (* the thrown value, as [String (error)] *)

(** What the caller of [chat] observes, in order. *)
Inductive Event : Type :=
| Requested (messages : list ChatMessage.t)          (* client.chat *)
| OnToken (token : text)
| OnToolCall (name : text) (args : JSON.value)
| ToolStarted (tool : Tool) (args : JSON.value)      (* tool.execute entered *)
| ToolFinished (tool : Tool) (outcome : Outcome)     (* its promise settled *)
| OnToolResult (name : text) (result : text).

Inductive ChatResult : Type :=
| Answer (response : text)
| BackendFailed (error : text)
| Unfinished.               (* the rounds allowed did not reach an answer *)

Fixpoint includes (needle hay : text) : bool :=
  match JSON.strip_prefix needle hay with
  | Some _ => true
  | None =>
      match hay with
      | [] => false
      | _ :: hay' => includes needle hay'
      end
  end.

Section Chat.

(** The state the tools act on (files, processes, the session's tasks). *)
Variable World : Type.

(** [tool.execute (arguments, toolContext)]. *)
Variable execute : Tool -> JSON.value -> World -> Outcome * World.

(** The backend's answer to a chat request: the contents of the chunks of
    the stream and, when the request or the stream throws, the error that
    ends it.  Within one call of [chat] every round sends a longer list of
    messages, so a function of the request describes any sequence of
    answers. *)
Variable backend : list ChatMessage.t -> list text * option text.

(** The description of the tools, built from their declarations. *)
Variable toolDesc : text.

Definition toolInstructions : text :=
  [nl; nl] ++ lit "## TOOL CALLING" ++ [nl; nl]
  ++ lit "When you need to use a tool, output ONLY a JSON object in this exact format (no markdown, no explanation before it):"
  ++ [nl] ++ js "{'name': 'tool_name', 'arguments': {'param': 'value'}}"
  ++ [nl; nl] ++ lit "Available tools:" ++ [nl] ++ toolDesc ++ [nl; nl]
  ++ lit "After I execute the tool, I will give you the result and you can continue.".

Definition messagesWithTools (messages : list ChatMessage.t)
  : list ChatMessage.t :=
  match messages with
  | m :: rest =>
      if Role_eqb (ChatMessage.role m) system
         && negb (includes (lit "TOOL CALLING") (ChatMessage.content m))
      then ChatMessage.mk (ChatMessage.role m)
             (ChatMessage.content m ++ toolInstructions) :: rest
      else messages
  | [] => []
  end.

(** [try { result = await tool.execute (...) } catch (error) { ... }]. *)
Definition resultText (name : text) (o : Outcome) : text :=
  match o with
  | Returned result => result
  | Threw error => lit "Error executing " ++ name ++ lit ": " ++ error
  end.

(** One tool call of the loop: the text of its result, the world it leaves
    and what was observed. *)
Definition runToolCall (tc : ParsedToolCall.t) (w : World)
  : text * World * list Event :=
  let name := ParsedToolCall.name tc in
  let args := ParsedToolCall.arguments tc in
  match getToolByName name with
  | Some tl =>
      let '(o, w') := execute tl args w in
      (resultText name o, w', [ToolStarted tl args; ToolFinished tl o])
  | None => (lit "Unknown tool: " ++ name, w, [])
  end.

Definition toolResultMessage (name result : text) : ChatMessage.t :=
  ChatMessage.mk user (lit "Tool result for " ++ name ++ [58; nl] ++ result)%N.

(** [for (const tc of toolCalls)]: the messages pushed, the world left and
    the events, call after call. *)
Fixpoint runToolCalls (tcs : list ParsedToolCall.t) (w : World)
  : list ChatMessage.t * World * list Event :=
  match tcs with
  | [] => ([], w, [])
  | tc :: rest =>
      let name := ParsedToolCall.name tc in
      let '(result, w1, evs) := runToolCall tc w in
      let '(msgs, w2, evs') := runToolCalls rest w1 in
      (toolResultMessage name result :: msgs, w2,
       OnToolCall name (ParsedToolCall.arguments tc) :: evs
       ++ OnToolResult name result :: evs')
  end.

Definition nonempty (t : text) : bool := negb (JSON.is_nil t).

(** [chat]: [rounds] bounds the number of requests to the backend; the
    source recurses without bound.  The result comes with the message list
    (the caller's array is pushed to), the world and the events. *)
Fixpoint chat (rounds : nat) (messages : list ChatMessage.t) (w : World)
  : ChatResult * list ChatMessage.t * World * list Event :=
  match rounds with
  | O => (Unfinished, messages, w, [])
  | S rounds' =>
      let '(chunks, failure) := backend (messagesWithTools messages) in
      let tokens := filter nonempty chunks in
      let streamed :=
        Requested (messagesWithTools messages) :: map OnToken tokens in
      match failure with
      | Some error => (BackendFailed error, messages, w, streamed)
      | None =>
          let fullResponse := concat tokens in
          let toolCalls := parseToolCalls fullResponse in
          if (0 <? length toolCalls)%nat then
            let '(results, w', evs) := runToolCalls toolCalls w in
            let messages' :=
              messages ++ ChatMessage.mk assistant fullResponse :: results in
            let '(r, final, w'', evs') := chat rounds' messages' w' in
            (r, final, w'', streamed ++ evs ++ evs')
          else (Answer fullResponse, messages, w, streamed)
      end
  end.

End Chat.

Arguments runToolCall {World} execute tc w.
Arguments runToolCalls {World} execute tcs w.
Arguments chat {World} execute backend toolDesc rounds messages w.

(* ================================================================== *)
(** * Sessions as JSON records *)

Definition roleText (r : Role) : text :=
  match r with
  | system => lit "system"
  | user => lit "user"
  | assistant => lit "assistant"
  | tool => lit "tool"
  end.

Definition statusText (s : TaskStatus) : text :=
  match s with
  | pending => lit "pending"
  | in_progress => lit "in_progress"
  | completed => lit "completed"
  end.

Definition messageJSON (m : Message.t) : JSON.value :=
  JSON.Obj
    [(lit "role", JSON.Str (roleText (Message.role m)));
     (lit "content", JSON.Str (Message.content m));
     (lit "timestamp", JSON.Num (JSON.Int (Message.timestamp m)))].

Definition taskJSON (k : Task.t) : JSON.value :=
  JSON.Obj
    [(lit "id", JSON.Str (Task.id k));
     (lit "content", JSON.Str (Task.content k));
     (lit "status", JSON.Str (statusText (Task.status k)));
     (lit "created", JSON.Num (JSON.Int (Task.created k)))].

Definition sessionJSON (s : Session.t) : JSON.value :=
  JSON.Obj
    [(lit "id", JSON.Str (Session.id s));
     (lit "projectRoot", JSON.Str (Session.projectRoot s));
     (lit "model", JSON.Str (Session.model s));
     (lit "messages", JSON.Arr (map messageJSON (Session.messages s)));
     (lit "summary",
        match Session.summary s with
        | Some t => JSON.Str t
        | None => JSON.Null
        end);
     (lit "summaryUpTo", JSON.Num (JSON.Int (Session.summaryUpTo s)));
     (lit "todos", JSON.Arr (map taskJSON (Session.todos s)));
     (lit "created", JSON.Num (JSON.Int (Session.created s)));
     (lit "updated", JSON.Num (JSON.Int (Session.updated s)))].

(** The property [k] of a parsed object: of members with the same key the
    last one counts. *)
Definition field (k : text) (v : JSON.value) : option JSON.value :=
  match v with
  | JSON.Obj ms =>
      option_map snd (find (fun kv => text_eqb (fst kv) k) (rev ms))
  | _ => None
  end.

Definition asText (o : option JSON.value) : option text :=
  match o with Some (JSON.Str t) => Some t | _ => None end.

Definition asInt (o : option JSON.value) : option Z :=
  match o with Some (JSON.Num (JSON.Int z)) => Some z | _ => None end.

Definition asRole (o : option JSON.value) : option Role :=
  match asText o with
  | Some t =>
      find (fun r => text_eqb (roleText r) t) [system; user; assistant; tool]
  | None => None
  end.

Definition asStatus (o : option JSON.value) : option TaskStatus :=
  match asText o with
  | Some t =>
      find (fun s => text_eqb (statusText s) t)
        [pending; in_progress; completed]
  | None => None
  end.

Fixpoint all_some {A : Type} (l : list (option A)) : option (list A) :=
  match l with
  | [] => Some []
  | Some x :: l' => option_map (cons x) (all_some l')
  | None :: _ => None
  end.

Definition asArray {A : Type} (f : JSON.value -> option A)
  (o : option JSON.value) : option (list A) :=
  match o with
  | Some (JSON.Arr vs) => all_some (map f vs)
  | _ => None
  end.

Definition asMessage (v : JSON.value) : option Message.t :=
  match asRole (field (lit "role") v), asText (field (lit "content") v),
        asInt (field (lit "timestamp") v) with
  | Some r, Some c, Some t => Some (Message.mk r c t)
  | _, _, _ => None
  end.

Definition asTask (v : JSON.value) : option Task.t :=
  match asText (field (lit "id") v), asText (field (lit "content") v),
        asStatus (field (lit "status") v), asInt (field (lit "created") v) with
  | Some i, Some c, Some s, Some t => Some (Task.mk i c s t)
  | _, _, _, _ => None
  end.

Definition asSummary (o : option JSON.value) : option (option text) :=
  match o with
  | Some JSON.Null => Some None
  | Some (JSON.Str t) => Some (Some t)
  | _ => None
  end.

(** A parsed record read at the type [Session].  The cast of the source
    checks nothing: a record of another shape is outside the data model and
    is [None] here. *)
Definition asSession (v : JSON.value) : option Session.t :=
  match asText (field (lit "id") v), asText (field (lit "projectRoot") v),
        asText (field (lit "model") v),
        asArray asMessage (field (lit "messages") v),
        asSummary (field (lit "summary") v),
        asInt (field (lit "summaryUpTo") v),
        asArray asTask (field (lit "todos") v),
        asInt (field (lit "created") v), asInt (field (lit "updated") v) with
  | Some i, Some p, Some m, Some ms, Some sm, Some u, Some td, Some c, Some up =>
      Some (Session.mk i p m ms sm u td c up)
  | _, _, _, _, _, _, _, _, _ => None
  end.

Definition parseSession (t : text) : option Session.t :=
  match JSON.parse t with
  | Some v => asSession v
  | None => None
  end.

(* ================================================================== *)
(** * The file system and the shell, as the storage layer uses them *)

Module FS.

(** The regular files with their contents, the directories, and the paths
    on which a change is refused. *)
Record t : Type := mk {
  files : list (text * text);
  dirs : list text;
  denied : text -> bool
}.

Definition isFile (fs : t) (p : text) : bool :=
  existsb (fun f => text_eqb (fst f) p) (files fs).

Definition isDir (fs : t) (p : text) : bool :=
  existsb (text_eqb p) (dirs fs).

Definition content (fs : t) (p : text) : option text :=
  option_map snd (find (fun f => text_eqb (fst f) p) (files fs)).

Fixpoint put (p c : text) (l : list (text * text)) : list (text * text) :=
  match l with
  | [] => [(p, c)]
  | f :: l' => if text_eqb (fst f) p then (p, c) :: l' else f :: put p c l'
  end.

Definition remove (p : text) (l : list (text * text)) : list (text * text) :=
  filter (fun f => negb (text_eqb (fst f) p)) l.

End FS.

(** A computation on the file system that may throw: the first component
    is [None] when it threw, the second is the file system it leaves. *)
Definition IO (A : Type) : Type := FS.t -> option A * FS.t.

Definition ret {A : Type} (a : A) : IO A := fun fs => (Some a, fs).

Definition throw {A : Type} : IO A := fun fs => (None, fs).

Definition bind {A B : Type} (c : IO A) (k : A -> IO B) : IO B :=
  fun fs =>
    match c fs with
    | (Some a, fs') => k a fs'
    | (None, fs') => (None, fs')
    end.

(** [try { c } catch { h }]. *)
Definition catch {A : Type} (c : IO A) (h : IO A) : IO A :=
  fun fs =>
    match c fs with
    | (Some a, fs') => (Some a, fs')
    | (None, fs') => h fs'
    end.

Declare Scope io_scope.
Delimit Scope io_scope with io.
Notation "x <- c ;; k" := (bind c (fun x => k))
  (at level 61, c at next level, right associativity) : io_scope.
Notation "c ;; k" := (bind c (fun _ => k))
  (at level 61, right associativity) : io_scope.
Local Open Scope io_scope.

(** [Bun.file (p).exists ()]: true for a regular file, false for a
    directory and for a path that does not exist (the declaration of
    [BunFile.exists] in Bun's types: true for regular files and FIFOs,
    false for directories). *)
Definition exists_ (p : text) : IO bool :=
  fun fs => (Some (FS.isFile fs p), fs).

(** [Bun.file (p).text ()]. *)
Definition readText (p : text) : IO text :=
  fun fs => (FS.content fs p, fs).

(** [Bun.write (p, c)]. *)
Definition write (p c : text) : IO unit :=
  fun fs =>
    if FS.denied fs p || FS.isDir fs p then (None, fs)
    else (Some tt, FS.mk (FS.put p c (FS.files fs)) (FS.dirs fs) (FS.denied fs)).

(** [mkdir -p d]. *)
Definition mkdir_p (d : text) : IO unit :=
  fun fs =>
    if FS.denied fs d || FS.isFile fs d then (None, fs)
    else if FS.isDir fs d then (Some tt, fs)
    else (Some tt, FS.mk (FS.files fs) (d :: FS.dirs fs) (FS.denied fs)).

(** [rm p]. *)
Definition rm (p : text) : IO unit :=
  fun fs =>
    if FS.isFile fs p && negb (FS.denied fs p)
    then (Some tt, FS.mk (FS.remove p (FS.files fs)) (FS.dirs fs) (FS.denied fs))
    else (None, fs).

Fixpoint ends_with (suffix s : text) : bool :=
  text_eqb suffix s ||
  match s with
  | [] => false
  | _ :: s' => ends_with suffix s'
  end.

(** The name of a visible [.json] file directly in directory [d]. *)
Definition json_in (d p : text) : bool :=
  match JSON.strip_prefix (d ++ lit "/") p with
  | Some name =>
      negb (existsb (N.eqb 47) name)
      && negb (match name with c :: _ => N.eqb c 46 | [] => true end)
      && ends_with (lit ".json") name
  | None => false
  end.

(** [ls -1 d/*.json]: the paths the pattern expands to, one per line; the
    command fails when it expands to nothing.  The paths come in the order
    of the store (the sorting of [ls] is not modelled). *)
Definition ls_json (d : text) : IO text :=
  fun fs =>
    match filter (json_in d) (map fst (FS.files fs)) with
    | [] => (None, fs)
    | paths => (Some (concat (map (fun p => p ++ [nl]) paths)), fs)
    end.

(** [String.prototype.trim], [split] on the line feed, [filter (Boolean)]. *)
Fixpoint trimStart (s : text) : text :=
  match s with
  | c :: t => if is_space c then trimStart t else s
  | [] => []
  end.

Definition trim (s : text) : text := rev (trimStart (rev (trimStart s))).

Fixpoint split_lines (cur : text) (s : text) : list text :=
  match s with
  | [] => [rev cur]
  | c :: t =>
      if N.eqb c nl then rev cur :: split_lines [] t
      else split_lines (c :: cur) t
  end.

Definition lines_of (out : text) : list text :=
  filter nonempty (split_lines [] (trim out)).

(* ================================================================== *)
(** * The session storage (session/storage.ts) *)

Module SessionMetadata.
Record t : Type := mk {
  id : text;
  projectRoot : text;
  model : text;
  messageCount : nat;
  created : Z;
  updated : Z
}.
End SessionMetadata.

Definition metadata (s : Session.t) : SessionMetadata.t :=
  SessionMetadata.mk (Session.id s) (Session.projectRoot s) (Session.model s)
    (length (Session.messages s)) (Session.created s) (Session.updated s).

(** [entries.sort ((a, b) => b.updated - a.updated)]: by [updated],
    newest first, entries with equal [updated] in their order. *)
Fixpoint insertEntry (x : SessionMetadata.t) (l : list SessionMetadata.t)
  : list SessionMetadata.t :=
  match l with
  | [] => [x]
  | y :: l' =>
      if (SessionMetadata.updated y <=? SessionMetadata.updated x)%Z
      then x :: y :: l'
      else y :: insertEntry x l'
  end.

Definition sortEntries (l : list SessionMetadata.t) : list SessionMetadata.t :=
  fold_right insertEntry [] l.

(** The last segment of a path: [path.split ('/').pop ()]. *)
Fixpoint lastSegment (cur : text) (s : text) : text :=
  match s with
  | [] => rev cur
  | c :: t => if N.eqb c 47 then lastSegment [] t else lastSegment (c :: cur) t
  end.

(** [replace (/[:.]/g, '-')]. *)
Definition dashed (s : text) : text :=
  map (fun c => if N.eqb c 58 || N.eqb c 46 then 45%N else c) s.

Section Storage.

Variable sessionsDir : text.

(** [createHash ('sha256').update (s).digest ('hex')]. *)
Variable sha256hex : text -> text.

Definition hashPath (projectRoot : text) : text :=
  let hash := firstn 12 (sha256hex projectRoot) in
  let last := lastSegment [] projectRoot in
  let safeName := if nonempty last then last else lit "default" in
  safeName ++ lit "-" ++ hash.

Definition getSessionDir (projectRoot : text) : text :=
  sessionsDir ++ lit "/" ++ hashPath projectRoot.

Definition getCurrentPath (projectRoot : text) : text :=
  getSessionDir projectRoot ++ lit "/current.json".

Definition getArchiveDir (projectRoot : text) : text :=
  getSessionDir projectRoot ++ lit "/archive".

Definition storage_save (session : Session.t) : IO unit :=
  let dir := getSessionDir (Session.projectRoot session) in
  let path := getCurrentPath (Session.projectRoot session) in
  mkdir_p dir ;;
  write path (stringify (sessionJSON session)).

(** The content of a file read at the type of sessions, for the callers
    that go on to use the fields of the session. *)
Definition readSession (path : text) : IO Session.t :=
  t <- readText path ;;
  match parseSession t with
  | Some s => ret s
  | None => throw
  end.

Definition storage_load (projectRoot : text) : IO (option Session.t) :=
  let path := getCurrentPath projectRoot in
  e <- exists_ path ;;
  if e
  then catch (s <- readSession path ;; ret (Some s)) (ret None)
  else ret None.

(** [isoNow] is [new Date ().toISOString ()]. *)
Definition storage_archive (isoNow : text) (session : Session.t) : IO text :=
  let archiveDir := getArchiveDir (Session.projectRoot session) in
  mkdir_p archiveDir ;;
  let timestamp := dashed isoNow in
  let archivePath := archiveDir ++ lit "/" ++ timestamp ++ lit ".json" in
  write archivePath (stringify (sessionJSON session)) ;;
  let currentPath := getCurrentPath (Session.projectRoot session) in
  e <- exists_ currentPath ;;
  (if e then rm currentPath else ret tt) ;;
  ret archivePath.

(** The loop over the listed files: a file that cannot be read or parsed
    is skipped. *)
Fixpoint readEntries (files : list text) : IO (list SessionMetadata.t) :=
  match files with
  | [] => ret []
  | file :: rest =>
      e <- catch (s <- readSession file ;; ret (Some (metadata s))) (ret None) ;;
      es <- readEntries rest ;;
      ret (match e with Some x => x :: es | None => es end)
  end.

(** The outer [try] of [listArchived]: the files are listed and read; when
    the listing fails there are no entries. *)
Definition listEntries (archiveDir : text) : IO (list SessionMetadata.t) :=
  catch (out <- ls_json archiveDir ;; readEntries (lines_of out)) (ret []).

Definition storage_listArchived (projectRoot : text)
  : IO (list SessionMetadata.t) :=
  let archiveDir := getArchiveDir projectRoot in
  e <- exists_ archiveDir ;;
  if negb e then ret []
  else
    entries <- listEntries archiveDir ;;
    ret (sortEntries entries).

(** [JSON.parse (await Bun.file (file).text ())]: the value of the file's
    text; the read and the parse may throw. *)
Definition readRecord (path : text) : IO JSON.value :=
  t <- readText path ;;
  match JSON.parse t with
  | Some v => ret v
  | None => throw
  end.

(** [session.id === sessionId] on a parsed value, which is only cast to a
    session: reading a property of [null] throws; any other value without
    an [id], or whose [id] is not that string, gives false. *)
Definition hasId (sessionId : text) (v : JSON.value) : IO bool :=
  match v with
  | JSON.Null => throw
  | _ =>
      ret (match field (lit "id") v with
           | Some (JSON.Str i) => text_eqb i sessionId
           | _ => false
           end)
  end.

(** The loop of [loadArchived]: the first listed file whose value has the
    identifier is returned as it was parsed; a file that cannot be read or
    parsed is skipped. *)
Fixpoint findSession (sessionId : text) (files : list text)
  : IO (option JSON.value) :=
  match files with
  | [] => ret None
  | file :: rest =>
      r <- catch (session <- readRecord file ;;
                  same <- hasId sessionId session ;;
                  ret (if same then Some session else None))
                 (ret None) ;;
      match r with
      | Some session => ret (Some session)
      | None => findSession sessionId rest
      end
  end.

(** [loadArchived] returns the parsed value under the type of sessions,
    without looking at its other fields. *)
Definition storage_loadArchived (projectRoot sessionId : text)
  : IO (option JSON.value) :=
  let archiveDir := getArchiveDir projectRoot in
  catch (out <- ls_json archiveDir ;; findSession sessionId (lines_of out))
    (ret None).

(* ------------------------------------------------------------------ *)
(** ** The manager's side of persistence *)

(** The manager: its session, the dirty flag and whether a save timer is
    pending. *)
Record Manager : Type := MkManager {
  session : Session.t;
  dirty : bool;
  saveTimeout : bool
}.

Definition markDirty (m : Manager) : Manager :=
  MkManager (session m) true true.

(** [SessionManager.save]: the result, the manager and the file system. *)
Definition manager_save (m : Manager) (fs : FS.t)
  : option unit * Manager * FS.t :=
  let m1 := MkManager (session m) (dirty m) false in
  match storage_save (session m) fs with
  | (Some _, fs') => (Some tt, MkManager (session m) false false, fs')
  | (None, fs') => (None, m1, fs')
  end.

(** [SessionManager.archive]: [uuid], [now] and [now'] are what
    [createEmptySession] draws from the generator and the clock. *)
Definition manager_archive (isoNow uuid : text) (now now' : Z)
  (m : Manager) (fs : FS.t) : option text * Manager * FS.t :=
  match manager_save m fs with
  | (Some _, m1, fs1) =>
      match storage_archive isoNow (session m1) fs1 with
      | (Some archivePath, fs2) =>
          (Some archivePath,
           MkManager
             (createEmptySession (Session.projectRoot (session m1))
                (Session.model (session m1)) uuid now now')
             (dirty m1) (saveTimeout m1),
           fs2)
      | (None, fs2) => (None, m1, fs2)
      end
  | (None, m1, fs1) => (None, m1, fs1)
  end.

Definition manager_listArchived (m : Manager)
  : IO (list SessionMetadata.t) :=
  storage_listArchived (Session.projectRoot (session m)).

(** [SessionManager.loadArchived]: the value found becomes the manager's
    session. The manager of this development holds a session record, so the
    result is given when the value found is one ([asSession]); the first
    component is [None] when it is not. *)
Definition manager_loadArchived (sessionId : text) (m : Manager) (fs : FS.t)
  : option bool * Manager * FS.t :=
  match storage_loadArchived (Session.projectRoot (session m)) sessionId fs with
  | (Some (Some archived), fs') =>
      match asSession archived with
      | Some session' =>
          (Some true,
           markDirty (MkManager session' (dirty m) (saveTimeout m)), fs')
      | None => (None, m, fs')
      end
  | (_, fs') => (Some false, m, fs')
  end.

End Storage.

(* ================================================================== *)
(** * The session manager: the context sent to the model, the tasks *)

(** [clear]: a fresh session for the same project and model; [uuid],
    [now] and [now'] are what [createEmptySession] draws. *)
Definition clear (uuid : text) (now now' : Z) (s : Session.t) : Session.t :=
  createEmptySession (Session.projectRoot s) (Session.model s) uuid now now'.

(** [getContextMessages]: the system prompt, extended by the summary when
    there is one, then the messages later than the summary point, or all
    of them when there is no summary. *)
Definition getContextMessages (systemPrompt : text) (s : Session.t)
  : list Message.t :=
  let fullSystemPrompt :=
    match Session.summary s with
    | Some summary =>
        if truthy (Session.summary s)
        then systemPrompt ++ [nl; nl]
             ++ lit "## Previous Conversation Summary" ++ [nl] ++ summary
        else systemPrompt
    | None => systemPrompt
    end in
  let recentMessages :=
    if truthy (Session.summary s)
    then filter (fun m => (Session.summaryUpTo s <? Message.timestamp m)%Z)
           (Session.messages s)
    else Session.messages s in
  Message.mk system fullSystemPrompt 0 :: recentMessages.

(** The line of a task, as [formatTodosForPrompt] and the [list] action of
    the todo tool both write it. *)
Definition taskLine (k : Task.t) : text :=
  let icon :=
    match Task.status k with
    | completed => lit "[x]"
    | in_progress => lit "[>]"
    | pending => lit "[ ]"
    end in
  icon ++ lit " " ++ Task.content k ++ lit " (id: " ++ Task.id k ++ lit ")".

Definition formatTodosForPrompt (s : Session.t) : text :=
  let todos := Session.todos s in
  if (length todos =? 0)%nat then []
  else [nl] ++ lit "## Current Tasks" ++ [nl] ++ join [nl] (map taskLine todos).

(** The number of code units of the contents of a message list. *)
Definition totalLength (messages : list Message.t) : Z :=
  fold_right (fun m sum => (Z.of_nat (length (Message.content m)) + sum)%Z)
    0%Z messages.

(* ================================================================== *)
(** * The project context (project/types.ts, project/index.ts) *)

Module StackType.
Inductive t : Type := runtime | language | framework | tool.
End StackType.

Module TechStackInfo.
Record t : Type := mk {
  type : StackType.t;
  name : text;
  version : option text
}.
End TechStackInfo.

Module ProjectContext.
Record t : Type := mk {
  root : text;
  name : text;
  instructions : option text;
  gitRepo : bool;
  gitBranch : option text;
  techStack : list TechStackInfo.t;
  cwd : text
}.
End ProjectContext.

(** The text of a [string | null] in a template, where the source has
    tested it to be truthy. *)
Definition orEmpty (o : option text) : text :=
  match o with
  | Some t => t
  | None => []
  end.

Definition stackEntry (s : TechStackInfo.t) : text :=
  if truthy (TechStackInfo.version s)
  then TechStackInfo.name s ++ lit " " ++ orEmpty (TechStackInfo.version s)
  else TechStackInfo.name s.

Definition formatProjectContext (project : ProjectContext.t) : text :=
  let instructionParts :=
    if truthy (ProjectContext.instructions project)
    then [lit "## Project Instructions (from SPOT.md)" ++ [nl; nl]
          ++ orEmpty (ProjectContext.instructions project)]
    else [] in
  let envLines :=
    [lit "Working directory: " ++ ProjectContext.cwd project;
     lit "Project root: " ++ ProjectContext.root project;
     lit "Project name: " ++ ProjectContext.name project]
    ++ (if ProjectContext.gitRepo project
        then [lit "Git repo: yes"
              ++ (if truthy (ProjectContext.gitBranch project)
                  then lit " (branch: "
                       ++ orEmpty (ProjectContext.gitBranch project) ++ lit ")"
                  else [])]
        else [])
    ++ (if (0 <? length (ProjectContext.techStack project))%nat
        then [lit "Tech stack: "
              ++ join (lit ", ")
                   (map stackEntry (ProjectContext.techStack project))]
        else []) in
  let parts :=
    instructionParts ++ [lit "## Environment" ++ [nl] ++ join [nl] envLines] in
  join [nl; nl] parts.

(* ================================================================== *)
(** * The REPL: the messages it sends (repl.ts) *)

(** The rightwards arrow of the prompt, one UTF-16 code unit. *)
Definition arrow : N := 8594%N.

Definition BASE_SYSTEM_PROMPT : text :=
  lit "You are Spot, a local AI assistant for coding and Linux system tasks."
  ++ [nl; nl] ++ lit "## Response Style"
  ++ [nl] ++ lit "Match your response length to the complexity of the request:"
  ++ [nl] ++ lit "- Simple question " ++ [arrow]
  ++ lit " simple answer (1-2 sentences)"
  ++ [nl] ++ lit "- Task request " ++ [arrow]
  ++ lit " acknowledge briefly, then do it"
  ++ [nl] ++ lit "- Complex question " ++ [arrow]
  ++ lit " explain what's needed, but stay focused"
  ++ [nl; nl] ++ lit "Do NOT:"
  ++ [nl] ++ lit "- Provide examples unless asked (" ++ [dquote]
  ++ lit "Can you write JS?" ++ [dquote] ++ lit " " ++ [arrow] ++ lit " "
  ++ [dquote] ++ lit "Yes, I can." ++ [dquote] ++ lit " not " ++ [dquote]
  ++ lit "Yes, here's a demo..." ++ [dquote] ++ lit ")"
  ++ [nl] ++ lit "- Explain capabilities hypothetically - either answer or act"
  ++ [nl] ++ lit "- Add disclaimers, caveats, or " ++ [dquote]
  ++ lit "let me know if you need anything else" ++ [dquote]
  ++ [nl] ++ lit "- Pad responses with unnecessary context"
  ++ [nl; nl] ++ lit "Do:"
  ++ [nl] ++ lit "- Answer directly and naturally"
  ++ [nl] ++ lit "- When doing tasks, briefly state what you're doing, then do it"
  ++ [nl]
  ++ lit "- Use tools to actually perform actions rather than describing what you would do"
  ++ [nl] ++ lit "- Be helpful and conversational, just not verbose"
  ++ [nl; nl] ++ lit "## Tools"
  ++ [nl] ++ lit "You have these tools: "
  ++ join (lit ", ") (map tool_name allTools)
  ++ [nl; nl]
  ++ lit "When the user asks you to DO something (read a file, run a command, find something), use the appropriate tool. Output the tool call as JSON:"
  ++ [nl] ++ js "{'name': 'tool_name', 'arguments': {'param': 'value'}}"
  ++ [nl].

(** [buildSystemPrompt]: [project] is the project the REPL has detected,
    [cwd] the value of [process.cwd ()]. *)
Definition buildSystemPrompt (project : option ProjectContext.t) (cwd : text)
  (s : Session.t) : text :=
  let prompt :=
    match project with
    | Some p => BASE_SYSTEM_PROMPT ++ [nl] ++ formatProjectContext p
    | None =>
        BASE_SYSTEM_PROMPT ++ [nl] ++ lit "## Environment" ++ [nl]
        ++ lit "Working directory: " ++ cwd
    end in
  let todosSection := formatTodosForPrompt s in
  if nonempty todosSection then prompt ++ [nl] ++ todosSection else prompt.

Definition toChatMessage (m : Message.t) : ChatMessage.t :=
  ChatMessage.mk (Message.role m) (Message.content m).

Definition getMessagesForModel (project : option ProjectContext.t)
  (cwd : text) (s : Session.t) : list ChatMessage.t :=
  let systemPrompt := buildSystemPrompt project cwd s in
  map toChatMessage (getContextMessages systemPrompt s).

(* ================================================================== *)
(** * The session storage and the manager: deleting, loading, the save timer *)

Section StorageMore.

Variable sessionsDir : text.
Variable sha256hex : text -> text.

(** [SessionStorage.delete]. *)
Definition storage_delete (projectRoot : text) : IO unit :=
  let currentPath := getCurrentPath sessionsDir sha256hex projectRoot in
  e <- exists_ currentPath ;;
  if e then rm currentPath else ret tt.

(** [SessionManager.load]. *)
Definition manager_load (m : Manager) (fs : FS.t)
  : option bool * Manager * FS.t :=
  match storage_load sessionsDir sha256hex
          (Session.projectRoot (session m)) fs with
  | (Some (Some existing), fs') =>
      (Some true, MkManager existing (dirty m) (saveTimeout m), fs')
  | (Some None, fs') => (Some false, m, fs')
  | (None, fs') => (None, m, fs')
  end.

(** [SessionManager.clear]. *)
Definition manager_clear (uuid : text) (now now' : Z) (m : Manager)
  : Manager :=
  markDirty
    (MkManager (clear uuid now now' (session m)) (dirty m) (saveTimeout m)).

(** The callback [markDirty] hands to [setTimeout], run when the timer
    fires: the session is saved when the manager is dirty.  After it the
    timer is no longer pending. *)
Definition autosave (m : Manager) (fs : FS.t)
  : option unit * Manager * FS.t :=
  if dirty m then
    match storage_save sessionsDir sha256hex (session m) fs with
    | (Some _, fs') => (Some tt, MkManager (session m) false false, fs')
    | (None, fs') => (None, MkManager (session m) (dirty m) false, fs')
    end
  else (Some tt, MkManager (session m) (dirty m) false, fs).

End StorageMore.

(** A line of a listing that survives [trim] and [split]: it holds no
    line feed and begins and ends with a code unit other than white
    space. *)
Definition tidy (p : text) : Prop :=
  ~ In nl p /\
  (exists c r, p = c :: r /\ is_space c = false) /\
  (exists r c, p = r ++ [c] /\ is_space c = false).

(* ================================================================== *)
(** * The tools: their parameters

    A tool receives the parsed arguments of a call.  The sources cast the
    properties of this object to their declared types without checking
    them; here a property is read with the coercions JavaScript applies to
    it, and a value on which these are not modelled ([None]) leaves the
    tool's result undetermined. *)

(** Whether a parameter is falsy: [undefined] (the property is missing),
    [null], [false], zero and the empty string are; arrays and objects are
    not.  A number written with a fraction or an exponent is not
    modelled. *)
Definition jsFalsy (o : option JSON.value) : option bool :=
  match o with
  | None => Some true
  | Some JSON.Null => Some true
  | Some (JSON.Bool b) => Some (negb b)
  | Some (JSON.Str t) => Some (JSON.is_nil t)
  | Some (JSON.Num (JSON.Int z)) => Some (z =? 0)%Z
  | Some (JSON.Num (JSON.Real _)) => None
  | Some (JSON.Arr _) | Some (JSON.Obj _) => Some false
  end.

(** A parameter used as a string once it has been tested to be truthy:
    [Some None] when it is falsy, [Some (Some t)] when it is the string
    [t]; a truthy value of another type is not modelled. *)
Definition truthyText (o : option JSON.value) : option (option text) :=
  match jsFalsy o with
  | Some true => Some None
  | Some false =>
      match o with
      | Some (JSON.Str t) => Some (Some t)
      | _ => None
      end
  | None => None
  end.

(** [String (v)] in a template, for the values on which it is modelled:
    integers are written in full up to 2^53 in size. *)
Definition jsString (o : option JSON.value) : option text :=
  match o with
  | None => Some (lit "undefined")
  | Some JSON.Null => Some (lit "null")
  | Some (JSON.Bool true) => Some (lit "true")
  | Some (JSON.Bool false) => Some (lit "false")
  | Some (JSON.Str t) => Some t
  | Some (JSON.Num (JSON.Int z)) =>
      if (Z.abs z <=? 9007199254740992)%Z then Some (show_Z z) else None
  | Some (JSON.Obj _) => Some (lit "[object Object]")
  | _ => None
  end.

(* ================================================================== *)
(** * The todo tool (tools/todo.ts) *)

(** The answer for an action that needs the id of a task. *)
Definition withId (action : text) (id : option JSON.value) (s : Session.t)
  (run : text -> text * Session.t) : option (text * option Session.t) :=
  match truthyText id with
  | Some None =>
      Some (js "Error: 'id' is required for " ++ action ++ lit " action",
            Some s)
  | Some (Some i) => let '(out, s') := run i in Some (out, Some s')
  | None => None
  end.

(** [todoTool.execute]: [context] is the session of the tool context, when
    there is one; [uuid] and [now] are what [addTodo] draws.  The result
    is the text returned and the session as the call leaves it. *)
Definition todo_execute (params : JSON.value) (uuid : text) (now : Z)
  (context : option Session.t) : option (text * option Session.t) :=
  match context with
  | None => Some (lit "Error: Todo tool requires session context", None)
  | Some s =>
      match params with
      | JSON.Obj _ =>
          let content := field (lit "content") params in
          let id := field (lit "id") params in
          let unknown (action : text) :=
            js "Error: Unknown action '" ++ action
            ++ js "'. Use: list, add, start, complete, remove, clear_completed"
          in
          match field (lit "action") params with
          | Some (JSON.Str action) =>
              if text_eqb action (lit "list") then
                let todos := Session.todos s in
                if (length todos =? 0)%nat
                then Some (lit "No tasks in the list.", Some s)
                else Some (lit "Tasks:" ++ [nl]
                           ++ join [nl] (map taskLine todos), Some s)
              else if text_eqb action (lit "add") then
                match truthyText content with
                | Some None =>
                    Some (js "Error: 'content' is required for add action",
                          Some s)
                | Some (Some c) =>
                    let '(task, s') := addTodo c uuid now s in
                    Some (lit "Added task: " ++ Task.content task
                          ++ lit " (id: " ++ Task.id task ++ lit ")", Some s')
                | None => None
                end
              else if text_eqb action (lit "start") then
                withId action id s (fun i =>
                  let '(success, s') := updateTodo i in_progress s in
                  if success
                  then (lit "Task " ++ i ++ lit " marked as in progress", s')
                  else (lit "Error: Task " ++ i ++ lit " not found", s'))
              else if text_eqb action (lit "complete") then
                withId action id s (fun i =>
                  let '(success, s') := updateTodo i completed s in
                  if success
                  then (lit "Task " ++ i ++ lit " marked as completed", s')
                  else (lit "Error: Task " ++ i ++ lit " not found", s'))
              else if text_eqb action (lit "remove") then
                withId action id s (fun i =>
                  let '(success, s') := removeTodo i s in
                  if success
                  then (lit "Task " ++ i ++ lit " removed", s')
                  else (lit "Error: Task " ++ i ++ lit " not found", s'))
              else if text_eqb action (lit "clear_completed") then
                let '(count, s') := clearCompletedTodos s in
                Some (lit "Cleared " ++ show_nat count
                      ++ lit " completed task(s)", Some s')
              else Some (unknown action, Some s)
          | other =>
              option_map (fun a => (unknown a, Some s)) (jsString other)
          end
      | _ => None
      end
  end.

(* ================================================================== *)
(** * The edit tool (tools/edit.ts) *)

(** [s.split (sep)] for a separator that is not empty: the pieces between
    the occurrences of [sep], found from left to right without overlap.
    [cur] holds the piece being read, reversed; [fuel] bounds the number
    of steps, one more than the length of [s] is enough. *)
Fixpoint split_from (fuel : nat) (sep cur s : text) : list text :=
  match fuel with
  | O => [rev cur ++ s]
  | S fuel' =>
      match JSON.strip_prefix sep s with
      | Some after => rev cur :: split_from fuel' sep [] after
      | None =>
          match s with
          | [] => [rev cur]
          | c :: t => split_from fuel' sep (c :: cur) t
          end
      end
  end.

(** [s.split (sep)]: with the empty separator, the code units of [s]. *)
Definition splitOn (sep s : text) : list text :=
  match sep with
  | [] => map (fun c => [c]) s
  | _ => split_from (S (length s)) sep [] s
  end.

(** The replacement text of [String.prototype.replace] for a pattern that
    is a string (so there are no captures): in the template [$$] stands
    for a dollar sign, [$&] for the matched text, [$`] for the text before
    the match and [$'] for the text after it; everything else is taken as
    it is. *)
Fixpoint substitute (matched before after template : text) : text :=
  match template with
  | [] => []
  | c :: t =>
      if N.eqb c 36 then
        match t with
        | d :: t' =>
            if N.eqb d 36 then 36%N :: substitute matched before after t'
            else if N.eqb d 38 then
              matched ++ substitute matched before after t'
            else if N.eqb d 96 then
              before ++ substitute matched before after t'
            else if N.eqb d 39 then
              after ++ substitute matched before after t'
            else c :: substitute matched before after t
        | [] => [c]
        end
      else c :: substitute matched before after t
  end.

(** [s.replace (old, template)] for a string [old]: the first occurrence
    is replaced; [before] holds the text read so far, reversed. *)
Fixpoint replace_from (old template before s : text) : text :=
  match JSON.strip_prefix old s with
  | Some after =>
      rev before ++ substitute old (rev before) after template ++ after
  | None =>
      match s with
      | [] => rev before
      | c :: t => replace_from old template (c :: before) t
      end
  end.

Definition replaceFirst (old template s : text) : text :=
  replace_from old template [] s.

Module EditParams.
Record t : Type := mk {
  path : text;
  old_string : text;
  new_string : text;
  replace_all : bool
}.
End EditParams.

(** The parameters of the edit tool, read from the arguments of a call:
    the three texts must be strings; [replace_all] counts when it is
    truthy. *)
Definition editParams (params : JSON.value) : option EditParams.t :=
  match asText (field (lit "path") params),
        asText (field (lit "old_string") params),
        asText (field (lit "new_string") params),
        jsFalsy (field (lit "replace_all") params) with
  | Some p, Some o, Some n, Some f => Some (EditParams.mk p o n (negb f))
  | _, _, _, _ => None
  end.

Section EditTool.

(** [path.resolve (cwd, path)] of Node. *)
Variable resolve : text -> text -> text.

(** [String (error)] for the error a failed read or write throws. *)
Variable thrown : text.

(** [editTool.execute]; [cwd] is the directory of the tool context, or
    that of the process.  The result is the text the tool returns. *)
Definition edit_execute (p : EditParams.t) (cwd : text) : IO text :=
  let path := EditParams.path p in
  let oldString := EditParams.old_string p in
  let newString := EditParams.new_string p in
  let replaceAll := EditParams.replace_all p in
  catch
    (let fullPath := resolve cwd path in
     e <- exists_ fullPath ;;
     if negb e then ret (lit "Error: File not found: " ++ fullPath)
     else
       content <- readText fullPath ;;
       if negb (includes oldString content) then
         let preview :=
           if (100 <? length oldString)%nat
           then firstn 100 oldString ++ lit "..."
           else oldString in
         ret (lit "Error: String not found in file." ++ [nl]
              ++ lit "Searched for:" ++ [nl] ++ preview ++ [nl; nl]
              ++ lit "Make sure the string matches exactly, including whitespace and indentation.")
       else
         let occurrences :=
           (Z.of_nat (length (splitOn oldString content)) - 1)%Z in
         if negb replaceAll && (1 <? occurrences)%Z then
           ret (lit "Error: Found " ++ show_Z occurrences
                ++ lit " occurrences of the string. Either:" ++ [nl]
                ++ lit "1. Provide more context to make the match unique, or"
                ++ [nl]
                ++ lit "2. Set replace_all: true to replace all occurrences")
         else
           let replacementCount := if replaceAll then occurrences else 1%Z in
           let newContent :=
             if replaceAll
             then join newString (splitOn oldString content)
             else replaceFirst oldString newString content in
           write fullPath newContent ;;
           let action :=
             if JSON.is_nil newString then lit "Deleted"
             else if JSON.is_nil oldString then lit "Inserted"
             else lit "Replaced" in
           ret (if replaceAll && (1 <? replacementCount)%Z
                then action ++ lit " " ++ show_Z replacementCount
                     ++ lit " occurrences in " ++ path
                else action ++ lit " text in " ++ path))
    (ret (lit "Error editing file: " ++ thrown)).

End EditTool.

(* ================================================================== *)
(** * Properties of the context continuity engine *)

Section Compaction.

Definition lastN {A : Type} (n : nat) (l : list A) : list A :=
  skipn (length l - n) l.

Lemma splitIndex_long (l : list Message.t) :
  10 < length l -> splitIndex l = length l - 10.
Proof. unfold splitIndex, KEEP_RECENT_MESSAGES; lia. Qed.

Lemma splitIndex_short (l : list Message.t) :
  length l <= 10 -> splitIndex l = 0.
Proof. unfold splitIndex, KEEP_RECENT_MESSAGES; lia. Qed.

Lemma summary_prefix (messages : list Message.t) :
  exists rest, fallbackSummary messages = ch "P" :: rest.
Proof.
  unfold fallbackSummary.
  destruct (0 <? length (uniquePaths messages)); eexists;
    change (lit "Previous conversation: ")
      with (ch "P" :: lit "revious conversation: ");
    rewrite <- ?app_comm_cons; reflexivity.
Qed.

Lemma fallbackSummary_nonempty (messages : list Message.t) :
  fallbackSummary messages <> [].
Proof.
  destruct (summary_prefix messages) as [r ->]; discriminate.
Qed.

Lemma combineSummary_nonempty (old : option text) (digest : text) :
  digest <> [] \/ truthy old = true -> combineSummary old digest <> [].
Proof.
  unfold combineSummary; destruct old as [[|c o]|]; simpl.
  - intros [H|H]; [exact H | discriminate].
  - intros _; discriminate.
  - intros [H|H]; [exact H | discriminate].
Qed.

(** What one run of [maybeCompress] does when it compacts. *)
Lemma maybeCompress_compacting (digest : Digest) (s : Session.t) :
  (CONTEXT_THRESHOLD <= estimateMessagesTokens (Session.messages s))%Z ->
  10 < length (Session.messages s) ->
  exists m,
    nth_error (Session.messages s) (length (Session.messages s) - 11)
      = Some m /\
    maybeCompress digest s =
      (true,
       Session.mk (Session.id s) (Session.projectRoot s) (Session.model s)
         (lastN 10 (Session.messages s))
         (Some (combineSummary (Session.summary s)
                  (summarize digest
                     (firstn (length (Session.messages s) - 10)
                        (Session.messages s)))))
         (Message.timestamp m)
         (Session.todos s) (Session.created s) (Session.updated s)).
Proof.
  intros Htok Hlen.
  destruct (nth_error (Session.messages s) (length (Session.messages s) - 11))
    as [m|] eqn:Hm.
  2:{ apply nth_error_None in Hm; lia. }
  exists m; split; [reflexivity|].
  unfold maybeCompress.
  destruct (Z.ltb_spec (estimateMessagesTokens (Session.messages s))
              CONTEXT_THRESHOLD) as [Hlt|_]; [lia|].
  rewrite (splitIndex_long _ Hlen).
  rewrite length_firstn, Nat.min_l by lia.
  destruct (Nat.eqb_spec (length (Session.messages s) - 10) 0) as [E|_]; [lia|].
  rewrite nth_error_firstn.
  replace (length (Session.messages s) - 10 - 1)
    with (length (Session.messages s) - 11) by lia.
  destruct (Nat.ltb_spec (length (Session.messages s) - 11)
              (length (Session.messages s) - 10)) as [_|H]; [|lia].
  rewrite Hm; reflexivity.
Qed.

(** A run answers true only on a session whose estimate reaches the
    threshold and that has more than [KEEP_RECENT_MESSAGES] messages. *)
Lemma maybeCompress_true_inv (digest : Digest) (s : Session.t) :
  fst (maybeCompress digest s) = true ->
  (CONTEXT_THRESHOLD <= estimateMessagesTokens (Session.messages s))%Z /\
  10 < length (Session.messages s).
Proof.
  unfold maybeCompress.
  destruct (Z.ltb_spec (estimateMessagesTokens (Session.messages s))
              CONTEXT_THRESHOLD) as [Hlt|Hge]; [discriminate|].
  destruct (Nat.eqb_spec
              (length (firstn (splitIndex (Session.messages s))
                         (Session.messages s))) 0) as [E|E]; [discriminate|].
  intros _; split; [exact Hge|].
  destruct (Nat.le_gt_cases (length (Session.messages s)) 10) as [H|H];
    [|exact H].
  rewrite (splitIndex_short _ H) in E; simpl in E; congruence.
Qed.

End Compaction.

(* ------------------------------------------------------------------ *)
(** ** Sample sessions *)

Definition filler (n : nat) : text := repeat 32%N n.

(** Eleven messages of 9000 code units each: 24750 estimated tokens. *)
Definition sampleMessages : list Message.t :=
  map (fun i => Message.mk user (filler 9000) (Z.of_nat i)) (seq 1 11).

Definition sampleSession : Session.t :=
  Session.mk (lit "s-1") (lit "/home/u/proj") (lit "qwen") sampleMessages
    None 0 [] 0 11.

Definition emptyDigest : Digest := fun _ => Some [].
Definition someDigest : Digest := fun _ => Some (lit "digest").
Definition failingDigest : Digest := fun _ => None.

(** A session that already has a summary. *)
Definition summarizedSession : Session.t :=
  Session.mk (lit "s-1") (lit "/home/u/proj") (lit "qwen") sampleMessages
    (Some (lit "Earlier: the tests were fixed.")) 0 [] 0 11.

(** C1 (as amended).  A session whose estimate reaches the threshold and
    that has more than ten messages is compacted by one run of
    [maybeCompress]: the run answers true, the message list becomes exactly
    the last ten messages, and [summaryUpTo] becomes the timestamp of the
    eleventh message from the end.  The digest of the older messages is the
    answer of the backend or, when the request fails, the local summary.
    With a non-empty summary already there, [summary] becomes that summary,
    then a blank line, three dashes and a blank line, then the digest;
    otherwise it becomes the digest.  The summary is a non-empty text
    whenever the backend did not answer the digest request with an empty
    text, or a non-empty summary was already there. *)
Theorem maybeCompress_keeps_last_ten (digest : Digest) (s : Session.t) :
  (CONTEXT_THRESHOLD <= estimateMessagesTokens (Session.messages s))%Z ->
  10 < length (Session.messages s) ->
  let older :=
    firstn (length (Session.messages s) - 10) (Session.messages s) in
  let newSummary :=
    match digest (summarizePrompt older) with
    | Some content => content
    | None => fallbackSummary older
    end in
  let s' := snd (maybeCompress digest s) in
  fst (maybeCompress digest s) = true /\
  Session.messages s' = lastN 10 (Session.messages s) /\
  length (Session.messages s') = 10 /\
  Session.summary s'
    = Some (match Session.summary s with
            | Some (c :: previous) =>
                (c :: previous) ++ [nl; nl] ++ lit "---" ++ [nl; nl]
                  ++ newSummary
            | _ => newSummary
            end) /\
  (exists m,
      nth_error (Session.messages s) (length (Session.messages s) - 11)
        = Some m /\
      Session.summaryUpTo s' = Message.timestamp m) /\
  (digest (summarizePrompt older) <> Some [] \/
   (exists c previous, Session.summary s = Some (c :: previous)) ->
   exists c r, Session.summary s' = Some (c :: r)).
Proof.
  intros Htok Hlen older newSummary s'.
  destruct (maybeCompress_compacting digest s Htok Hlen) as (m & Hm & E).
  fold older in E; change (summarize digest older) with newSummary in E.
  assert (Es : combineSummary (Session.summary s) newSummary
               = match Session.summary s with
                 | Some (c :: previous) =>
                     (c :: previous) ++ [nl; nl] ++ lit "---" ++ [nl; nl]
                       ++ newSummary
                 | _ => newSummary
                 end).
  { unfold combineSummary; destruct (Session.summary s) as [[|c o]|];
      reflexivity. }
  subst s'; rewrite E; cbn [fst snd Session.messages Session.summary
                             Session.summaryUpTo].
  rewrite <- Es.
  repeat split; try reflexivity.
  - unfold lastN; rewrite length_skipn; lia.
  - exists m; split; [exact Hm | reflexivity].
  - intros H.
    assert (N : combineSummary (Session.summary s) newSummary <> []).
    { apply combineSummary_nonempty.
      destruct H as [H|(c & o & H)]; [left | right; rewrite H; reflexivity].
      subst newSummary.
      destruct (digest (summarizePrompt older)) as [d|] eqn:Ed.
      - intros ->; apply H; reflexivity.
      - apply fallbackSummary_nonempty. }
    destruct (combineSummary (Session.summary s) newSummary)
      as [|c r]; [congruence|].
    exists c, r; reflexivity.
Qed.

Lemma maybeCompress_keeps_last_ten_witness :
  let s' := snd (maybeCompress someDigest summarizedSession) in
  fst (maybeCompress someDigest summarizedSession) = true /\
  Session.messages s' = lastN 10 sampleMessages /\
  length (Session.messages s') = 10 /\
  Session.summary s'
    = Some (lit "Earlier: the tests were fixed." ++ [nl; nl] ++ lit "---"
              ++ [nl; nl] ++ lit "digest") /\
  (exists m,
      nth_error sampleMessages (length sampleMessages - 11) = Some m /\
      Session.summaryUpTo s' = Message.timestamp m) /\
  (someDigest
     (summarizePrompt (firstn (length sampleMessages - 10) sampleMessages))
     <> Some [] \/
   (exists c previous,
       Some (lit "Earlier: the tests were fixed.") = Some (c :: previous)) ->
   exists c r, Session.summary s' = Some (c :: r)).
Proof.
  apply (maybeCompress_keeps_last_ten someDigest summarizedSession).
  - vm_compute; discriminate.
  - vm_compute; lia.
Defined.

(** C1, as stated, fails: when the backend answers the digest request with
    an empty text and no summary exists yet, the run compacts the session
    and leaves the empty text as its summary. *)
Lemma maybeCompress_empty_summary :
  (CONTEXT_THRESHOLD < estimateMessagesTokens (Session.messages sampleSession))%Z
  /\ 10 < length (Session.messages sampleSession)
  /\ fst (maybeCompress emptyDigest sampleSession) = true
  /\ Session.summary (snd (maybeCompress emptyDigest sampleSession)) = Some [].
Proof.
  repeat split; vm_compute; try reflexivity; lia.
Qed.

(** C6.  Two runs of the continuity check in a row, with no message added
    in between, compact at most once: when the first run compacts, the
    second answers false and leaves the session (its messages, [summary]
    and [summaryUpTo] included) as the first run left it, whatever the
    backend would answer. *)
Theorem maybeCompress_twice (d1 d2 : Digest) (s : Session.t) :
  fst (maybeCompress d1 s) = true ->
  maybeCompress d2 (snd (maybeCompress d1 s))
    = (false, snd (maybeCompress d1 s)).
Proof.
  intros H.
  destruct (maybeCompress_true_inv d1 s H) as [Htok Hlen].
  destruct (maybeCompress_compacting d1 s Htok Hlen) as (m & _ & E).
  rewrite E; simpl.
  unfold maybeCompress at 1; simpl.
  match goal with |- context [Z.ltb ?a ?b] => destruct (Z.ltb a b) end;
    [reflexivity|].
  rewrite splitIndex_short
    by (unfold lastN; rewrite length_skipn; lia).
  reflexivity.
Qed.

Lemma maybeCompress_twice_witness :
  maybeCompress failingDigest (snd (maybeCompress someDigest sampleSession))
    = (false, snd (maybeCompress someDigest sampleSession)).
Proof.
  apply (maybeCompress_twice someDigest failingDigest sampleSession).
  vm_compute; reflexivity.
Defined.

(* ------------------------------------------------------------------ *)
(** ** Runs of manager operations *)

(** The operations that change a session in place, each with what it draws
    from its environment (the clock, the UUID generator, the backend). *)
Inductive Op : Type :=
| AddMessage (role : Role) (content : text) (now now' : Z)
| MaybeCompress (digest : Digest)
| SetModel (model : text)
| AddTodo (content uuid : text) (now : Z)
| UpdateTodo (id : text) (status : TaskStatus)
| RemoveTodo (id : text)
| ClearCompletedTodos.

Definition step (s : Session.t) (op : Op) : Session.t :=
  match op with
  | AddMessage role content now now' => addMessage role content now now' s
  | MaybeCompress digest => snd (maybeCompress digest s)
  | SetModel model => setModel model s
  | AddTodo content uuid now => snd (addTodo content uuid now s)
  | UpdateTodo id status => snd (updateTodo id status s)
  | RemoveTodo id => snd (removeTodo id s)
  | ClearCompletedTodos => snd (clearCompletedTodos s)
  end.

Definition runOps (ops : list Op) (s : Session.t) : Session.t :=
  fold_left step ops s.

(** The readings of the clock that stamp the messages never go backwards,
    starting from [t]. *)
Fixpoint timely (t : Z) (ops : list Op) : Prop :=
  match ops with
  | [] => True
  | AddMessage _ _ now _ :: rest => (t <= now)%Z /\ timely now rest
  | _ :: rest => timely t rest
  end.

(** The messages are stamped in non-decreasing order, none before
    [summaryUpTo] and none after [t]. *)
Definition ordered (t : Z) (s : Session.t) : Prop :=
  (Session.summaryUpTo s <= t)%Z /\
  StronglySorted Z.le (map Message.timestamp (Session.messages s)) /\
  Forall (fun m => (Session.summaryUpTo s <= Message.timestamp m <= t)%Z)
    (Session.messages s).

(** The latest reading of the message clock after a run. *)
Fixpoint clock_after (t : Z) (ops : list Op) : Z :=
  match ops with
  | [] => t
  | AddMessage _ _ now _ :: rest => clock_after now rest
  | _ :: rest => clock_after t rest
  end.

Section Monotone.

Lemma sorted_snoc (l : list Z) (x : Z) :
  StronglySorted Z.le l -> Forall (fun y => (y <= x)%Z) l ->
  StronglySorted Z.le (l ++ [x]).
Proof.
  induction 1 as [|a l Hs IH Ha]; intros Hx; simpl.
  - repeat constructor.
  - inversion Hx; subst. constructor; [auto|].
    apply Forall_app; split; [exact Ha | repeat constructor; assumption].
Qed.

Lemma sorted_skipn (k : nat) (l : list Z) :
  StronglySorted Z.le l -> StronglySorted Z.le (skipn k l).
Proof.
  revert l; induction k as [|k IH]; intros l H; [exact H|].
  destruct l as [|a l]; [constructor|].
  inversion H; subst; simpl; auto.
Qed.

Lemma sorted_nth_le (l : list Z) (i j : nat) (x y : Z) :
  StronglySorted Z.le l -> i <= j ->
  nth_error l i = Some x -> nth_error l j = Some y -> (x <= y)%Z.
Proof.
  intros H; revert i j; induction H as [|a l Hs IH Ha]; intros i j Hij Hi Hj.
  - destruct i; discriminate.
  - destruct i as [|i], j as [|j]; simpl in *; try lia.
    + injection Hi as <-; injection Hj as <-; lia.
    + injection Hi as <-.
      rewrite Forall_forall in Ha; apply Ha.
      eapply nth_error_In; eauto.
    + eapply IH with (i := i) (j := j); eauto; lia.
Qed.

Lemma maybeCompress_ordered (t : Z) (digest : Digest) (s : Session.t) :
  ordered t s ->
  ordered t (snd (maybeCompress digest s)) /\
  (Session.summaryUpTo s
   <= Session.summaryUpTo (snd (maybeCompress digest s)))%Z.
Proof.
  intros (H1 & H2 & H3).
  destruct (fst (maybeCompress digest s)) eqn:Hb.
  - destruct (maybeCompress_true_inv digest s Hb) as [Htok Hlen].
    destruct (maybeCompress_compacting digest s Htok Hlen) as (m & Hm & E).
    rewrite E; simpl.
    assert (Hin : In m (Session.messages s)) by (eapply nth_error_In; eauto).
    pose proof (proj1 (Forall_forall _ _) H3 m Hin) as Hmt; simpl in Hmt.
    split; [|lia].
    unfold ordered, lastN; simpl; repeat split.
    + lia.
    + rewrite <- skipn_map; apply sorted_skipn; exact H2.
    + apply Forall_forall; intros x Hx.
      assert (Hx' : In x (Session.messages s)).
      { rewrite <- (firstn_skipn (length (Session.messages s) - 10)).
        apply in_or_app; right; exact Hx. }
      pose proof (proj1 (Forall_forall _ _) H3 x Hx') as Hxt; simpl in Hxt.
      split; [|lia].
      apply In_nth_error in Hx; destruct Hx as [i Hi].
      rewrite nth_error_skipn in Hi.
      eapply sorted_nth_le with
        (i := length (Session.messages s) - 11)
        (j := length (Session.messages s) - 10 + i); eauto; try lia.
      * rewrite nth_error_map, Hm; reflexivity.
      * rewrite nth_error_map, Hi; reflexivity.
  - assert (E : snd (maybeCompress digest s) = s).
    { revert Hb; unfold maybeCompress.
      destruct (estimateMessagesTokens (Session.messages s)
                <? CONTEXT_THRESHOLD)%Z; [reflexivity|].
      destruct (length (firstn (splitIndex (Session.messages s))
                          (Session.messages s)) =? 0);
        [reflexivity | discriminate]. }
    rewrite E; split; [repeat split; assumption | lia].
Qed.

Lemma addMessage_ordered (t now now' : Z) (r : Role) (c : text)
  (s : Session.t) :
  (t <= now)%Z -> ordered t s -> ordered now (addMessage r c now now' s).
Proof.
  intros Ht (H1 & H2 & H3); unfold ordered; simpl; repeat split.
  - lia.
  - rewrite map_app; simpl; apply sorted_snoc; [exact H2|].
    apply Forall_map; eapply Forall_impl; [|exact H3]; simpl; intros; lia.
  - apply Forall_app; split.
    + eapply Forall_impl; [|exact H3]; simpl; intros; lia.
    + repeat constructor; simpl; lia.
Qed.

(** One operation keeps the order of the stamps and does not decrease
    [summaryUpTo]. *)
Lemma step_ordered (t : Z) (op : Op) (s : Session.t) :
  timely t [op] -> ordered t s ->
  ordered (clock_after t [op]) (step s op) /\
  (Session.summaryUpTo s <= Session.summaryUpTo (step s op))%Z.
Proof.
  intros Ht Ho; destruct op; simpl in *.
  - split; [apply addMessage_ordered with (t := t); tauto | lia].
  - apply maybeCompress_ordered; exact Ho.
  - split; [exact Ho | lia].
  - split; [exact Ho | lia].
  - unfold updateTodo; destruct (updateFirst id status (Session.todos s));
      simpl; split; try exact Ho; lia.
  - unfold removeTodo; destruct (removeFirst id (Session.todos s));
      simpl; split; try exact Ho; lia.
  - split; [exact Ho | lia].
Qed.

Lemma runOps_ordered (ops : list Op) (t : Z) (s : Session.t) :
  timely t ops -> ordered t s ->
  ordered (clock_after t ops) (runOps ops s) /\
  (Session.summaryUpTo s <= Session.summaryUpTo (runOps ops s))%Z.
Proof.
  revert t s; induction ops as [|op ops IH]; intros t s Ht Ho.
  - simpl; split; [exact Ho | lia].
  - assert (Ht1 : timely t [op]) by (destruct op; simpl in *; tauto).
    assert (Ht2 : timely (clock_after t [op]) ops)
      by (destruct op; simpl in *; tauto).
    destruct (step_ordered t op s Ht1 Ho) as [Ho1 Hle1].
    destruct (IH _ _ Ht2 Ho1) as [Ho2 Hle2].
    change (runOps (op :: ops) s) with (runOps ops (step s op)).
    replace (clock_after t (op :: ops))
      with (clock_after (clock_after t [op]) ops) by (destruct op; reflexivity).
    split; [exact Ho2 | lia].
Qed.

Lemma timely_app (a b : list Op) (t : Z) :
  timely t (a ++ b) -> timely t a /\ timely (clock_after t a) b.
Proof.
  revert t; induction a as [|op a IH]; intros t H; simpl in *; [tauto|].
  destruct op; simpl in *; try (apply IH; exact H).
  destruct H as [H1 H2]; destruct (IH _ H2); tauto.
Qed.

End Monotone.

(** A fresh session is in order at any time that is not negative. *)
Lemma createEmptySession_ordered (root model uuid : text) (now now' t : Z) :
  (0 <= t)%Z -> ordered t (createEmptySession root model uuid now now').
Proof.
  intros H; unfold ordered; simpl; repeat split;
    [exact H | constructor | constructor].
Qed.

(** C8 (as amended).  Along a run of manager operations (addMessage,
    maybeCompress, setModel and the operations on tasks) [summaryUpTo]
    never decreases, provided the clock that stamps the messages never goes
    backwards and the session starts in order: its messages stamped in
    non-decreasing order, none before [summaryUpTo] and none after the
    first reading, as in a fresh session.  Whatever the run did up to some
    point, [summaryUpTo] is at least as large after the rest of the run. *)
Theorem summaryUpTo_monotone (t : Z) (before after : list Op)
  (s : Session.t) :
  ordered t s -> timely t (before ++ after) ->
  (Session.summaryUpTo (runOps before s)
   <= Session.summaryUpTo (runOps (before ++ after) s))%Z.
Proof.
  intros Ho Ht.
  destruct (timely_app before after t Ht) as [Ha Hb].
  destruct (runOps_ordered before t s Ha Ho) as [Ho1 _].
  destruct (runOps_ordered after _ _ Hb Ho1) as [_ Hle].
  unfold runOps in *; rewrite fold_left_app; exact Hle.
Qed.

Definition freshSession : Session.t :=
  createEmptySession (lit "/home/u/proj") (lit "qwen") (lit "uuid-1") 0 0.

Definition stamped (from : Z) (n : nat) : list Op :=
  map (fun i => AddMessage user (filler 9000) (from + Z.of_nat i)
                  (from + Z.of_nat i)) (seq 0 n).

(** Eleven messages stamped 1 to 11, then the continuity check. *)
Definition steadyOps : list Op := stamped 1 11 ++ [MaybeCompress someDigest].

Definition laterOps : list Op :=
  SetModel (lit "llama") :: stamped 12 10 ++ [MaybeCompress failingDigest].

Lemma summaryUpTo_monotone_witness :
  (Session.summaryUpTo (runOps steadyOps freshSession)
   <= Session.summaryUpTo (runOps (steadyOps ++ laterOps) freshSession))%Z.
Proof.
  apply (summaryUpTo_monotone 0 steadyOps laterOps freshSession).
  - apply createEmptySession_ordered; lia.
  - vm_compute; repeat split; discriminate.
Defined.

(** The clock is set back after the first message: one message stamped
    5000, ten stamped 100 to 109, the continuity check, ten more stamped
    110 to 119, the continuity check. *)
Definition clockSetBack : list Op :=
  stamped 5000 1 ++ stamped 100 10 ++ [MaybeCompress someDigest].

Definition afterSetBack : list Op :=
  stamped 110 10 ++ [MaybeCompress someDigest].

(** C8, as stated, fails: [maybeCompress] assigns the stamp of the last
    compacted message whatever [summaryUpTo] was, so after the clock has
    been set back a run of addMessage and maybeCompress on a fresh session
    decreases [summaryUpTo] (here from 5000 to 109). *)
Lemma summaryUpTo_decreases :
  Session.summaryUpTo (runOps clockSetBack freshSession) = 5000%Z /\
  Session.summaryUpTo (runOps (clockSetBack ++ afterSetBack) freshSession)
    = 109%Z /\
  (Session.summaryUpTo (runOps (clockSetBack ++ afterSetBack) freshSession)
   < Session.summaryUpTo (runOps clockSetBack freshSession))%Z.
Proof.
  repeat split; vm_compute; reflexivity.
Qed.

(* ================================================================== *)
(** * Properties of the summarizer *)

Section Fallback.

Lemma existsb_text_eqb (x : text) (l : list text) :
  existsb (text_eqb x) l = true <-> In x l.
Proof.
  rewrite existsb_exists; split.
  - intros (y & Hy & E); apply text_eqb_eq in E; subst; exact Hy.
  - intros H; exists x; split; [exact H | apply text_eqb_refl].
Qed.

Lemma uniq_spec (l seen : list text) :
  NoDup (uniq seen l) /\
  (forall x, In x (uniq seen l) <-> In x l /\ ~ In x seen).
Proof.
  revert seen; induction l as [|a l IH]; intros seen; simpl.
  - split; [constructor | intros x; tauto].
  - destruct (existsb (text_eqb a) seen) eqn:E.
    + apply existsb_text_eqb in E.
      destruct (IH seen) as [Hn Hi]; split; [exact Hn|].
      intros x; rewrite Hi; split.
      * tauto.
      * intros [[->|H] Hs]; [contradiction | tauto].
    + assert (Ha : ~ In a seen).
      { intros H; apply existsb_text_eqb in H; congruence. }
      destruct (IH (a :: seen)) as [Hn Hi]; split.
      * constructor; [|exact Hn].
        intros H; apply Hi in H; simpl in H; tauto.
      * intros x; simpl; rewrite Hi; simpl.
        destruct (list_eq_dec N.eq_dec a x) as [->|Hne]; tauto.
Qed.

Lemma NoDup_prefix {A : Type} (n : nat) (l : list A) :
  NoDup l -> NoDup (firstn n l).
Proof.
  revert l; induction n as [|n IH]; intros [|a l] H; simpl; try constructor.
  - inversion H; subst.
    intros Hin; apply H2.
    rewrite <- (firstn_skipn n l); apply in_or_app; left; exact Hin.
  - inversion H; auto.
Qed.

Lemma In_prefix {A : Type} (n : nat) (l : list A) (x : A) :
  In x (firstn n l) -> In x l.
Proof.
  intros H; rewrite <- (firstn_skipn n l); apply in_or_app; left; exact H.
Qed.

(** [uniq] keeps the order of the first occurrences: whatever comes before
    the first occurrence of a kept element has been kept before it, or had
    been seen. *)
Lemma uniq_order (l seen before : list text) (p : text) (after : list text) :
  uniq seen l = before ++ p :: after ->
  exists pre post,
    l = pre ++ p :: post /\ ~ In p pre /\
    (forall q, In q pre -> In q before \/ In q seen).
Proof.
  revert seen before; induction l as [|a l IH]; intros seen before E;
    cbn [uniq] in E.
  - destruct before; discriminate.
  - assert (Hp : forall sn bf, uniq sn l = bf ++ p :: after -> ~ In p sn).
    { intros sn bf H Hin.
      assert (Hk : In p (uniq sn l))
        by (rewrite H; apply in_or_app; right; left; reflexivity).
      apply uniq_spec in Hk; tauto. }
    destruct (existsb (text_eqb a) seen) eqn:Ea.
    + apply existsb_text_eqb in Ea.
      destruct (IH seen before E) as (pre & post & -> & Hn & Hq).
      exists (a :: pre), post; repeat split.
      * intros [->|H]; [exact (Hp seen before E Ea) | exact (Hn H)].
      * intros q [<-|H]; [right; exact Ea | apply Hq; exact H].
    + destruct before as [|b before'].
      * injection E as -> _.
        exists [], l; repeat split; [intros [] | intros q []].
      * injection E as <- E.
        destruct (IH (a :: seen) before' E) as (pre & post & -> & Hn & Hq).
        exists (a :: pre), post; repeat split.
        -- intros [->|H]; [|exact (Hn H)].
           apply (Hp (p :: seen) before' E); left; reflexivity.
        -- intros q [<-|H]; [left; left; reflexivity|].
           destruct (Hq q H) as [H'|[<-|H']];
             [left; right; exact H' | left; left; reflexivity
             | right; exact H'].
Qed.

End Fallback.

(** C9 (as amended).  When the digest request fails, [summarize] does not
    fail: it returns the fallback, a text computed from the messages alone.
    The text gives the number of user messages and the number of assistant
    messages (messages of the other roles are not counted) and then, when
    there are any, the file paths found in the contents.  The paths listed
    are the first ten of the distinct paths: the list that holds every
    occurrence of the path pattern in the joined contents, each once, in
    the order of their first occurrence. *)
Theorem summarize_fallback (digest : Digest) (messages : list Message.t) :
  digest (summarizePrompt messages) = None ->
  let allContent := join (lit " ") (map Message.content messages) in
  let found := map matched (match_all pathPattern allContent) in
  let userMessages :=
    length (filter (fun m => Role_eqb (Message.role m) user) messages) in
  let assistantMessages :=
    length (filter (fun m => Role_eqb (Message.role m) assistant) messages) in
  exists distinct : list text,
    NoDup distinct /\
    (forall p, In p distinct <-> In p found) /\
    (forall before p after,
        distinct = before ++ p :: after ->
        exists pre post,
          found = pre ++ p :: post /\ ~ In p pre /\
          (forall q, In q pre -> In q before)) /\
    let paths := firstn 10 distinct in
    length paths <= 10 /\
    summarize digest messages = fallbackSummary messages /\
    fallbackSummary messages =
      lit "Previous conversation: " ++ show_nat userMessages
      ++ lit " user messages, " ++ show_nat assistantMessages
      ++ lit " assistant responses."
      ++ (if JSON.is_nil paths then []
          else lit " Files discussed: " ++ join (lit ", ") paths ++ lit ".").
Proof.
  intros Hfail allContent found userMessages assistantMessages.
  exists (uniq [] found).
  destruct (uniq_spec found []) as [Hn Hi].
  split; [exact Hn|]; split; [|split].
  - intros p; rewrite Hi; cbn [In]; tauto.
  - intros before p after E.
    destruct (uniq_order found [] before p after E)
      as (pre & post & Ef & Hp & Hq).
    exists pre, post; repeat split; [exact Ef | exact Hp |].
    intros q H; destruct (Hq q H) as [H'|[]]; exact H'.
  - cbv zeta; split; [apply firstn_le_length|]; split.
    + unfold summarize; rewrite Hfail; reflexivity.
    + unfold fallbackSummary, uniquePaths, count_role.
      fold allContent; fold found; fold userMessages;
        fold assistantMessages; cbv zeta.
      destruct (firstn 10 (uniq [] found)) as [|p ps];
        cbn [JSON.is_nil]; cbv iota.
      * change (0 <? length (@nil text)) with false; cbv iota.
        rewrite !app_assoc, app_nil_r; reflexivity.
      * change (0 <? length (p :: ps)) with true; cbv iota.
        rewrite !app_assoc; reflexivity.
Qed.

Definition pathMessages : list Message.t :=
  [Message.mk user (lit "please fix src/repl.ts and README.md") 1;
   Message.mk assistant (lit "edited src/repl.ts") 2;
   Message.mk tool (lit "ok") 3].

(** Twelve different paths, two of them named twice. *)
Definition manyPathMessages : list Message.t :=
  [Message.mk user (lit "compare a.ts b.ts c.ts d.ts e.ts f.ts with b.ts") 1;
   Message.mk assistant (lit "read g.ts h.ts i.ts a.ts j.ts k.ts l.ts") 2].

Lemma summarize_fallback_witness :
  let allContent := join (lit " ") (map Message.content manyPathMessages) in
  let found := map matched (match_all pathPattern allContent) in
  exists distinct : list text,
    NoDup distinct /\
    (forall p, In p distinct <-> In p found) /\
    (forall before p after,
        distinct = before ++ p :: after ->
        exists pre post,
          found = pre ++ p :: post /\ ~ In p pre /\
          (forall q, In q pre -> In q before)) /\
    let paths := firstn 10 distinct in
    length paths <= 10 /\
    summarize failingDigest manyPathMessages
      = fallbackSummary manyPathMessages /\
    fallbackSummary manyPathMessages =
      lit "Previous conversation: " ++ show_nat 1
      ++ lit " user messages, " ++ show_nat 1
      ++ lit " assistant responses."
      ++ (if JSON.is_nil paths then []
          else lit " Files discussed: " ++ join (lit ", ") paths ++ lit ".").
Proof.
  apply (summarize_fallback failingDigest manyPathMessages); reflexivity.
Defined.

(** The fallback on the sample with twelve paths: the first ten are listed,
    each once. *)
Example fallbackSummary_capped :
  map matched
    (match_all pathPattern
       (join (lit " ") (map Message.content manyPathMessages)))
  = map lit ["a.ts"; "b.ts"; "c.ts"; "d.ts"; "e.ts"; "f.ts"; "b.ts"; "g.ts";
             "h.ts"; "i.ts"; "a.ts"; "j.ts"; "k.ts"; "l.ts"]%string
  /\ summarize failingDigest manyPathMessages =
     lit "Previous conversation: 1 user messages, 1 assistant responses. Files discussed: a.ts, b.ts, c.ts, d.ts, e.ts, f.ts, g.ts, h.ts, i.ts, j.ts.".
Proof. split; vm_compute; reflexivity. Qed.

(** The fallback on the sample: one user message, one assistant message,
    two paths. *)
Example fallbackSummary_sample :
  fallbackSummary pathMessages =
  lit "Previous conversation: 1 user messages, 1 assistant responses. Files discussed: src/repl.ts, README.md.".
Proof. vm_compute; reflexivity. Qed.

(** C9, as stated, fails: the fallback does not count the messages of each
    role.  Messages of the roles tool and system leave the summary as it
    is without them. *)
Lemma fallback_ignores_other_roles :
  summarize failingDigest
    [Message.mk tool (lit "done") 1; Message.mk system (lit "be brief") 2]
  = summarize failingDigest [] /\
  count_role tool
    [Message.mk tool (lit "done") 1; Message.mk system (lit "be brief") 2]
  <> count_role tool [] /\
  count_role system
    [Message.mk tool (lit "done") 1; Message.mk system (lit "be brief") 2]
  <> count_role system [].
Proof.
  repeat split; vm_compute; try reflexivity; discriminate.
Qed.

(* ================================================================== *)
(** * Properties of the matcher and of the two grammars *)

Section RegexFacts.

(** Whether [r] leaves capture group [k] alone. *)
Fixpoint no_group (k : nat) (r : regex) : bool :=
  match r with
  | Eps | Chr _ | WordBoundary => true
  | Seq a b | Alt a b => no_group k a && no_group k b
  | Star a => no_group k a
  | Group n a => negb (Nat.eqb n k) && no_group k a
  end.

Lemma star_iter_closure (P : mstate -> mstate -> Prop)
  (step : mstate -> list mstate) :
  (forall st, P st st) ->
  (forall a b c, P a b -> P b c -> P a c) ->
  (forall st st', In st' (step st) -> P st st') ->
  forall n st st', In st' (star_iter step n st) -> P st st'.
Proof.
  intros Hrefl Htrans Hstep; induction n as [|n IH]; intros st st' H;
    simpl in H.
  - destruct H as [<-|[]]; apply Hrefl.
  - apply in_app_or in H; destruct H as [H|[<-|[]]]; [|apply Hrefl].
    apply in_flat_map in H; destruct H as (st1 & H1 & H2).
    destruct (length (rest st1) <? length (rest st)); [|destruct H2].
    eapply Htrans; [apply Hstep; exact H1 | apply IH; exact H2].
Qed.

Lemma last_app_cons (l : text) (c : N) (w : text) :
  last (l ++ c :: w) 0%N = last (c :: w) 0%N.
Proof.
  induction l as [|x l IH]; [reflexivity|].
  simpl app; rewrite <- IH.
  destruct (l ++ c :: w) eqn:E; [destruct l; discriminate | reflexivity].
Qed.

Lemma last_or_app (p : option N) (w1 w2 : text) :
  last_or (last_or p w1) w2 = last_or p (w1 ++ w2).
Proof.
  destruct w2 as [|c w2]; [rewrite app_nil_r; reflexivity|].
  destruct w1 as [|d w1]; [reflexivity|].
  unfold last_or at 1; simpl app; unfold last_or.
  rewrite app_comm_cons, last_app_cons; reflexivity.
Qed.

(** A match consumes a prefix of the input and ends after its last code
    unit. *)
Lemma run_advances (r : regex) :
  forall st st', In st' (run r st) ->
  exists w, rest st = w ++ rest st' /\ prev st' = last_or (prev st) w.
Proof.
  induction r as [|p|a IHa b IHb|a IHa b IHb|a IHa|n a IHa|];
    intros st st' H; simpl in H.
  - destruct H as [<-|[]]; exists []; split; reflexivity.
  - destruct (rest st) as [|c t] eqn:E; [destruct H|].
    destruct (p c); [|destruct H].
    destruct H as [<-|[]]; exists [c]; split; reflexivity.
  - apply in_flat_map in H; destruct H as (st1 & H1 & H2).
    destruct (IHa _ _ H1) as (w1 & E1 & P1), (IHb _ _ H2) as (w2 & E2 & P2).
    exists (w1 ++ w2); split.
    + rewrite E1, E2, app_assoc; reflexivity.
    + rewrite P2, P1; apply last_or_app.
  - apply in_app_or in H; destruct H as [H|H]; eauto.
  - revert H; apply star_iter_closure
      with (P := fun a b => exists w, rest a = w ++ rest b
                                      /\ prev b = last_or (prev a) w).
    + intros x; exists []; split; reflexivity.
    + intros x y z (w1 & E1 & P1) (w2 & E2 & P2); exists (w1 ++ w2); split.
      * rewrite E1, E2, app_assoc; reflexivity.
      * rewrite P2, P1; apply last_or_app.
    + exact IHa.
  - apply in_map_iff in H; destruct H as (st1 & <- & H1).
    simpl; eauto.
  - destruct (xorb _ _); [|destruct H].
    destruct H as [<-|[]]; exists []; split; reflexivity.
Qed.

Lemma run_consumes (r : regex) (st st' : mstate) :
  In st' (run r st) -> exists w, rest st = w ++ rest st'.
Proof.
  intros H; destruct (run_advances r _ _ H) as (w & E & _); eauto.
Qed.

Lemma consumed_app (st st' : mstate) (w : text) :
  rest st = w ++ rest st' -> consumed st st' = w.
Proof.
  intros E; unfold consumed; rewrite E, length_app.
  replace (length w + length (rest st') - length (rest st')) with (length w)
    by lia.
  rewrite firstn_app, Nat.sub_diag, firstn_all; simpl; apply app_nil_r.
Qed.

(** An expression without group [k] leaves the capture [k] as it was. *)
Lemma run_keeps_group (k : nat) (r : regex) :
  no_group k r = true ->
  forall st st', In st' (run r st) -> cap k (caps st') = cap k (caps st).
Proof.
  induction r as [|p|a IHa b IHb|a IHa b IHb|a IHa|n a IHa|];
    simpl; intros Hk st st' H.
  - destruct H as [<-|[]]; reflexivity.
  - destruct (rest st) as [|c t]; [destruct H|].
    destruct (p c); [|destruct H].
    destruct H as [<-|[]]; reflexivity.
  - apply andb_true_iff in Hk; destruct Hk as [Ka Kb].
    apply in_flat_map in H; destruct H as (st1 & H1 & H2).
    rewrite (IHb Kb _ _ H2); apply (IHa Ka _ _ H1).
  - apply andb_true_iff in Hk; destruct Hk as [Ka Kb].
    apply in_app_or in H; destruct H as [H|H]; eauto.
  - revert H; apply star_iter_closure
      with (P := fun a b => cap k (caps b) = cap k (caps a)).
    + reflexivity.
    + intros x y z E1 E2; congruence.
    + apply IHa; exact Hk.
  - apply andb_true_iff in Hk; destruct Hk as [Kn Ka].
    apply in_map_iff in H; destruct H as (st1 & <- & H1); simpl.
    apply negb_true_iff in Kn; rewrite Kn.
    apply (IHa Ka _ _ H1).
  - destruct (xorb _ _); [|destruct H].
    destruct H as [<-|[]]; reflexivity.
Qed.

(** A literal consumes exactly its text. *)
Lemma run_Lit (s : text) :
  forall st st', In st' (run (Lit s) st) -> rest st = s ++ rest st'.
Proof.
  induction s as [|c s IH]; intros st st' H; simpl in H.
  - destruct H as [<-|[]]; reflexivity.
  - apply in_flat_map in H; destruct H as (st1 & H1 & H2).
    destruct (rest st) as [|d t] eqn:E; [destruct H1|].
    destruct (N.eqb_spec c d) as [->|]; [|destruct H1].
    destruct H1 as [<-|[]].
    apply IH in H2; simpl in H2; rewrite H2; reflexivity.
Qed.

(** A group records what its expression consumed. *)
Lemma run_Group (k : nat) (a : regex) (st st' : mstate) :
  In st' (run (Group k a) st) ->
  exists st1, In st1 (run a st) /\ rest st' = rest st1 /\
              cap k (caps st') = Some (consumed st st1).
Proof.
  simpl; intros H; apply in_map_iff in H; destruct H as (st1 & <- & H1).
  exists st1; simpl; rewrite Nat.eqb_refl; auto.
Qed.

(** Every occurrence the search reports is a match at some position. *)
Lemma scan_matches (r : regex) (s : text) :
  forall p pos skip m, In m (scan r p s pos skip) ->
  exists p' s' pos', match_here r p' s' pos' = Some m.
Proof.
  induction s as [|c t IH]; intros p pos skip m H.
  - destruct skip; simpl in H; [|destruct H].
    destruct (match_here r p [] pos) as [m'|] eqn:E; [|destruct H].
    destruct H as [<-|[]]; eauto.
  - destruct skip; simpl in H; [|eauto].
    destruct (match_here r p (c :: t) pos) as [m'|] eqn:E; [|eauto].
    destruct H as [<-|H]; eauto.
Qed.

Lemma match_here_run (r : regex) (p : option N) (s : text) (pos : nat)
  (m : rmatch) :
  match_here r p s pos = Some m ->
  exists st', In st' (run r (MState p s [])) /\
              index m = pos /\
              matched m = consumed (MState p s []) st' /\
              groups m = caps st'.
Proof.
  unfold match_here.
  destruct (run r (MState p s [])) as [|st' l] eqn:E; [discriminate|].
  intros H; injection H as <-; exists st'; simpl; auto.
Qed.

(** The occurrences come at strictly increasing offsets. *)
Lemma scan_increasing (r : regex) (s : text) :
  forall p pos skip,
    StronglySorted lt (map index (scan r p s pos skip)) /\
    Forall (fun m => pos <= index m) (scan r p s pos skip).
Proof.
  assert (Hup : forall n l, Forall (fun m : rmatch => S n <= index m) l ->
                            Forall (fun m => n <= index m) l).
  { intros n l H; eapply Forall_impl; [|exact H]; simpl; intros; lia. }
  assert (Hlt : forall n l, Forall (fun m : rmatch => S n <= index m) l ->
                            Forall (lt n) (map index l)).
  { intros n l H; apply Forall_map; eapply Forall_impl; [|exact H].
    simpl; intros; lia. }
  induction s as [|c t IH]; intros p pos skip.
  - destruct skip; simpl; [|split; constructor].
    destruct (match_here r p [] pos) as [m|] eqn:E; [|split; constructor].
    apply match_here_run in E; destruct E as (_ & _ & E & _).
    split; repeat constructor; lia.
  - destruct skip; simpl.
    + destruct (match_here r p (c :: t) pos) as [m|] eqn:E.
      * apply match_here_run in E; destruct E as (_ & _ & E & _).
        destruct (IH (Some c) (S pos) (pred (length (matched m)))) as [S1 F1].
        split; [constructor; [exact S1 | rewrite E; apply Hlt; exact F1]|].
        constructor; [lia | apply Hup; exact F1].
      * destruct (IH (Some c) (S pos) 0) as [S1 F1]; split; auto.
    + destruct (IH (Some c) (S pos) skip) as [S1 F1]; split; auto.
Qed.

(** Stepping over the text [w] brings the search to the place after it. *)
Lemma scan_skip (r : regex) (w s' : text) :
  forall p pos,
    scan r p (w ++ s') pos (length w)
    = scan r (last_or p w) s' (pos + length w) 0.
Proof.
  induction w as [|c w IH]; intros p pos.
  - simpl; rewrite Nat.add_0_r; reflexivity.
  - simpl app; simpl length.
    change (scan r p (c :: w ++ s') pos (S (length w)))
      with (scan r (Some c) (w ++ s') (S pos) (length w)).
    rewrite IH, Nat.add_succ_r; simpl plus.
    destruct w; reflexivity.
Qed.

Section ExecLoop.

Variable r : regex.

(** [r] never matches the empty text. *)
Hypothesis nonempty_matches :
  forall p s pos m, match_here r p s pos = Some m -> matched m <> [].

(** One [exec] gives the next match of the search and the place where the
    search resumes, further in the text. *)
Lemma exec_scan (s : text) :
  forall p pos,
    match exec r p s pos with
    | None => scan r p s pos 0 = []
    | Some (m, (p', s', pos')) =>
        scan r p s pos 0 = m :: scan r p' s' pos' 0 /\ length s' < length s
    end.
Proof.
  induction s as [|c t IH]; intros p pos.
  - pose proof (nonempty_matches p [] pos) as NE.
    unfold match_here in NE; simpl; unfold match_here.
    destruct (run r (MState p [] [])) as [|st' l] eqn:E; [reflexivity|].
    exfalso; apply (NE _ eq_refl); simpl.
    assert (Hin : In st' (run r (MState p [] []))) by (rewrite E; left; auto).
    destruct (run_consumes _ _ _ Hin) as [w Hw].
    rewrite (consumed_app _ _ _ Hw).
    simpl in Hw; destruct w; [reflexivity | discriminate].
  - pose proof (nonempty_matches p (c :: t) pos) as NE.
    unfold match_here in NE.
    change (exec r p (c :: t) pos)
      with (let st := MState p (c :: t) [] in
            match run r st with
            | st' :: _ =>
                let m := RMatch pos (consumed st st') (caps st') in
                Some (m, (prev st', rest st', pos + length (matched m)))
            | [] => exec r (Some c) t (S pos)
            end).
    change (scan r p (c :: t) pos 0)
      with (match match_here r p (c :: t) pos with
            | Some m =>
                m :: scan r (Some c) t (S pos) (pred (length (matched m)))
            | None => scan r (Some c) t (S pos) 0
            end).
    unfold match_here; cbv zeta.
    destruct (run r (MState p (c :: t) [])) as [|st' l] eqn:E.
    + specialize (IH (Some c) (S pos)).
      destruct (exec r (Some c) t (S pos)) as [[m [[p' s'] pos']]|];
        [|exact IH].
      destruct IH as [IH1 IH2]; split; [exact IH1 | simpl; lia].
    + assert (Hin : In st' (run r (MState p (c :: t) [])))
        by (rewrite E; left; auto).
      destruct (run_advances _ _ _ Hin) as (w & Hw & Hp).
      specialize (NE _ eq_refl); simpl in NE, Hw, Hp |- *.
      rewrite (consumed_app (MState p (c :: t) []) st' w Hw) in *.
      destruct w as [|d w]; [congruence|].
      injection Hw as <- Ht; split.
      * f_equal; simpl length; simpl pred.
        rewrite Ht, scan_skip, Hp, Nat.add_succ_r; simpl plus.
        destruct w; reflexivity.
      * rewrite Ht, length_app; simpl; lia.
Qed.

(** With fuel beyond the length of the text the loop ends, and it visits
    the matches of the search. *)
Lemma exec_loop_scan (fuel : nat) :
  forall s p pos,
    length s < fuel -> exec_loop fuel r p s pos = Some (scan r p s pos 0).
Proof.
  induction fuel as [|fuel IH]; intros s p pos Hf; [lia|].
  simpl; pose proof (exec_scan s p pos) as E.
  destruct (exec r p s pos) as [[m [[p' s'] pos']]|].
  - destruct E as [E1 E2]; rewrite IH by lia; rewrite E1; reflexivity.
  - rewrite E; reflexivity.
Qed.

Lemma execAll_match_all (s : text) : execAll r s = match_all r s.
Proof.
  unfold execAll, match_all; rewrite exec_loop_scan by lia; reflexivity.
Qed.

End ExecLoop.

End RegexFacts.

Section Grammars.

Lemma run_Seq (a b : regex) (st st' : mstate) :
  In st' (run (Seq a b) st) ->
  exists st1, In st1 (run a st) /\ In st' (run b st1).
Proof. simpl; intros H; apply in_flat_map in H; exact H. Qed.

Lemma run_Is (c : N) (st st' : mstate) :
  In st' (run (Is c) st) -> rest st = c :: rest st'.
Proof.
  unfold Is; simpl; destruct (rest st) as [|d t]; [intros []|].
  destruct (N.eqb_spec c d) as [->|]; [|intros []].
  intros [<-|[]]; reflexivity.
Qed.

Lemma run_funcNamesAlt (st st' : mstate) :
  In st' (run funcNamesAlt st) -> In (consumed st st') funcNames.
Proof.
  unfold funcNamesAlt, funcNames; intros H.
  repeat (apply in_app_or in H; destruct H as [H|H];
          [apply run_Lit in H; rewrite (consumed_app _ _ _ H); simpl; tauto|]).
  apply run_Lit in H; rewrite (consumed_app _ _ _ H); simpl; tauto.
Qed.

(** The first group of the fallback grammar is one of its six names, and
    the match begins with it. *)
Lemma funcPattern_name (st st' : mstate) :
  In st' (run funcPattern st) ->
  exists name, In name funcNames /\ cap 1 (caps st') = Some name
               /\ exists w, rest st = name ++ w ++ rest st'.
Proof.
  unfold funcPattern; intros H.
  apply run_Seq in H; destruct H as (st0 & H0 & H).
  apply run_Seq in H; destruct H as (st1 & H1 & H2).
  assert (E0 : st0 = st).
  { simpl in H0; destruct (xorb _ _); [|destruct H0].
    destruct H0 as [<-|[]]; reflexivity. }
  subst st0.
  apply run_Group in H1; destruct H1 as (st2 & Ha & Hr & Hc).
  exists (consumed st st2); split; [apply run_funcNamesAlt; exact Ha|].
  split.
  - rewrite <- Hc; apply (run_keeps_group 1) with (2 := H2); reflexivity.
  - destruct (run_consumes _ _ _ Ha) as [w Hw].
    destruct (run_consumes _ _ _ H2) as [b Hb].
    rewrite (consumed_app _ _ _ Hw); exists b.
    rewrite Hw, <- Hr, Hb; reflexivity.
Qed.

Lemma funcNames_nonempty (name : text) : In name funcNames -> name <> [].
Proof.
  unfold funcNames; simpl; intros H.
  repeat (destruct H as [<-|H]; [discriminate|]); destruct H.
Qed.

Lemma funcNames_registered (name : text) :
  In name funcNames -> exists tl, getToolByName name = Some tl.
Proof.
  unfold funcNames; simpl; intros H.
  repeat (destruct H as [<-|H]; [eexists; reflexivity|]); destruct H.
Qed.

(** Each match of the primary grammar consumes at least its opening
    brace. *)
Lemma jsonPattern_progress (p : option N) (s : text) (pos : nat)
  (m : rmatch) :
  match_here jsonPattern p s pos = Some m -> matched m <> [].
Proof.
  intros H.
  apply match_here_run in H; destruct H as (st' & H & _ & -> & _).
  unfold jsonPattern in H.
  apply run_Seq in H; destruct H as (st1 & H1 & H2).
  apply run_Is in H1; apply run_consumes in H2; destruct H2 as [w E].
  rewrite (consumed_app _ _ (ch "{" :: w)); [discriminate|].
  rewrite H1, E; reflexivity.
Qed.

(** Each match of the fallback grammar consumes at least a tool name. *)
Lemma funcPattern_progress (p : option N) (s : text) (pos : nat)
  (m : rmatch) :
  match_here funcPattern p s pos = Some m -> matched m <> [].
Proof.
  intros H.
  apply match_here_run in H; destruct H as (st' & H & _ & -> & _).
  destruct (funcPattern_name _ _ H) as (name & Hn & _ & w & Hw).
  rewrite (consumed_app _ _ (name ++ w)) by (rewrite Hw, app_assoc; reflexivity).
  apply funcNames_nonempty in Hn.
  destruct name; [congruence | discriminate].
Qed.

(** The two [exec] loops of [parseToolCalls] end, and they visit the
    occurrences of their grammars from left to right. *)
Lemma execAll_jsonPattern (t : text) :
  execAll jsonPattern t = match_all jsonPattern t.
Proof. apply execAll_match_all, jsonPattern_progress. Qed.

Lemma execAll_funcPattern (t : text) :
  execAll funcPattern t = match_all funcPattern t.
Proof. apply execAll_match_all, funcPattern_progress. Qed.

End Grammars.

(* ================================================================== *)
(** * Properties of the tool-call extractor *)

Section Extractor.

Lemma In_collect {A B : Type} (f : A -> option B) (l : list A) (y : B) :
  In y (collect f l) <-> exists x, In x l /\ f x = Some y.
Proof.
  induction l as [|a l IH]; simpl.
  - split; [intros [] | intros (x & [] & _)].
  - destruct (f a) as [b|] eqn:E; simpl; rewrite IH; split.
    + intros [<-|(x & Hx & Hf)]; eauto.
    + intros (x & [<-|Hx] & Hf); [left; congruence | eauto].
    + intros (x & Hx & Hf); eauto.
    + intros (x & [<-|Hx] & Hf); [congruence | eauto].
Qed.


(** The extractor in terms of the occurrences of its two grammars. *)
Lemma parseToolCallsAt_eq (t : text) :
  parseToolCallsAt t =
    if length (collect (located jsonCall) (match_all jsonPattern t)) =? 0
    then collect (located funcCall) (match_all funcPattern t)
    else collect (located jsonCall) (match_all jsonPattern t).
Proof.
  unfold parseToolCallsAt; rewrite execAll_jsonPattern, execAll_funcPattern.
  reflexivity.
Qed.


(** Each call comes from an occurrence of one of the two grammars, at the
    offset recorded with it, and bears the name the occurrence gives. *)
Lemma parseToolCallsAt_occurrence (t : text) (i : nat)
  (c : ParsedToolCall.t) :
  In (i, c) (parseToolCallsAt t) ->
  exists P m, (P = jsonPattern \/ P = funcPattern) /\
              In m (match_all P t) /\ index m = i /\
              group 1 m = Some (ParsedToolCall.name c).
Proof.
  rewrite parseToolCallsAt_eq.
  destruct (length (collect (located jsonCall) (match_all jsonPattern t)) =? 0);
    intros H; apply In_collect in H; destruct H as (m & Hm & E);
    unfold located in E.
  - exists funcPattern, m; unfold funcCall in E.
    destruct (group 1 m) as [n|]; [|discriminate].
    destruct (group 2 m) as [p|]; [|discriminate].
    destruct (JSON.parse p); [|discriminate].
    injection E as <- <-; auto.
  - exists jsonPattern, m; unfold jsonCall in E.
    destruct (group 1 m) as [n|]; [|discriminate].
    destruct (group 2 m) as [p|]; [|discriminate].
    destruct (JSON.parse p); [|discriminate].
    destruct (getToolByName n); [|discriminate].
    injection E as <- <-; auto.
Qed.

Lemma parseToolCallsAt_registered (t : text) (i : nat)
  (c : ParsedToolCall.t) :
  In (i, c) (parseToolCallsAt t) ->
  exists tl, getToolByName (ParsedToolCall.name c) = Some tl.
Proof.
  rewrite parseToolCallsAt_eq.
  destruct (length (collect (located jsonCall) (match_all jsonPattern t)) =? 0);
    intros H; apply In_collect in H; destruct H as (m & Hm & E);
    unfold located in E.
  - unfold funcCall in E.
    destruct (group 1 m) as [n|] eqn:G1; [|discriminate].
    destruct (group 2 m) as [p|]; [|discriminate].
    destruct (JSON.parse p); [|discriminate].
    injection E as <- <-; simpl.
    apply scan_matches in Hm; destruct Hm as (q & s & pos & Hm).
    apply match_here_run in Hm; destruct Hm as (st' & Hr & _ & _ & Hg).
    destruct (funcPattern_name _ _ Hr) as (name & Hin & Hc & _).
    unfold group in G1; rewrite Hg, Hc in G1; injection G1 as <-.
    apply funcNames_registered; exact Hin.
  - unfold jsonCall in E.
    destruct (group 1 m) as [n|]; [|discriminate].
    destruct (group 2 m) as [p|]; [|discriminate].
    destruct (JSON.parse p); [|discriminate].
    destruct (getToolByName n) as [tl|] eqn:G; [|discriminate].
    injection E as <- <-; simpl; eauto.
Qed.

End Extractor.

(** C10.  Every call the extractor returns, through the primary grammar or
    through the fallback grammar, names a tool of the registry; so in the
    chat loop the look-up of an extracted call finds the tool, the tool is
    executed, and the branch that answers [Unknown tool] is not taken. *)
Theorem extracted_calls_are_registered (t : text) :
  Forall
    (fun tc =>
       exists tl,
         getToolByName (ParsedToolCall.name tc) = Some tl /\
         forall (World : Type)
                (execute : Tool -> JSON.value -> World -> Outcome * World)
                (w : World),
           runToolCall execute tc w =
             (resultText (ParsedToolCall.name tc)
                (fst (execute tl (ParsedToolCall.arguments tc) w)),
              snd (execute tl (ParsedToolCall.arguments tc) w),
              [ToolStarted tl (ParsedToolCall.arguments tc);
               ToolFinished tl
                 (fst (execute tl (ParsedToolCall.arguments tc) w))]))
    (parseToolCalls t).
Proof.
  apply Forall_forall; intros tc H.
  unfold parseToolCalls in H; apply in_map_iff in H.
  destruct H as ((i & c) & <- & H); simpl.
  destruct (parseToolCallsAt_registered _ _ _ H) as [tl E].
  exists tl; split; [exact E|].
  intros World execute w; unfold runToolCall; rewrite E.
  destruct (execute tl (ParsedToolCall.arguments c) w); reflexivity.
Qed.

(** C2 (as amended).  In a text where the grammar in use delimits two
    occurrences, the first with a payload that does not parse, the second
    with a payload that parses, the extractor returns exactly the second:
    the failure to parse a payload skips its occurrence and does not end
    the extraction.  The grammar in use is the primary one, where the
    second occurrence must name a registered tool, or, when no occurrence
    of the primary grammar gives a call, the fallback one, whose names are
    all registered. *)
Theorem malformed_occurrence_is_skipped (t : text) (m1 m2 : rmatch)
  (name payload : text) (args : JSON.value) :
  (forall p, group 2 m1 = Some p -> JSON.parse p = None) ->
  group 1 m2 = Some name ->
  group 2 m2 = Some payload ->
  JSON.parse payload = Some args ->
  (match_all jsonPattern t = [m1; m2] /\
   (exists tl, getToolByName name = Some tl))
  \/
  ((forall m n p, In m (match_all jsonPattern t) ->
                  group 1 m = Some n -> group 2 m = Some p ->
                  JSON.parse p = None \/ getToolByName n = None) /\
   match_all funcPattern t = [m1; m2]) ->
  parseToolCalls t = [ParsedToolCall.mk name args] /\ index m1 < index m2.
Proof.
  intros Hbad Hn Hp Hparse [[Hm [tl Hreg]]|[Hnone Hm]]; split.
  - unfold parseToolCalls; rewrite parseToolCallsAt_eq, Hm; simpl.
    assert (E1 : located jsonCall m1 = None).
    { unfold located, jsonCall.
      destruct (group 1 m1); [|reflexivity].
      destruct (group 2 m1) as [p|]; [|reflexivity].
      rewrite (Hbad p eq_refl); reflexivity. }
    assert (E2 : located jsonCall m2
                 = Some (index m2, ParsedToolCall.mk name args)).
    { unfold located, jsonCall; rewrite Hn, Hp, Hparse, Hreg; reflexivity. }
    rewrite E1, E2; reflexivity.
  - pose proof (proj1 (scan_increasing jsonPattern t None 0 0)) as S.
    fold (match_all jsonPattern t) in S; rewrite Hm in S; simpl in S.
    inversion S as [|? ? _ F]; subst; inversion F; subst; assumption.
  - unfold parseToolCalls; rewrite parseToolCallsAt_eq.
    assert (E0 : collect (located jsonCall) (match_all jsonPattern t) = []).
    { destruct (collect _ _) as [|[i c] l] eqn:E; [reflexivity|].
      assert (Hin : In (i, c)
                      (collect (located jsonCall) (match_all jsonPattern t)))
        by (rewrite E; left; reflexivity).
      apply In_collect in Hin; destruct Hin as (m & Hin & Ec).
      exfalso; unfold located, jsonCall in Ec.
      destruct (group 1 m) as [n|] eqn:G1; [|discriminate].
      destruct (group 2 m) as [q|] eqn:G2; [|discriminate].
      destruct (Hnone m n q Hin G1 G2) as [H|H]; rewrite H in Ec;
        [|destruct (JSON.parse q)]; discriminate. }
    rewrite E0, Hm; simpl.
    assert (E1 : located funcCall m1 = None).
    { unfold located, funcCall.
      destruct (group 1 m1); [|reflexivity].
      destruct (group 2 m1) as [p|]; [|reflexivity].
      rewrite (Hbad p eq_refl); reflexivity. }
    assert (E2 : located funcCall m2
                 = Some (index m2, ParsedToolCall.mk name args)).
    { unfold located, funcCall; rewrite Hn, Hp, Hparse; reflexivity. }
    rewrite E1, E2; reflexivity.
  - pose proof (proj1 (scan_increasing funcPattern t None 0 0)) as S.
    fold (match_all funcPattern t) in S; rewrite Hm in S; simpl in S.
    inversion S as [|? ? _ F]; subst; inversion F; subst; assumption.
Qed.

(** A call with a payload that is not JSON, then a well-formed call, in
    the primary grammar and in the fallback grammar. *)
Definition malformedThenWellFormed : text :=
  js "{'name': 'bash', 'arguments': {command: ls}} then {'name': 'todo', 'arguments': {'action': 'list'}}".

Definition firstOccurrence : rmatch :=
  Eval vm_compute in
    nth 0 (match_all jsonPattern malformedThenWellFormed) (RMatch 0 [] []).

Definition secondOccurrence : rmatch :=
  Eval vm_compute in
    nth 1 (match_all jsonPattern malformedThenWellFormed) (RMatch 0 [] []).

Definition malformedThenWellFormedCall : text :=
  js "bash({command: ls}) then todo({'action': 'list'})".

Definition firstCall : rmatch :=
  Eval vm_compute in
    nth 0 (match_all funcPattern malformedThenWellFormedCall)
      (RMatch 0 [] []).

Definition secondCall : rmatch :=
  Eval vm_compute in
    nth 1 (match_all funcPattern malformedThenWellFormedCall)
      (RMatch 0 [] []).

Lemma malformed_occurrence_is_skipped_witness :
  (parseToolCalls malformedThenWellFormed
     = [ParsedToolCall.mk (lit "todo")
          (JSON.Obj [(lit "action", JSON.Str (lit "list"))])]
   /\ index firstOccurrence < index secondOccurrence)
  /\
  (parseToolCalls malformedThenWellFormedCall
     = [ParsedToolCall.mk (lit "todo")
          (JSON.Obj [(lit "action", JSON.Str (lit "list"))])]
   /\ index firstCall < index secondCall).
Proof.
  split.
  - apply (malformed_occurrence_is_skipped malformedThenWellFormed
             firstOccurrence secondOccurrence (lit "todo")
             (js "{'action': 'list'}")
             (JSON.Obj [(lit "action", JSON.Str (lit "list"))])).
    + intros p E; vm_compute in E; injection E as <-; vm_compute; reflexivity.
    + vm_compute; reflexivity.
    + vm_compute; reflexivity.
    + vm_compute; reflexivity.
    + left; split; [vm_compute; reflexivity|].
      exists todoTool; vm_compute; reflexivity.
  - apply (malformed_occurrence_is_skipped malformedThenWellFormedCall
             firstCall secondCall (lit "todo")
             (js "{'action': 'list'}")
             (JSON.Obj [(lit "action", JSON.Str (lit "list"))])).
    + intros p E; vm_compute in E; injection E as <-; vm_compute; reflexivity.
    + vm_compute; reflexivity.
    + vm_compute; reflexivity.
    + vm_compute; reflexivity.
    + right; split; [|vm_compute; reflexivity].
      intros m n p Hin.
      replace (match_all jsonPattern malformedThenWellFormedCall)
        with (@nil rmatch) in Hin by (vm_compute; reflexivity).
      destruct Hin.
Defined.

(** A fallback call whose closing parenthesis is missing, then a
    well-formed call of a registered tool. *)
Definition unclosedCall : text := js "bash({'command': 'echo hi'}".

Definition wellFormedCall : text := js "todo({'action': 'list'})".

Definition unclosedThenWellFormed : text :=
  unclosedCall ++ lit " " ++ wellFormedCall.

(** C2, as stated, fails.  In the fallback grammar the payload runs to the
    last closing brace before the next closing parenthesis: a call whose
    own closing parenthesis is missing is delimited together with the call
    that follows it, the occurrence so delimited does not parse, and the
    well-formed call, which the extractor returns when it stands alone, is
    lost with it. *)
Lemma unclosed_call_swallows_next :
  unclosedThenWellFormed
    = js "bash({'command': 'echo hi'} todo({'action': 'list'})"
  /\ parseToolCalls unclosedCall = []
  /\ parseToolCalls wellFormedCall
     = [ParsedToolCall.mk (lit "todo")
          (JSON.Obj [(lit "action", JSON.Str (lit "list"))])]
  /\ getToolByName (lit "todo") = Some todoTool
  /\ match_all jsonPattern unclosedThenWellFormed = []
  /\ map (fun m => (index m, group 1 m, group 2 m))
       (match_all funcPattern unclosedThenWellFormed)
     = [(0, Some (lit "bash"),
         Some (js "{'command': 'echo hi'} todo({'action': 'list'}"))]
  /\ JSON.parse (js "{'command': 'echo hi'} todo({'action': 'list'}") = None
  /\ parseToolCalls unclosedThenWellFormed = [].
Proof.
  repeat split; vm_compute; reflexivity.
Qed.

(* ================================================================== *)
(** * Properties of the conversation orchestrator *)

Section Orchestrator.

Variable World : Type.
Variable execute : Tool -> JSON.value -> World -> Outcome * World.
Variable backend : list ChatMessage.t -> list text * option text.
Variable toolDesc : text.

Lemma runToolCalls_app (a b : list ParsedToolCall.t) (w : World) :
  runToolCalls execute (a ++ b) w =
    let '(m1, w1, e1) := runToolCalls execute a w in
    let '(m2, w2, e2) := runToolCalls execute b w1 in
    (m1 ++ m2, w2, e1 ++ e2).
Proof.
  revert w; induction a as [|tc a IH]; intros w; simpl.
  - destruct (runToolCalls execute b w) as [[m2 w2] e2]; reflexivity.
  - destruct (runToolCall execute tc w) as [[r w1] ev].
    rewrite IH.
    destruct (runToolCalls execute a w1) as [[m1 w1'] e1].
    destruct (runToolCalls execute b w1') as [[m2 w2] e2].
    simpl; rewrite <- !app_assoc; reflexivity.
Qed.

Lemma runToolCalls_length (tcs : list ParsedToolCall.t) (w : World) :
  length (fst (fst (runToolCalls execute tcs w))) = length tcs.
Proof.
  revert w; induction tcs as [|tc tcs IH]; intros w; simpl; [reflexivity|].
  destruct (runToolCall execute tc w) as [[r w1] ev].
  specialize (IH w1).
  destruct (runToolCalls execute tcs w1) as [[m w2] e]; simpl in *; lia.
Qed.

(** One round of [chat] whose response holds tool calls: the calls are run
    and the next round is asked for with the longer message list. *)
Lemma chat_continues (rounds : nat) (messages : list ChatMessage.t)
  (w : World) (chunks : list text) :
  backend (messagesWithTools toolDesc messages) = (chunks, None) ->
  parseToolCalls (concat (filter nonempty chunks)) <> [] ->
  chat execute backend toolDesc (S rounds) messages w =
    let fullResponse := concat (filter nonempty chunks) in
    let '(results, w', evs) :=
      runToolCalls execute (parseToolCalls fullResponse) w in
    let '(r, final, w'', evs') :=
      chat execute backend toolDesc rounds
        (messages ++ ChatMessage.mk assistant fullResponse :: results) w' in
    (r, final, w'',
     (Requested (messagesWithTools toolDesc messages)
        :: map OnToken (filter nonempty chunks)) ++ evs ++ evs').
Proof.
  intros Hb Hcalls; simpl; rewrite Hb.
  destruct (parseToolCalls (concat (filter nonempty chunks))) as [|tc tcs];
    [congruence|].
  reflexivity.
Qed.

Lemma chat_requests_first (rounds : nat) (messages : list ChatMessage.t)
  (w : World) :
  In (Requested (messagesWithTools toolDesc messages))
     (snd (chat execute backend toolDesc (S rounds) messages w)).
Proof.
  simpl.
  destruct (backend (messagesWithTools toolDesc messages)) as [chunks [e|]].
  - left; reflexivity.
  - destruct (0 <? length (parseToolCalls (concat (filter nonempty chunks)))).
    + destruct (runToolCalls execute _ w) as [[results w'] evs].
      destruct (chat execute backend toolDesc rounds _ w')
        as [[[r final] w''] evs'].
      left; reflexivity.
    + left; reflexivity.
Qed.

(** C3.  When the [execute] of an extracted tool call throws, the error is
    caught: the call yields the message
    [Tool result for <name>: Error executing <name>: <error>] (with the
    role of a user message) at its place among the results, the message is
    appended after the assistant message, and [chat] goes on with the next
    round: it asks the backend again, with the longer message list, and
    answers what that round answers. *)
Theorem failing_tool_is_reported (rounds : nat)
  (messages : list ChatMessage.t) (w : World) (chunks : list text)
  (earlier later : list ParsedToolCall.t) (tc : ParsedToolCall.t)
  (tl : Tool) (error : text) :
  backend (messagesWithTools toolDesc messages) = (chunks, None) ->
  parseToolCalls (concat (filter nonempty chunks)) = earlier ++ tc :: later ->
  getToolByName (ParsedToolCall.name tc) = Some tl ->
  fst (execute tl (ParsedToolCall.arguments tc)
         (snd (fst (runToolCalls execute earlier w)))) = Threw error ->
  let fullResponse := concat (filter nonempty chunks) in
  let name := ParsedToolCall.name tc in
  let report :=
    ChatMessage.mk user
      (lit "Tool result for " ++ name ++ [58%N; nl]
       ++ lit "Error executing " ++ name ++ lit ": " ++ error) in
  let results :=
    fst (fst (runToolCalls execute (earlier ++ tc :: later) w)) in
  let w' := snd (fst (runToolCalls execute (earlier ++ tc :: later) w)) in
  let messages' :=
    messages ++ ChatMessage.mk assistant fullResponse :: results in
  nth_error results (length earlier) = Some report /\
  In report messages' /\
  fst (chat execute backend toolDesc (S (S rounds)) messages w)
    = fst (chat execute backend toolDesc (S rounds) messages' w') /\
  In (Requested (messagesWithTools toolDesc messages'))
     (snd (chat execute backend toolDesc (S (S rounds)) messages w)).
Proof.
  intros Hb Hcalls Htool Hthrow fullResponse name report results w' messages'.
  assert (Hres : nth_error results (length earlier) = Some report).
  { subst results; rewrite runToolCalls_app.
    pose proof (runToolCalls_length earlier w) as Hlen.
    destruct (runToolCalls execute earlier w) as [[m1 w1] e1]; simpl in *.
    unfold runToolCall; rewrite Htool.
    destruct (execute tl (ParsedToolCall.arguments tc) w1) as [o w2];
      simpl in Hthrow; subst o.
    destruct (runToolCalls execute later w2) as [[m2 w3] e2]; simpl.
    rewrite nth_error_app2, Hlen, Nat.sub_diag by lia; reflexivity. }
  assert (Hnext :
    chat execute backend toolDesc (S (S rounds)) messages w =
    let '(r, final, w'', evs') :=
      chat execute backend toolDesc (S rounds) messages' w' in
    (r, final, w'',
     (Requested (messagesWithTools toolDesc messages)
        :: map OnToken (filter nonempty chunks))
     ++ snd (runToolCalls execute (earlier ++ tc :: later) w) ++ evs')).
  { rewrite (chat_continues (S rounds) messages w chunks Hb)
      by (rewrite Hcalls; destruct earlier; discriminate).
    cbv zeta; rewrite Hcalls; subst messages' results w' fullResponse.
    destruct (runToolCalls execute (earlier ++ tc :: later) w)
      as [[res w1] evs]; reflexivity. }
  repeat split.
  - exact Hres.
  - subst messages'; apply in_or_app; right; right.
    eapply nth_error_In; exact Hres.
  - rewrite Hnext.
    destruct (chat execute backend toolDesc (S rounds) messages' w')
      as [[[r final] w''] evs']; reflexivity.
  - rewrite Hnext.
    pose proof (chat_requests_first rounds messages' w') as Hreq.
    destruct (chat execute backend toolDesc (S rounds) messages' w')
      as [[[r final] w''] evs']; simpl in Hreq |- *.
    right; apply in_or_app; right; apply in_or_app; right; exact Hreq.
Qed.


End Orchestrator.

(* ------------------------------------------------------------------ *)
(** ** A sample world: files by path, written and read by two tools *)

Definition SampleWorld : Type := list (text * text).

Definition sampleExecute (tl : Tool) (args : JSON.value) (w : SampleWorld)
  : Outcome * SampleWorld :=
  match tl with
  | writeTool =>
      match asText (field (lit "path") args),
            asText (field (lit "content") args) with
      | Some p, Some c => (Returned (lit "written"), (p, c) :: w)
      | _, _ => (Threw (lit "TypeError: path is not a string"), w)
      end
  | readTool =>
      match asText (field (lit "path") args) with
      | Some p =>
          match find (fun f => text_eqb (fst f) p) w with
          | Some f => (Returned (snd f), w)
          | None => (Threw (lit "Error: ENOENT: no such file"), w)
          end
      | None => (Threw (lit "TypeError: path is not a string"), w)
      end
  | _ => (Returned (lit "done"), w)
  end.

Definition sampleMessagesIn : list ChatMessage.t :=
  [ChatMessage.mk system (lit "You are Spot.");
   ChatMessage.mk user (lit "show me missing.txt")].

Definition readMissing : text :=
  js "{'name': 'read_file', 'arguments': {'path': 'missing.txt'}}".

Definition readMissingCall : ParsedToolCall.t :=
  ParsedToolCall.mk (lit "read_file")
    (JSON.Obj [(lit "path", JSON.Str (lit "missing.txt"))]).

(** A backend that asks for a file in its first answer and concludes in
    its second. *)
Definition sampleBackend (messages : list ChatMessage.t)
  : list text * option text :=
  if length messages <=? 2
  then ([firstn 20 readMissing; []; skipn 20 readMissing], None)
  else ([lit "The file does not exist."], None).

Lemma failing_tool_is_reported_witness :
  let fullResponse :=
    concat (filter nonempty
              [firstn 20 readMissing; []; skipn 20 readMissing]) in
  let name := ParsedToolCall.name readMissingCall in
  let report :=
    ChatMessage.mk user
      (lit "Tool result for " ++ name ++ [58%N; nl]
       ++ lit "Error executing " ++ name ++ lit ": "
       ++ lit "Error: ENOENT: no such file") in
  let results :=
    fst (fst (runToolCalls sampleExecute ([] ++ readMissingCall :: []) [])) in
  let w' :=
    snd (fst (runToolCalls sampleExecute ([] ++ readMissingCall :: []) [])) in
  let messages' :=
    sampleMessagesIn ++ ChatMessage.mk assistant fullResponse :: results in
  nth_error results (length (@nil ParsedToolCall.t)) = Some report /\
  In report messages' /\
  fst (chat sampleExecute sampleBackend (lit "tools") 2 sampleMessagesIn [])
    = fst (chat sampleExecute sampleBackend (lit "tools") 1 messages' w') /\
  In (Requested (messagesWithTools (lit "tools") messages'))
     (snd (chat sampleExecute sampleBackend (lit "tools") 2
             sampleMessagesIn [])).
Proof.
  apply (failing_tool_is_reported SampleWorld sampleExecute sampleBackend
           (lit "tools") 0 sampleMessagesIn []
           [firstn 20 readMissing; []; skipn 20 readMissing]
           [] [] readMissingCall readTool
           (lit "Error: ENOENT: no such file")).
  - vm_compute; reflexivity.
  - vm_compute; reflexivity.
  - vm_compute; reflexivity.
  - vm_compute; reflexivity.
Defined.

(** The sample run ends with the answer of the second round. *)
Example sample_chat_answer :
  fst (fst (fst (chat sampleExecute sampleBackend (lit "tools") 2
                   sampleMessagesIn [])))
  = Answer (lit "The file does not exist.").
Proof. vm_compute; reflexivity. Qed.





(* ================================================================== *)
(** * [JSON.parse] after [JSON.stringify] *)

Module JSONFacts.
Import JSON.

Local Open Scope N_scope.

(** *** Strings *)

Lemma unhex_hexdigit d : d < 16 -> unhex (hexdigit d) = Some d.
Proof.
  intros H.
  assert (E : d = 0 \/ d = 1 \/ d = 2 \/ d = 3 \/ d = 4 \/ d = 5 \/ d = 6 \/ d = 7 \/ d = 8 \/ d = 9 \/ d = 10 \/ d = 11 \/ d = 12 \/ d = 13 \/ d = 14 \/ d = 15) by lia.
  repeat (destruct E as [->|E]; [reflexivity|]); subst; reflexivity.
Qed.

Lemma hex4 c : c < 65536 ->
  unhex4 (hexdigit (c / 4096)) (hexdigit ((c / 256) mod 16)) (hexdigit ((c / 16) mod 16)) (hexdigit (c mod 16)) = Some c.
Proof.
  intros H; unfold unhex4.
  rewrite !unhex_hexdigit.
  - f_equal.
    pose proof (N.div_mod c 16).
    pose proof (N.div_mod (c / 16) 16).
    pose proof (N.div_mod (c / 256) 16).
    replace (c / 16 / 16) with (c / 256) in * by (rewrite N.Div0.div_div; reflexivity).
    replace (c / 256 / 16) with (c / 4096) in * by (rewrite N.Div0.div_div; reflexivity).
    assert (c / 4096 < 16) by (apply N.Div0.div_lt_upper_bound; lia).
    pose proof (N.mod_small (c / 4096) 16). lia.
  - apply N.mod_lt; lia.
  - apply N.mod_lt; lia.
  - apply N.mod_lt; lia.
  - apply N.Div0.div_lt_upper_bound; lia.
Qed.

Lemma parse_chars_raw c r s k :
  c <> 34 -> c <> 92 -> 32 <= c ->
  parse_chars r = Some (s, k) -> parse_chars (c :: r) = Some (c :: s, k).
Proof.
  intros H1 H2 H3 E; simpl.
  destruct (N.eqb_spec c 34); [contradiction|].
  destruct (N.eqb_spec c 92); [contradiction|].
  destruct (N.ltb_spec c 32); [lia|].
  rewrite E; reflexivity.
Qed.

Lemma parse_chars_uescape c r s k :
  c < 65536 ->
  parse_chars r = Some (s, k) -> parse_chars (uescape c ++ r) = Some (c :: s, k).
Proof.
  intros H E; unfold uescape.
  cbn [app parse_chars].
  change (92 =? 34) with false; change (92 =? 92) with true.
  change (117 =? 117) with true; cbv iota.
  rewrite hex4 by exact H. rewrite E; reflexivity.
Qed.

Lemma parse_chars_escape1 c r s k :
  parse_chars r = Some (s, k) -> parse_chars (escape1 c ++ r) = Some (c :: s, k).
Proof.
  intros E; unfold escape1.
  destruct (N.eqb_spec c 8) as [->|]; [simpl; rewrite E; reflexivity|].
  destruct (N.eqb_spec c 9) as [->|]; [simpl; rewrite E; reflexivity|].
  destruct (N.eqb_spec c 10) as [->|]; [simpl; rewrite E; reflexivity|].
  destruct (N.eqb_spec c 12) as [->|]; [simpl; rewrite E; reflexivity|].
  destruct (N.eqb_spec c 13) as [->|]; [simpl; rewrite E; reflexivity|].
  destruct (N.eqb_spec c 34) as [->|]; [simpl; rewrite E; reflexivity|].
  destruct (N.eqb_spec c 92) as [->|]; [simpl; rewrite E; reflexivity|].
  destruct (N.ltb_spec c 32).
  - apply parse_chars_uescape; [lia | exact E].
  - apply parse_chars_raw; assumption.
Qed.

Lemma quote_chars_roundtrip n : forall s, (length s <= n)%nat ->
  forall r, parse_chars (quote_chars s ++ 34 :: r) = Some (s, r).
Proof.
  induction n as [|n IH]; intros s Hlen r.
  - destruct s; [reflexivity | simpl in Hlen; lia].
  - destruct s as [|c t]; [reflexivity|].
    simpl in Hlen. cbn [quote_chars].
    destruct (is_high c) eqn:Hh.
    + unfold is_high, in_range in Hh. apply andb_true_iff in Hh. destruct Hh as [Hh1 Hh2].
      apply N.leb_le in Hh1, Hh2.
      destruct t as [|d t'].
      * apply parse_chars_uescape; [lia | reflexivity].
      * destruct (is_low d) eqn:Hl.
        -- unfold is_low, in_range in Hl. apply andb_true_iff in Hl. destruct Hl as [Hl1 Hl2].
           apply N.leb_le in Hl1, Hl2.
           rewrite <- !app_comm_cons.
           apply parse_chars_raw; try lia.
           apply parse_chars_raw; try lia.
           apply IH. simpl in Hlen. lia.
        -- rewrite <- app_assoc. apply parse_chars_uescape; [lia|].
           apply IH. lia.
    + destruct (is_low c) eqn:Hl.
      * unfold is_low, in_range in Hl. apply andb_true_iff in Hl. destruct Hl as [Hl1 Hl2].
        apply N.leb_le in Hl1, Hl2.
        rewrite <- app_assoc. apply parse_chars_uescape; [lia|].
        apply IH. lia.
      * rewrite <- app_assoc. apply parse_chars_escape1. apply IH. lia.
Qed.

(** *** Numbers *)

(** What may follow an integer: not a digit, a point or an exponent. *)
Definition number_end (r : text) : bool :=
  match r with
  | [] => true
  | c :: _ => negb (is_digit c || (c =? 46) || (c =? 101) || (c =? 69))
  end.

Lemma span_digits_of_uint d r :
  number_end r = true ->
  span_digits (digits_of_uint d ++ r) = (digits_of_uint d, r).
Proof.
  intros Hr; induction d; simpl; try (rewrite IHd; reflexivity).
  destruct r as [|c r]; [reflexivity|].
  simpl in Hr. simpl.
  destruct (is_digit c); [discriminate | reflexivity].
Qed.

Lemma uint_of_digits_of_uint d : uint_of_digits (digits_of_uint d) = d.
Proof. induction d; simpl; try rewrite IHd; reflexivity. Qed.

Lemma to_uint_shape n :
  exists d ds, show_N n = d :: ds /\
               (d =? 48) && negb (is_nil ds) = false /\ is_digit d = true.
Proof.
  unfold show_N.
  assert (E : N.to_uint n = Decimal.unorm (N.to_uint n))
    by (rewrite <- (DecimalN.Unsigned.to_of (N.to_uint n)), DecimalN.Unsigned.of_to; reflexivity).
  revert E; generalize (N.to_uint n) as u; intros u E.
  unfold Decimal.unorm in E.
  destruct (Decimal.nzhead u) eqn:Hz; rewrite E;
    try (eexists _, _; split; [reflexivity | split; reflexivity]).
  exfalso; eapply DecimalFacts.nzhead_nonzero; exact Hz.
Qed.

Lemma digits_after_none opens signed r :
  match r with [] => true | c :: _ => negb (opens c) end = true ->
  digits_after opens signed r = Some (false, r).
Proof.
  destruct r as [|c r]; simpl; [reflexivity|].
  destruct (opens c); [discriminate | reflexivity].
Qed.

Lemma parse_show_N n r :
  number_end r = true ->
  parse_unsigned (show_N n ++ r) = Some (Some n, r).
Proof.
  intros Hr.
  destruct (to_uint_shape n) as (d & ds & E & Hz & Hd).
  unfold parse_unsigned.
  unfold show_N at 1. rewrite span_digits_of_uint by exact Hr.
  fold (show_N n). rewrite E, Hz.
  rewrite !digits_after_none.
  - simpl orb. cbv iota. rewrite <- E. unfold show_N.
    rewrite uint_of_digits_of_uint, DecimalN.Unsigned.of_to. reflexivity.
  - destruct r as [|c r]; [reflexivity|]. simpl in Hr; cbv beta iota.
    try rewrite (N.eqb_sym 46 c).
    destruct (is_digit c), (c =? 46), (c =? 101), (c =? 69); simpl in *; congruence.
  - destruct r as [|c r]; [reflexivity|]. simpl in Hr; cbv beta iota.
    try rewrite (N.eqb_sym 46 c).
    destruct (is_digit c), (c =? 46), (c =? 101), (c =? 69); simpl in *; congruence.
Qed.

Lemma parse_number_unsigned s :
  match s with d :: _ => (d =? 45) = false | [] => True end ->
  parse_number s =
    match parse_unsigned s with
    | Some (Some n, r) => Some (Int (Z.of_N n), r)
    | Some (None, r) => Some (Real (firstn (length s - length r)%nat s), r)
    | None => None
    end.
Proof.
  unfold parse_number; destruct s as [|d t]; [reflexivity|].
  intros ->; reflexivity.
Qed.

Lemma parse_show_Z z r :
  number_end r = true ->
  parse_number (show_Z z ++ r) = Some (Int z, r).
Proof.
  intros Hr; unfold show_Z.
  destruct (Z.ltb_spec z 0) as [Hneg|Hpos].
  - unfold parse_number; rewrite <- app_comm_cons.
    change (45 =? 45) with true; cbv iota.
    rewrite parse_show_N by exact Hr.
    rewrite N2Z.inj_abs_N. do 3 f_equal. lia.
  - rewrite parse_number_unsigned.
    + rewrite parse_show_N by exact Hr.
      rewrite Z2N.id by lia. reflexivity.
    + destruct (to_uint_shape (Z.to_N z)) as (d & ds & E & Hz & Hd).
      rewrite E; simpl.
      unfold is_digit, in_range in Hd.
      destruct (N.eqb_spec d 45) as [->|]; [discriminate | reflexivity].
Qed.

(** *** Values *)

(** No number of the value has a fraction or an exponent. *)
Fixpoint integral (v : value) : bool :=
  match v with
  | Num (Real _) => false
  | Arr vs => forallb integral vs
  | Obj ms => forallb (fun kv => integral (snd kv)) ms
  | _ => true
  end.

(** The fuel that reading a value back needs. *)
Fixpoint size (v : value) : nat :=
  match v with
  | Arr vs => S (list_sum (map (fun v => S (size v)) vs))
  | Obj ms => S (list_sum (map (fun kv => S (size (snd kv))) ms))
  | _ => 1
  end.

Section ValueInd.
Variable P : value -> Prop.
Hypothesis HNull : P Null.
Hypothesis HBool : forall b, P (Bool b).
Hypothesis HNum : forall n, P (Num n).
Hypothesis HStr : forall s, P (Str s).
Hypothesis HArr : forall vs, Forall P vs -> P (Arr vs).
Hypothesis HObj : forall ms, Forall (fun kv => P (snd kv)) ms -> P (Obj ms).

Fixpoint value_rect' (v : value) : P v :=
  match v with
  | Null => HNull
  | Bool b => HBool b
  | Num n => HNum n
  | Str s => HStr s
  | Arr vs =>
      HArr vs
        ((fix go (l : list value) : Forall P l :=
            match l with
            | [] => Forall_nil P
            | x :: l' => Forall_cons x (value_rect' x) (go l')
            end) vs)
  | Obj ms =>
      HObj ms
        ((fix go (l : list (text * value)) : Forall (fun kv => P (snd kv)) l :=
            match l with
            | [] => Forall_nil _
            | (k, x) :: l' =>
                @Forall_cons _ (fun kv => P (snd kv)) (k, x) l'
                  (value_rect' x) (go l')
            end) ms)
  end.
End ValueInd.

Definition all_ws (pre : text) : Prop := Forall (fun c => is_ws c = true) pre.

Lemma skip_ws_pre pre s : all_ws pre -> skip_ws (pre ++ s) = skip_ws s.
Proof.
  induction 1 as [|c pre Hc _ IH]; simpl; [reflexivity|].
  rewrite Hc; exact IH.
Qed.

Lemma skip_ws_head c s : is_ws c = false -> skip_ws (c :: s) = c :: s.
Proof. intros H; simpl; rewrite H; reflexivity. Qed.

Lemma all_ws_spaces k : all_ws (spaces k).
Proof. induction k; constructor; auto. Qed.

Lemma all_ws_nl_spaces k : all_ws (10 :: spaces k).
Proof. constructor; [reflexivity | apply all_ws_spaces]. Qed.

Lemma token_pre c pre s : all_ws pre -> is_ws c = false ->
  token c (pre ++ c :: s) = Some s.
Proof.
  intros Hp Hc; unfold token.
  rewrite skip_ws_pre by exact Hp.
  rewrite skip_ws_head by exact Hc.
  rewrite N.eqb_refl; reflexivity.
Qed.

Lemma token_other c d pre s : all_ws pre -> is_ws d = false -> d <> c ->
  token c (pre ++ d :: s) = None.
Proof.
  intros Hp Hd Hne; unfold token.
  rewrite skip_ws_pre by exact Hp.
  rewrite skip_ws_head by exact Hd.
  destruct (N.eqb_spec d c); [contradiction | reflexivity].
Qed.

Lemma token_here c s : is_ws c = false -> token c (c :: s) = Some s.
Proof. intros H; apply (token_pre c [] s); [constructor | exact H]. Qed.

(** The first code unit of a printed value. *)
Definition value_start (c : N) : bool :=
  is_digit c || (c =? 45) || (c =? 34) || (c =? 91) || (c =? 123)
  || (c =? 116) || (c =? 102) || (c =? 110).

Lemma show_Z_start z : exists c t, show_Z z = c :: t /\ (is_digit c || (c =? 45)) = true.
Proof.
  unfold show_Z; destruct (z <? 0)%Z.
  - eexists _, _; split; reflexivity.
  - destruct (to_uint_shape (Z.to_N z)) as (d & ds & E & _ & Hd).
    exists d, ds; split; [exact E | rewrite Hd; reflexivity].
Qed.

Lemma stringify_start ind v :
  integral v = true ->
  exists c t, stringify_at ind v = c :: t /\ value_start c = true.
Proof.
  destruct v as [|[]|[z|l]|s|vs|ms]; simpl; intros H; try discriminate;
    try (eexists _, _; split; reflexivity).
  - destruct (show_Z_start z) as (c & t & E & Hc).
    exists c, t; split; [exact E|].
    unfold value_start; apply orb_true_iff in Hc; destruct Hc as [-> | ->];
      rewrite ?orb_true_r; reflexivity.
  - unfold block; destruct (map _ vs); eexists _, _; split; reflexivity.
  - unfold block; destruct (map _ ms); eexists _, _; split; reflexivity.
Qed.

Lemma value_start_facts c : value_start c = true ->
  is_ws c = false /\ c <> 93 /\ c <> 125 /\ c <> 44.
Proof.
  unfold value_start, is_digit, in_range, is_ws; intros H.
  repeat match goal with
  | H : (_ || _) = true |- _ => apply orb_true_iff in H; destruct H as [H|H]
  | H : (_ && _) = true |- _ => apply andb_true_iff in H; destruct H
  | H : (_ =? _) = true |- _ => apply N.eqb_eq in H; subst
  | H : (_ <=? _) = true |- _ => apply N.leb_le in H
  end;
  repeat split; try lia;
  repeat match goal with
  | |- (_ || _) = false => apply orb_false_iff; split
  | |- (_ =? _) = false => apply N.eqb_neq; lia
  end.
Qed.

Lemma parse_value_S f s :
  parse_value (S f) s =
      match skip_ws s with
      | [] => None
      | c :: t =>
          if N.eqb c 123 then
            match token 125 t with
            | Some r => Some (Obj [], r)
            | None =>
                match parse_members f t with
                | Some (ms, r) => Some (Obj ms, r)
                | None => None
                end
            end
          else if N.eqb c 91 then
            match token 93 t with
            | Some r => Some (Arr [], r)
            | None =>
                match parse_elements f t with
                | Some (vs, r) => Some (Arr vs, r)
                | None => None
                end
            end
          else if N.eqb c 34 then
            match parse_chars t with
            | Some (str, r) => Some (Str str, r)
            | None => None
            end
          else if N.eqb c 116 then
            option_map (fun r => (Bool true, r)) (strip_prefix (lit "rue") t)
          else if N.eqb c 102 then
            option_map (fun r => (Bool false, r)) (strip_prefix (lit "alse") t)
          else if N.eqb c 110 then
            option_map (fun r => (Null, r)) (strip_prefix (lit "ull") t)
          else
            match parse_number (c :: t) with
            | Some (n, r) => Some (Num n, r)
            | None => None
            end
      end.
Proof. reflexivity. Qed.

Lemma parse_elements_S f s :
  parse_elements (S f) s =
      match parse_value f s with
      | Some (v, r) =>
          match token 44 r with
          | Some r' =>
              match parse_elements f r' with
              | Some (vs, k) => Some (v :: vs, k)
              | None => None
              end
          | None =>
              match token 93 r with
              | Some r' => Some ([v], r')
              | None => None
              end
          end
      | None => None
      end.
Proof. reflexivity. Qed.

Lemma parse_members_S f s :
  parse_members (S f) s =
      match token 34 s with
      | Some t =>
          match parse_chars t with
          | Some (key, r) =>
              match token 58 r with
              | Some r1 =>
                  match parse_value f r1 with
                  | Some (v, r2) =>
                      match token 44 r2 with
                      | Some r3 =>
                          match parse_members f r3 with
                          | Some (ms, k) => Some ((key, v) :: ms, k)
                          | None => None
                          end
                      | None =>
                          match token 125 r2 with
                          | Some r3 => Some ([(key, v)], r3)
                          | None => None
                          end
                      end
                  | None => None
                  end
              | None => None
              end
          | None => None
          end
      | None => None
      end.
Proof. reflexivity. Qed.

(** [v], printed at any indentation, after white space and before a text
    that does not continue a number, is read back. *)
Definition reads_back (v : value) : Prop :=
  integral v = true ->
  forall ind fuel pre r,
    (size v <= fuel)%nat -> all_ws pre -> number_end r = true ->
    parse_value fuel (pre ++ stringify_at ind v ++ r) = Some (v, r).

Lemma reads_back_number z : reads_back (Num (Int z)).
Proof.
  intros _ ind fuel pre r Hf Hp Hr.
  destruct fuel as [|f]; [simpl in Hf; lia|].
  rewrite parse_value_S, skip_ws_pre by exact Hp.
  cbn [stringify_at show_number].
  destruct (show_Z_start z) as (c & t & E & Hc).
  pose proof (parse_show_Z z r Hr) as P.
  rewrite E in *. rewrite <- app_comm_cons in *.
  assert (Hs : value_start c = true).
  { unfold value_start; apply orb_true_iff in Hc; destruct Hc as [-> | ->];
      rewrite ?orb_true_r; reflexivity. }
  destruct (value_start_facts c Hs) as (Hw & _).
  rewrite skip_ws_head by exact Hw.
  assert (D : (c =? 123) = false /\ (c =? 91) = false /\ (c =? 34) = false /\
              (c =? 116) = false /\ (c =? 102) = false /\ (c =? 110) = false).
  { unfold is_digit, in_range in Hc.
    apply orb_true_iff in Hc; destruct Hc as [Hc|Hc].
    - apply andb_true_iff in Hc; destruct Hc as [H1 H2].
      apply N.leb_le in H1, H2.
      repeat split; apply N.eqb_neq; lia.
    - apply N.eqb_eq in Hc; subst; repeat split; reflexivity. }
  destruct D as (D1 & D2 & D3 & D4 & D5 & D6).
  rewrite D1, D2, D3, D4, D5, D6, P; reflexivity.
Qed.

Lemma reads_back_string s : reads_back (Str s).
Proof.
  intros _ ind fuel pre r Hf Hp Hr.
  destruct fuel as [|f]; [simpl in Hf; lia|].
  rewrite parse_value_S, skip_ws_pre by exact Hp.
  cbn [stringify_at]; unfold quote.
  rewrite <- app_comm_cons, <- app_assoc.
  rewrite skip_ws_head by reflexivity.
  change (34 =? 123) with false; change (34 =? 91) with false;
    change (34 =? 34) with true; cbv iota.
  change ([34] ++ r) with (34 :: r).
  rewrite (quote_chars_roundtrip (length s)) by lia; reflexivity.
Qed.

Lemma join_start sep x items :
  join sep (x :: items) = x ++ match items with [] => [] | _ => sep ++ join sep items end.
Proof. destruct items; simpl; [rewrite app_nil_r|]; reflexivity. Qed.

Lemma reads_back_elements ind r vs :
  Forall reads_back vs ->
  forallb integral vs = true -> vs <> [] ->
  forall fuel pre,
    (list_sum (map (fun v => S (size v)) vs) <= fuel)%nat -> all_ws pre ->
    parse_elements fuel
      (pre ++ join ([44; 10] ++ spaces (ind + 2))
                (map (stringify_at (ind + 2)) vs)
           ++ [10] ++ spaces ind ++ [93] ++ r) = Some (vs, r).
Proof.
  induction 1 as [|v vs Hv Hvs IH]; intros Hi Hne fuel pre Hf Hp;
    [congruence|].
  simpl in Hi; apply andb_true_iff in Hi; destruct Hi as [Hiv Hivs].
  simpl in Hf. destruct fuel as [|f]; [lia|].
  rewrite parse_elements_S.
  cbn [map]. rewrite join_start, <- !app_assoc.
  rewrite (Hv Hiv) by
    (try lia; try exact Hp;
     destruct (map (stringify_at (ind + 2)) vs); reflexivity).
  destruct vs as [|v2 vs'].
  - cbn [map app].
    change (10 :: spaces ind ++ 93 :: r) with ((10 :: spaces ind) ++ 93 :: r).
    rewrite (token_other 44 93) by
      (try apply all_ws_nl_spaces; try reflexivity; lia).
    rewrite token_pre by (try apply all_ws_nl_spaces; reflexivity).
    reflexivity.
  - cbn [map].
    repeat (rewrite <- app_assoc || rewrite <- app_comm_cons); cbn [app].
    rewrite token_here by reflexivity.
    match goal with
    | |- context [parse_elements f ?X] =>
        assert (E : parse_elements f X = Some (v2 :: vs', r))
    end.
    { apply (IH Hivs) with (pre := 10 :: spaces (ind + 2));
        [discriminate | simpl in *; lia | apply all_ws_nl_spaces]. }
    rewrite E; reflexivity.
Qed.

Lemma token_before_value c ind v pre rest :
  integral v = true -> all_ws pre -> (c = 93 \/ c = 125) ->
  token c (pre ++ stringify_at ind v ++ rest) = None.
Proof.
  intros Hi Hp Hc.
  destruct (stringify_start ind v Hi) as (d & t & E & Hd).
  destruct (value_start_facts d Hd) as (Hw & H93 & H125 & _).
  rewrite E, <- app_comm_cons.
  apply token_other; [exact Hp | exact Hw | destruct Hc; subst; assumption].
Qed.

Lemma reads_back_members ind r ms :
  Forall (fun kv => reads_back (snd kv)) ms ->
  forallb (fun kv => integral (snd kv)) ms = true -> ms <> [] ->
  forall fuel pre,
    (list_sum (map (fun kv => S (size (snd kv))) ms) <= fuel)%nat ->
    all_ws pre ->
    parse_members fuel
      (pre ++ join ([44; 10] ++ spaces (ind + 2))
                (map (fun kv => quote (fst kv) ++ [58; 32]
                                ++ stringify_at (ind + 2) (snd kv)) ms)
           ++ [10] ++ spaces ind ++ [125] ++ r) = Some (ms, r).
Proof.
  induction 1 as [|[k v] ms Hv Hms IH]; intros Hi Hne fuel pre Hf Hp;
    [congruence|].
  simpl in Hi; apply andb_true_iff in Hi; destruct Hi as [Hiv Hims].
  simpl in Hf, Hv. destruct fuel as [|f]; [lia|].
  rewrite parse_members_S.
  cbn [map fst snd]. rewrite join_start. unfold quote at 1.
  repeat (rewrite <- app_assoc || rewrite <- app_comm_cons); cbn [app].
  rewrite token_pre by (try exact Hp; reflexivity).
  rewrite (quote_chars_roundtrip (length k)) by lia.
  rewrite token_here by reflexivity.
  match goal with
  | |- context [parse_value f (32 :: stringify_at (ind + 2) v ++ ?R)] =>
      assert (E : parse_value f (32 :: stringify_at (ind + 2) v ++ R)
                  = Some (v, R))
  end.
  { apply (Hv Hiv (ind + 2)%nat f [32]); [lia | repeat constructor |].
    destruct ms; reflexivity. }
  rewrite E; clear E.
  destruct ms as [|kv2 ms'].
  - cbn [map app].
    match goal with
    | |- context [token 44 ?X] =>
        assert (T : token 44 X = None)
          by (apply (token_other 44 125 (10 :: spaces ind));
              [apply all_ws_nl_spaces | reflexivity | lia])
    end.
    rewrite T.
    match goal with
    | |- context [token 125 ?X] =>
        assert (T' : token 125 X = Some r)
          by (apply (token_pre 125 (10 :: spaces ind));
              [apply all_ws_nl_spaces | reflexivity])
    end.
    rewrite T'; reflexivity.
  - cbn [map app].
    repeat (rewrite <- app_assoc || rewrite <- app_comm_cons); cbn [app].
    rewrite token_here by reflexivity.
    match goal with
    | |- context [parse_members f ?X] =>
        assert (E : parse_members f X = Some (kv2 :: ms', r))
    end.
    { apply (IH Hims) with (pre := 10 :: spaces (ind + 2));
        [discriminate | simpl in *; lia | apply all_ws_nl_spaces]. }
    rewrite E; reflexivity.
Qed.

Theorem stringify_reads_back (v : value) : reads_back v.
Proof.
  induction v as [|b|n|s|vs IH|ms IH] using value_rect'.
  - intros _ ind fuel pre r Hf Hp Hr.
    destruct fuel as [|f]; [simpl in Hf; lia|].
    rewrite parse_value_S, skip_ws_pre by exact Hp; reflexivity.
  - intros _ ind fuel pre r Hf Hp Hr.
    destruct fuel as [|f]; [simpl in Hf; lia|].
    rewrite parse_value_S, skip_ws_pre by exact Hp; destruct b; reflexivity.
  - destruct n as [z|l]; [apply reads_back_number | intros H; discriminate].
  - apply reads_back_string.
  - intros Hi ind fuel pre r Hf Hp Hr.
    simpl in Hi, Hf.
    destruct fuel as [|f]; [lia|].
    rewrite parse_value_S, skip_ws_pre by exact Hp.
    cbn [stringify_at]; unfold block.
    destruct vs as [|v vs]; [reflexivity|].
    cbn [map].
    repeat (rewrite <- app_assoc || rewrite <- app_comm_cons); cbn [app].
    rewrite skip_ws_head by reflexivity.
    change (91 =? 123) with false; change (91 =? 91) with true; cbv iota.
    match goal with
    | |- context [token 93 ?X] => assert (T : token 93 X = None)
    end.
    { rewrite join_start, <- app_assoc.
      apply (token_before_value 93 (ind + 2) v (10 :: spaces (ind + 2)));
        [|apply all_ws_nl_spaces | left; reflexivity].
      simpl in Hi; apply andb_true_iff in Hi; tauto. }
    rewrite T; clear T.
    match goal with
    | |- context [parse_elements f ?X] =>
        assert (E : parse_elements f X = Some (v :: vs, r))
    end.
    { apply (reads_back_elements ind r (v :: vs) IH Hi)
        with (pre := 10 :: spaces (ind + 2));
        [discriminate | simpl in *; lia | apply all_ws_nl_spaces]. }
    rewrite E; reflexivity.
  - intros Hi ind fuel pre r Hf Hp Hr.
    simpl in Hi, Hf.
    destruct fuel as [|f]; [lia|].
    rewrite parse_value_S, skip_ws_pre by exact Hp.
    cbn [stringify_at]; unfold block.
    destruct ms as [|[k v] ms]; [reflexivity|].
    cbn [map].
    repeat (rewrite <- app_assoc || rewrite <- app_comm_cons); cbn [app].
    rewrite skip_ws_head by reflexivity.
    change (123 =? 123) with true; cbv iota.
    match goal with
    | |- context [token 125 ?X] => assert (T : token 125 X = None)
    end.
    { rewrite join_start; cbn [fst snd]; unfold quote at 1.
      repeat (rewrite <- app_assoc || rewrite <- app_comm_cons); cbn [app].
      apply (token_other 125 34 (10 :: spaces (ind + 2)));
        [apply all_ws_nl_spaces | reflexivity | lia]. }
    rewrite T; clear T.
    match goal with
    | |- context [parse_members f ?X] =>
        assert (E : parse_members f X = Some ((k, v) :: ms, r))
    end.
    { apply (reads_back_members ind r ((k, v) :: ms) IH Hi)
        with (pre := 10 :: spaces (ind + 2));
        [discriminate | simpl in *; lia | apply all_ws_nl_spaces]. }
    rewrite E; reflexivity.
Qed.

Lemma join_length sep (f : value -> text) (vs : list value) :
  (1 <= length sep)%nat ->
  Forall (fun v => (size v <= length (f v))%nat) vs ->
  (list_sum (map (fun v => S (size v)) vs)
   <= length (join sep (map f vs)) + 1)%nat.
Proof.
  intros Hs; induction 1 as [|v vs Hv Hvs IH]; [simpl; lia|].
  cbn [map list_sum]. rewrite join_start, length_app.
  destruct vs as [|v2 vs']; [simpl in *; lia|].
  cbn [map] in *. rewrite length_app.
  unfold list_sum in *; cbn [fold_right] in *. lia.
Qed.

Lemma join_length_members sep (f : text * value -> text)
  (ms : list (text * value)) :
  (1 <= length sep)%nat ->
  Forall (fun kv => (size (snd kv) <= length (f kv))%nat) ms ->
  (list_sum (map (fun kv => S (size (snd kv))) ms)
   <= length (join sep (map f ms)) + 1)%nat.
Proof.
  intros Hs; induction 1 as [|v vs Hv Hvs IH]; [simpl; lia|].
  cbn [map list_sum]. rewrite join_start, length_app.
  destruct vs as [|v2 vs']; [simpl in *; lia|].
  cbn [map] in *. rewrite length_app.
  unfold list_sum in *; cbn [fold_right] in *. lia.
Qed.

Lemma block_length opening closing ind items :
  (2 <= length (block opening closing ind items))%nat /\
  (length (join ([44; 10]%N ++ spaces (ind + 2)) items) + 2
   <= length (block opening closing ind items))%nat.
Proof.
  unfold block; destruct items as [|x items]; [simpl; lia|].
  rewrite !length_app; simpl length; lia.
Qed.

Lemma size_le_length (v : value) :
  integral v = true ->
  forall ind, (size v <= length (stringify_at ind v))%nat.
Proof.
  induction v as [|b|n|s|vs IH|ms IH] using value_rect'; intros Hi ind.
  - simpl; lia.
  - destruct b; simpl; lia.
  - destruct n as [z|l]; [|discriminate]; simpl.
    destruct (show_Z_start z) as (c & t & -> & _); simpl; lia.
  - simpl; lia.
  - cbn [size stringify_at].
    pose proof (block_length 91 93 ind (map (stringify_at (ind + 2)) vs))
      as [_ B].
    pose proof (join_length ([44; 10] ++ spaces (ind + 2))
                  (stringify_at (ind + 2)) vs) as L.
    simpl in Hi; rewrite forallb_forall in Hi.
    rewrite Forall_forall in IH.
    assert (F : Forall (fun v => (size v <= length (stringify_at (ind + 2) v))%nat) vs)
      by (apply Forall_forall; intros v Hv; apply IH; auto).
    specialize (L ltac:(simpl; lia) F).
    lia.
  - cbn [size stringify_at].
    set (f := fun kv : text * value =>
                quote (fst kv) ++ [58; 32] ++ stringify_at (ind + 2) (snd kv)).
    pose proof (block_length 123 125 ind (map f ms)) as [_ B].
    pose proof (join_length_members ([44; 10] ++ spaces (ind + 2)) f ms) as L.
    simpl in Hi; rewrite forallb_forall in Hi.
    rewrite Forall_forall in IH.
    assert (F : Forall (fun kv => (size (snd kv) <= length (f kv))%nat) ms).
    { apply Forall_forall; intros kv Hv; subst f; cbv beta.
      rewrite !length_app; specialize (IH kv Hv (Hi kv Hv) (ind + 2)%nat).
      lia. }
    specialize (L ltac:(simpl; lia) F).
    lia.
Qed.

(** [JSON.parse] reads back what [JSON.stringify] wrote. *)
Theorem parse_stringify (v : value) :
  integral v = true -> parse (stringify v) = Some v.
Proof.
  intros Hi; unfold parse, stringify.
  pose proof (stringify_reads_back v Hi 0%nat
                (S (length (stringify_at 0 v))) [] []) as E.
  simpl app in E; rewrite List.app_nil_r in E.
  rewrite E; [reflexivity | | constructor | reflexivity].
  pose proof (size_le_length v Hi 0%nat); lia.
Qed.

End JSONFacts.

(* ================================================================== *)
(** * Properties of the session storage *)

Section SessionCodec.

Lemma asMessage_messageJSON (m : Message.t) :
  asMessage (messageJSON m) = Some m.
Proof. destruct m as [[] c t]; reflexivity. Qed.

Lemma asTask_taskJSON (k : Task.t) : asTask (taskJSON k) = Some k.
Proof. destruct k as [i c [] t]; reflexivity. Qed.

Lemma all_some_map {A : Type} (f : A -> JSON.value)
  (g : JSON.value -> option A) (l : list A) :
  (forall x, g (f x) = Some x) -> all_some (map g (map f l)) = Some l.
Proof.
  intros H; induction l as [|x l IH]; simpl; [reflexivity|].
  rewrite H, IH; reflexivity.
Qed.

Lemma asSession_sessionJSON (s : Session.t) :
  asSession (sessionJSON s) = Some s.
Proof.
  destruct s as [i p m ms sm u td c up].
  unfold asSession, sessionJSON; cbn [Session.id Session.projectRoot
    Session.model Session.messages Session.summary Session.summaryUpTo
    Session.todos Session.created Session.updated].
  change (asText (field (lit "id") _)) with (Some i).
  change (asText (field (lit "projectRoot") _)) with (Some p).
  change (asText (field (lit "model") _)) with (Some m).
  change (asInt (field (lit "summaryUpTo") _)) with (Some u).
  change (asInt (field (lit "created") _)) with (Some c).
  change (asInt (field (lit "updated") _)) with (Some up).
  change (asArray asMessage (field (lit "messages") _))
    with (all_some (map asMessage (map messageJSON ms))).
  change (asArray asTask (field (lit "todos") _))
    with (all_some (map asTask (map taskJSON td))).
  rewrite (all_some_map messageJSON asMessage ms asMessage_messageJSON).
  rewrite (all_some_map taskJSON asTask td asTask_taskJSON).
  destruct sm; reflexivity.
Qed.

Lemma integral_sessionJSON (s : Session.t) :
  JSONFacts.integral (sessionJSON s) = true.
Proof.
  destruct s as [i p m ms sm u td c up]; unfold sessionJSON; simpl.
  assert (Hm : forallb JSONFacts.integral (map messageJSON ms) = true)
    by (induction ms; simpl; auto).
  assert (Ht : forallb JSONFacts.integral (map taskJSON td) = true)
    by (induction td; simpl; auto).
  rewrite Hm, Ht; destruct sm; reflexivity.
Qed.

(** A session written as a record and read back is the same session. *)
Lemma parseSession_stringify (s : Session.t) :
  parseSession (stringify (sessionJSON s)) = Some s.
Proof.
  unfold parseSession.
  rewrite JSONFacts.parse_stringify by apply integral_sessionJSON.
  apply asSession_sessionJSON.
Qed.

Lemma find_put (p c : text) (l : list (text * text)) :
  find (fun f => text_eqb (fst f) p) (FS.put p c l) = Some (p, c).
Proof.
  induction l as [|f l IH]; simpl.
  - rewrite text_eqb_refl; reflexivity.
  - destruct (text_eqb (fst f) p) eqn:E; simpl.
    + rewrite text_eqb_refl; reflexivity.
    + rewrite E; exact IH.
Qed.

Lemma existsb_put (p c : text) (l : list (text * text)) :
  existsb (fun f => text_eqb (fst f) p) (FS.put p c l) = true.
Proof.
  induction l as [|f l IH]; simpl.
  - rewrite text_eqb_refl; reflexivity.
  - destruct (text_eqb (fst f) p) eqn:E; simpl.
    + rewrite text_eqb_refl; reflexivity.
    + rewrite E; exact IH.
Qed.

End SessionCodec.

Section StorageFacts.

Variable sessionsDir : text.
Variable sha256hex : text -> text.

(** What a successful [write] leaves. *)
Lemma write_ok (p c : text) (fs fs' : FS.t) :
  write p c fs = (Some tt, fs') ->
  FS.isFile fs' p = true /\ FS.content fs' p = Some c /\
  fs' = FS.mk (FS.put p c (FS.files fs)) (FS.dirs fs) (FS.denied fs).
Proof.
  unfold write.
  destruct (FS.denied fs p || FS.isDir fs p); [discriminate|].
  intros H; injection H as <-.
  unfold FS.isFile, FS.content; simpl.
  rewrite existsb_put, find_put; auto.
Qed.

Lemma storage_save_ok (s : Session.t) (fs fs' : FS.t) :
  storage_save sessionsDir sha256hex s fs = (Some tt, fs') ->
  FS.isFile fs' (getCurrentPath sessionsDir sha256hex (Session.projectRoot s))
    = true /\
  FS.content fs' (getCurrentPath sessionsDir sha256hex (Session.projectRoot s))
    = Some (stringify (sessionJSON s)).
Proof.
  unfold storage_save, bind.
  destruct (mkdir_p _ fs) as [[[]|] fs1]; [|discriminate].
  intros H; apply write_ok in H; tauto.
Qed.

(** C4.  A session saved with [SessionStorage.save] and then loaded with
    [SessionStorage.load] for the same project root is the session that
    was saved: the same id, projectRoot, model, messages, summary,
    summaryUpTo, todos, created and updated. *)
Theorem save_then_load (s : Session.t) (fs fs' : FS.t) :
  storage_save sessionsDir sha256hex s fs = (Some tt, fs') ->
  storage_load sessionsDir sha256hex (Session.projectRoot s) fs'
    = (Some (Some s), fs').
Proof.
  intros H; apply storage_save_ok in H; destruct H as [Hf Hc].
  unfold storage_load, bind, exists_, catch, readSession, bind, readText.
  rewrite Hf, Hc, parseSession_stringify; reflexivity.
Qed.

End StorageFacts.

Definition storedSession : Session.t :=
  Session.mk (lit "3f2c9a52-7d1e-4b8a-9c64-0a1b2c3d4e5f")
    (lit "/home/u/proj") (lit "qwen2.5-coder:32b-instruct")
    [Message.mk user (lit "hi") 1700000000005;
     Message.mk assistant (js "run 'ls' \ then	stop") 1700000000006]
    (Some (lit "earlier: greetings")) 1700000000004
    [Task.mk (lit "3f2c9a52") (lit "fix bug") pending 1700000000003]
    1700000000001 1700000000007.

Definition emptyFS : FS.t := FS.mk [] [] (fun _ => false).

(** A stand-in for SHA-256 in the samples. *)
Definition sampleHash (t : text) : text := lit "9f86d081884c7d65".

Definition savedFS : FS.t :=
  snd (storage_save (lit "./sessions") sampleHash storedSession emptyFS).

Lemma save_then_load_witness :
  storage_load (lit "./sessions") sampleHash
    (Session.projectRoot storedSession) savedFS
  = (Some (Some storedSession), savedFS).
Proof.
  apply (save_then_load (lit "./sessions") sampleHash storedSession emptyFS).
  vm_compute; reflexivity.
Defined.

(** The record the sample session is saved as begins as follows. *)
Example saved_record_sample :
  firstn 60 (stringify (sessionJSON storedSession))
  = js "{" ++ [nl] ++ js "  'id': '3f2c9a52-7d1e-4b8a-9c64-0a1b2c3d4e5f'," ++ [nl]
    ++ js "  'project".
Proof. vm_compute; reflexivity. Qed.

(* ------------------------------------------------------------------ *)
(** ** Archiving *)

Section ArchiveFacts.

Variable sessionsDir : text.
Variable sha256hex : text -> text.

Lemma text_eqb_neq (a b : text) : a <> b -> text_eqb a b = false.
Proof.
  intros H; destruct (text_eqb a b) eqn:E; [|reflexivity].
  apply text_eqb_eq in E; contradiction.
Qed.

Lemma isFile_put_other (p q c : text) (l : list (text * text)) :
  p <> q ->
  existsb (fun f => text_eqb (fst f) q) (FS.put p c l)
  = existsb (fun f => text_eqb (fst f) q) l.
Proof.
  intros H; induction l as [|f l IH]; simpl.
  - rewrite (text_eqb_neq _ _ H); reflexivity.
  - destruct (text_eqb (fst f) p) eqn:E; simpl.
    + apply text_eqb_eq in E; rewrite E, (text_eqb_neq _ _ H); reflexivity.
    + rewrite IH; reflexivity.
Qed.

Lemma find_put_other (p q c : text) (l : list (text * text)) :
  p <> q ->
  find (fun f => text_eqb (fst f) q) (FS.put p c l)
  = find (fun f => text_eqb (fst f) q) l.
Proof.
  intros H; induction l as [|f l IH]; simpl.
  - rewrite (text_eqb_neq _ _ H); reflexivity.
  - destruct (text_eqb (fst f) p) eqn:E; simpl.
    + apply text_eqb_eq in E; rewrite E, (text_eqb_neq _ _ H); reflexivity.
    + rewrite IH; reflexivity.
Qed.

Lemma isFile_remove (p q : text) (l : list (text * text)) :
  existsb (fun f => text_eqb (fst f) q) l = false ->
  existsb (fun f => text_eqb (fst f) q) (FS.remove p l) = false.
Proof.
  unfold FS.remove; induction l as [|f l IH]; simpl; [reflexivity|].
  intros H; apply orb_false_iff in H; destruct H as [H1 H2].
  destruct (negb (text_eqb (fst f) p)); simpl; [rewrite H1|]; auto.
Qed.

Lemma archivePath_not_dir (d rest : text) : d ++ lit "/" ++ rest <> d.
Proof.
  intros H; apply (f_equal (@length N)) in H.
  rewrite !length_app in H; simpl in H; lia.
Qed.

Lemma archivePath_not_current (root stamp : text) :
  getArchiveDir sessionsDir sha256hex root ++ lit "/" ++ stamp ++ lit ".json"
  <> getCurrentPath sessionsDir sha256hex root.
Proof.
  unfold getArchiveDir, getCurrentPath; rewrite <- app_assoc.
  intros H; apply app_inv_head in H; discriminate.
Qed.

(** What [SessionStorage.archive] leaves when it succeeds: the archive
    directory is a directory, not a regular file, and the snapshot holds
    the record of the session. *)
Lemma storage_archive_ok (isoNow : text) (s : Session.t) (fs fs' : FS.t)
  (path : text) :
  storage_archive sessionsDir sha256hex isoNow s fs = (Some path, fs') ->
  path = getArchiveDir sessionsDir sha256hex (Session.projectRoot s)
         ++ lit "/" ++ dashed isoNow ++ lit ".json" /\
  FS.isFile fs' (getArchiveDir sessionsDir sha256hex (Session.projectRoot s))
    = false /\
  FS.content fs' path = Some (stringify (sessionJSON s)) /\
  FS.isFile fs' (getCurrentPath sessionsDir sha256hex (Session.projectRoot s))
    = false.
Proof.
  unfold storage_archive, bind.
  set (dir := getArchiveDir sessionsDir sha256hex (Session.projectRoot s)).
  set (cur := getCurrentPath sessionsDir sha256hex (Session.projectRoot s)).
  set (ap := dir ++ lit "/" ++ dashed isoNow ++ lit ".json").
  destruct (mkdir_p dir fs) as [[[]|] fs1] eqn:Em; [|discriminate].
  assert (Hd : FS.isFile fs1 dir = false /\ FS.files fs1 = FS.files fs).
  { revert Em; unfold mkdir_p.
    destruct (FS.denied fs dir || FS.isFile fs dir) eqn:E; [discriminate|].
    apply orb_false_iff in E; destruct E as [_ E].
    destruct (FS.isDir fs dir); intros H; injection H as <-; auto. }
  destruct Hd as [Hd _].
  destruct (write ap (stringify (sessionJSON s)) fs1) as [[[]|] fs2] eqn:Ew;
    [|discriminate].
  apply write_ok in Ew; destruct Ew as (Hf2 & Hc2 & ->).
  assert (Hd2 : FS.isFile
                  (FS.mk (FS.put ap (stringify (sessionJSON s)) (FS.files fs1))
                     (FS.dirs fs1) (FS.denied fs1)) dir = false).
  { unfold FS.isFile in *; simpl.
    rewrite isFile_put_other; [exact Hd | apply archivePath_not_dir]. }
  unfold exists_ at 1.
  destruct (FS.isFile _ cur) eqn:Ec.
  - unfold rm; rewrite Ec; simpl andb.
    destruct (negb (FS.denied fs1 cur)); simpl; [|discriminate].
    intros H; injection H as <- <-.
    unfold FS.isFile, FS.content in *; simpl in *.
    repeat split.
    + apply isFile_remove; exact Hd2.
    + unfold FS.remove.
      rewrite find_put in Hc2.
      clear - Hc2.
      assert (Hne : text_eqb ap cur = false)
        by apply text_eqb_neq, archivePath_not_current.
      induction (FS.files fs1) as [|f l IH]; simpl.
      * rewrite Hne; simpl; rewrite text_eqb_refl; reflexivity.
      * destruct (text_eqb (fst f) ap) eqn:E; simpl.
        -- rewrite Hne; simpl; rewrite text_eqb_refl; reflexivity.
        -- destruct (negb (text_eqb (fst f) cur)); simpl; [rewrite E|]; exact IH.
    + clear; induction (FS.put ap _ _) as [|f l IH]; simpl; [reflexivity|].
      destruct (text_eqb (fst f) cur) eqn:E; simpl; [exact IH|].
      rewrite E; exact IH.
  - simpl; intros H; injection H as <- <-.
    repeat split; assumption.
Qed.

(** C5, the part the code misses: right after a successful
    [SessionManager.archive], [listArchived] answers the empty list.  It
    first asks whether the archive directory exists, with a test that is
    true for regular files only, and the archive directory is a
    directory. *)
Theorem listArchived_misses_snapshot (isoNow uuid : text) (now now' : Z)
  (m m' : Manager) (fs fs' : FS.t) (path : text) :
  manager_archive sessionsDir sha256hex isoNow uuid now now' m fs
    = (Some path, m', fs') ->
  manager_listArchived sessionsDir sha256hex m' fs' = (Some [], fs').
Proof.
  unfold manager_archive.
  destruct (manager_save sessionsDir sha256hex m fs) as [[[[]|] m1] fs1];
    [|discriminate].
  destruct (storage_archive sessionsDir sha256hex isoNow (session m1) fs1)
    as [[p|] fs2] eqn:Ea; [|discriminate].
  intros H; injection H as <- <- <-.
  apply storage_archive_ok in Ea; destruct Ea as (_ & Hd & _).
  unfold manager_listArchived, storage_listArchived, bind, exists_; simpl.
  rewrite Hd; reflexivity.
Qed.

(** X20.  What the archive does keep of its contract: after a successful
    archive the manager holds a fresh session (no messages, no summary,
    [summaryUpTo] 0, no tasks, the id just drawn) with the project root and
    the model of the archived one; the snapshot holds the record of the
    archived session and the current record is gone. *)
Lemma archive_leaves_fresh_session (isoNow uuid : text) (now now' : Z)
  (m m' : Manager) (fs fs' : FS.t) (path : text) :
  manager_archive sessionsDir sha256hex isoNow uuid now now' m fs
    = (Some path, m', fs') ->
  session m'
    = Session.mk uuid (Session.projectRoot (session m))
        (Session.model (session m)) [] None 0 [] now now' /\
  FS.content fs' path = Some (stringify (sessionJSON (session m))) /\
  FS.isFile fs'
    (getCurrentPath sessionsDir sha256hex (Session.projectRoot (session m)))
    = false.
Proof.
  unfold manager_archive, manager_save.
  destruct (storage_save sessionsDir sha256hex (session m) fs)
    as [[[]|] fs1]; [|discriminate].
  simpl session.
  destruct (storage_archive sessionsDir sha256hex isoNow (session m) fs1)
    as [[p|] fs2] eqn:Ea; [|discriminate].
  intros H; injection H as <- <- <-.
  apply storage_archive_ok in Ea; destruct Ea as (_ & _ & Hc & Hf).
  repeat split; assumption.
Qed.

(** X21.  When the archive fails (the snapshot cannot be written, for one),
    the manager keeps its session, and the current record is not cleared: it
    is as it was, or it holds the session as [save] has just written it. *)
Lemma archive_failure_keeps_current (isoNow uuid : text) (now now' : Z)
  (m m' : Manager) (fs fs' : FS.t) :
  manager_archive sessionsDir sha256hex isoNow uuid now now' m fs
    = (None, m', fs') ->
  let cur :=
    getCurrentPath sessionsDir sha256hex (Session.projectRoot (session m)) in
  session m' = session m /\
  (FS.content fs' cur = FS.content fs cur \/
   FS.content fs' cur = Some (stringify (sessionJSON (session m)))).
Proof.
  intros H cur; revert H; unfold manager_archive, manager_save.
  destruct (storage_save sessionsDir sha256hex (session m) fs)
    as [[[]|] fs1] eqn:Es.
  - simpl session.
    apply storage_save_ok in Es; destruct Es as [_ Hc]; fold cur in Hc.
    destruct (storage_archive sessionsDir sha256hex isoNow (session m) fs1)
      as [[p|] fs2] eqn:Ea; [discriminate|].
    intros H; injection H as <- <-; split; [reflexivity | right].
    revert Ea; unfold storage_archive, bind.
    destruct (mkdir_p _ fs1) as [[[]|] fsa] eqn:Em.
    + assert (Hfa : FS.files fsa = FS.files fs1).
      { revert Em; unfold mkdir_p.
        destruct (_ || _); [discriminate|].
        destruct (FS.isDir fs1 _); intros H; injection H as <-; reflexivity. }
      destruct (write _ _ fsa) as [[[]|] fsb] eqn:Ew.
      * apply write_ok in Ew; destruct Ew as (_ & _ & ->).
        unfold exists_ at 1.
        destruct (FS.isFile _ _) eqn:Ec.
        -- unfold rm; rewrite Ec; simpl andb.
           destruct (negb _); simpl; [discriminate|].
           intros H; injection H as <-.
           unfold FS.content in *; simpl.
           rewrite find_put_other by apply archivePath_not_current.
           rewrite Hfa; exact Hc.
        -- simpl; discriminate.
      * intros H; injection H as <-.
        revert Ew; unfold write; destruct (_ || _); [|discriminate].
        intros H; injection H as <-.
        unfold FS.content in *; rewrite Hfa; exact Hc.
    + intros H; injection H as <-.
      revert Em; unfold mkdir_p; destruct (_ || _); [|destruct (FS.isDir _ _); discriminate].
      intros H; injection H as <-; exact Hc.
  - intros H; injection H as <- <-; split; [reflexivity|].
    revert Es; unfold storage_save, bind.
    destruct (mkdir_p _ fs) as [[[]|] fsa] eqn:Em.
    + assert (Hfa : FS.files fsa = FS.files fs).
      { revert Em; unfold mkdir_p.
        destruct (_ || _); [discriminate|].
        destruct (FS.isDir fs _); intros H; injection H as <-; reflexivity. }
      unfold write; destruct (_ || _); [|discriminate].
      intros H; injection H as <-; left.
      unfold FS.content; rewrite Hfa; reflexivity.
    + intros H; injection H as <-; left.
      revert Em; unfold mkdir_p; destruct (_ || _); [|destruct (FS.isDir _ _); discriminate].
      intros H; injection H as <-; reflexivity.
Qed.

End ArchiveFacts.

Definition sampleManager : Manager := MkManager storedSession true true.

(** The sample manager archives its session on an empty file system. *)
Definition archived : option text * Manager * FS.t :=
  manager_archive (lit "./sessions") sampleHash
    (lit "2026-11-03T06:06:00.000Z")
    (lit "0b7e1c1e-5a43-4a7e-8a3c-1f2e3d4c5b6a") 1700000000100 1700000000100
    sampleManager emptyFS.

Lemma listArchived_misses_snapshot_witness :
  manager_listArchived (lit "./sessions") sampleHash (snd (fst archived))
    (snd archived)
  = (Some [], snd archived).
Proof.
  apply (listArchived_misses_snapshot (lit "./sessions") sampleHash
           (lit "2026-11-03T06:06:00.000Z")
           (lit "0b7e1c1e-5a43-4a7e-8a3c-1f2e3d4c5b6a")
           1700000000100 1700000000100 sampleManager (snd (fst archived))
           emptyFS (snd archived)
           (lit "./sessions/proj-9f86d081884c/archive/2026-11-03T06-06-00-000Z.json")).
  vm_compute; reflexivity.
Defined.

(** On the sample the archive succeeds, the snapshot is the only file left,
    [listArchived] does not list it, [loadArchived], which lists the same
    directory without asking first whether it exists, finds it, and so
    does the body of [listArchived] past its first test. *)
Example archived_sample :
  fst (fst archived)
    = Some (lit "./sessions/proj-9f86d081884c/archive/2026-11-03T06-06-00-000Z.json")
  /\ map fst (FS.files (snd archived))
     = [lit "./sessions/proj-9f86d081884c/archive/2026-11-03T06-06-00-000Z.json"]
  /\ fst (manager_listArchived (lit "./sessions") sampleHash
            (snd (fst archived)) (snd archived)) = Some []
  /\ ~ In (metadata storedSession) []
  /\ fst (storage_loadArchived (lit "./sessions") sampleHash
            (lit "/home/u/proj") (Session.id storedSession) (snd archived))
     = Some (Some (sessionJSON storedSession))
  /\ fst (listEntries
            (getArchiveDir (lit "./sessions") sampleHash (lit "/home/u/proj"))
            (snd archived))
     = Some [metadata storedSession].
Proof.
  repeat split; try (vm_compute; reflexivity).
  intros [].
Qed.

(* ================================================================== *)
(** * Further properties of the sources

    The properties below are read off the code of the session manager,
    the summarizer, the client, the storage and the tools; each is
    numbered. *)

(** Membership and difference decided by computation, for the samples. *)
Section Checks.

Lemma not_In_existsb (c : N) (l : text) :
  existsb (N.eqb c) l = false -> ~ In c l.
Proof.
  intros H Hin.
  assert (E : existsb (N.eqb c) l = true)
    by (apply existsb_exists; exists c; split; [exact Hin | apply N.eqb_refl]).
  congruence.
Qed.

Lemma Forall_forallb {A : Type} (P : A -> Prop) (p : A -> bool) (l : list A) :
  (forall x, p x = true -> P x) -> forallb p l = true -> Forall P l.
Proof.
  intros H Hl; apply Forall_forall; intros x Hx.
  apply H; rewrite forallb_forall in Hl; apply Hl; exact Hx.
Qed.

Lemma text_neq_eqb (a b : text) : text_eqb a b = false -> a <> b.
Proof. intros H E; subst; rewrite text_eqb_refl in H; discriminate. Qed.

End Checks.

(* ================================================================== *)
(** * Properties of the task list *)

Section Todos.

Lemma setTodos_same (s : Session.t) : setTodos (Session.todos s) s = s.
Proof. destruct s; reflexivity. Qed.

Lemma updateFirst_spec (id : text) (st : TaskStatus) (l : list Task.t) :
  (exists before k after,
      l = before ++ k :: after /\ Task.id k = id /\
      Forall (fun k' => Task.id k' <> id) before /\
      updateFirst id st l = Some (before ++ setStatus st k :: after))
  \/ (Forall (fun k => Task.id k <> id) l /\ updateFirst id st l = None).
Proof.
  induction l as [|k l IH]; simpl.
  - right; split; [constructor | reflexivity].
  - destruct (text_eqb (Task.id k) id) eqn:E.
    + left; exists [], k, l; apply text_eqb_eq in E; repeat split; auto.
    + assert (N : Task.id k <> id)
        by (intros H; apply text_eqb_eq in H; congruence).
      destruct IH as [(b & k' & a & -> & Hk & Hb & ->)|[Hall ->]].
      * left; exists (k :: b), k', a; repeat split; auto.
      * right; split; [constructor; assumption | reflexivity].
Qed.

Lemma removeFirst_spec (id : text) (l : list Task.t) :
  (exists before k after,
      l = before ++ k :: after /\ Task.id k = id /\
      Forall (fun k' => Task.id k' <> id) before /\
      removeFirst id l = Some (before ++ after))
  \/ (Forall (fun k => Task.id k <> id) l /\ removeFirst id l = None).
Proof.
  induction l as [|k l IH]; simpl.
  - right; split; [constructor | reflexivity].
  - destruct (text_eqb (Task.id k) id) eqn:E.
    + left; exists [], k, l; apply text_eqb_eq in E; repeat split; auto.
    + assert (N : Task.id k <> id)
        by (intros H; apply text_eqb_eq in H; congruence).
      destruct IH as [(b & k' & a & -> & Hk & Hb & ->)|[Hall ->]].
      * left; exists (k :: b), k', a; repeat split; auto.
      * right; split; [constructor; assumption | reflexivity].
Qed.

Lemma updateFirst_fresh (id : text) (st : TaskStatus) (l : list Task.t)
  (k : Task.t) :
  Forall (fun k' => Task.id k' <> id) l -> Task.id k = id ->
  updateFirst id st (l ++ [k]) = Some (l ++ [setStatus st k]).
Proof.
  intros Hl Hk; induction Hl as [|x l Hx _ IH]; simpl.
  - rewrite Hk, text_eqb_refl; reflexivity.
  - rewrite (text_eqb_neq _ _ Hx), IH; reflexivity.
Qed.

Lemma removeFirst_fresh (id : text) (l : list Task.t) (k : Task.t) :
  Forall (fun k' => Task.id k' <> id) l -> Task.id k = id ->
  removeFirst id (l ++ [k]) = Some l.
Proof.
  intros Hl Hk; induction Hl as [|x l Hx _ IH]; simpl.
  - rewrite Hk, text_eqb_refl; reflexivity.
  - rewrite (text_eqb_neq _ _ Hx), IH; reflexivity.
Qed.

End Todos.

(** X1.  [updateTodo] changes the first task that carries the id, and only
    its status: the call answers true and the task list is the same list
    with that one task's status replaced; tasks before it do not carry the
    id. When no task carries the id the call answers false and the session
    is left as it is. *)
Theorem updateTodo_first_match (id : text) (st : TaskStatus) (s : Session.t) :
  (exists before k after,
      Session.todos s = before ++ k :: after /\
      Task.id k = id /\
      Forall (fun k' => Task.id k' <> id) before /\
      updateTodo id st s
        = (true, setTodos (before ++ setStatus st k :: after) s))
  \/ (Forall (fun k => Task.id k <> id) (Session.todos s) /\
      updateTodo id st s = (false, s)).
Proof.
  unfold updateTodo.
  destruct (updateFirst_spec id st (Session.todos s))
    as [(b & k & a & E & Hk & Hb & ->)|[Hall ->]].
  - left; exists b, k, a; auto.
  - right; auto.
Qed.

(** X2.  [removeTodo] takes out the first task that carries the id and
    leaves the others in their order; when no task carries the id the call
    answers false and the session is left as it is. *)
Theorem removeTodo_first_match (id : text) (s : Session.t) :
  (exists before k after,
      Session.todos s = before ++ k :: after /\
      Task.id k = id /\
      Forall (fun k' => Task.id k' <> id) before /\
      removeTodo id s = (true, setTodos (before ++ after) s))
  \/ (Forall (fun k => Task.id k <> id) (Session.todos s) /\
      removeTodo id s = (false, s)).
Proof.
  unfold removeTodo.
  destruct (removeFirst_spec id (Session.todos s))
    as [(b & k & a & E & Hk & Hb & ->)|[Hall ->]].
  - left; exists b, k, a; auto.
  - right; auto.
Qed.

(** X3.  [clearCompletedTodos] answers the number of completed tasks, keeps
    the other tasks in their order, leaves no completed task behind, and a
    second call right after it answers 0 and changes nothing. *)
Theorem clearCompletedTodos_counts (s : Session.t) :
  let completedTask k := TaskStatus_eqb (Task.status k) completed in
  let removed := fst (clearCompletedTodos s) in
  let s' := snd (clearCompletedTodos s) in
  removed = length (filter completedTask (Session.todos s)) /\
  Session.todos s'
    = filter (fun k => negb (completedTask k)) (Session.todos s) /\
  Forall (fun k => Task.status k <> completed) (Session.todos s') /\
  clearCompletedTodos s' = (0, s').
Proof.
  intros completedTask removed s'; subst removed s'.
  unfold clearCompletedTodos; simpl.
  set (kept := filter _ (Session.todos s)).
  assert (Hk : filter (fun k => negb (completedTask k)) kept = kept).
  { subst kept; induction (Session.todos s) as [|k l IH]; simpl; auto.
    destruct (negb (TaskStatus_eqb (Task.status k) completed)) eqn:E; simpl;
      [unfold completedTask at 1; rewrite E; f_equal|]; exact IH. }
  repeat split.
  - pose proof (filter_length completedTask (Session.todos s)) as L.
    unfold kept, completedTask in *; lia.
  - apply Forall_forall; intros k Hin Hs.
    apply filter_In in Hin; destruct Hin as [_ Hin].
    rewrite Hs in Hin; discriminate.
  - unfold completedTask in Hk; rewrite Hk, Nat.sub_diag; reflexivity.
Qed.

(** X4.  A task that [addTodo] has just added is the one [updateTodo]
    changes when it is given the id of the new task, provided no task of the
    list already carries that id (an id is the first eight characters of a
    UUID). *)
Theorem addTodo_then_updateTodo (content uuid : text) (now : Z)
  (st : TaskStatus) (s : Session.t) :
  Forall (fun k => Task.id k <> firstn 8 uuid) (Session.todos s) ->
  let task := fst (addTodo content uuid now s) in
  let s1 := snd (addTodo content uuid now s) in
  Session.todos s1 = Session.todos s ++ [task] /\
  Task.status task = pending /\
  updateTodo (Task.id task) st s1
    = (true, setTodos (Session.todos s ++ [setStatus st task]) s).
Proof.
  intros H task s1; subst task s1; unfold addTodo, updateTodo.
  set (id := firstn 8 uuid) in *; clearbody id; simpl.
  rewrite (updateFirst_fresh id st _ (Task.mk id content pending now) H eq_refl).
  auto.
Qed.

Lemma addTodo_then_updateTodo_witness :
  Session.todos
    (snd (addTodo (lit "write tests") (lit "0b7e1c1e-5a43-4a7e-8a3c-1f2e3d4c5b6a")
            1700000000200 storedSession))
  = Session.todos storedSession
    ++ [fst (addTodo (lit "write tests")
               (lit "0b7e1c1e-5a43-4a7e-8a3c-1f2e3d4c5b6a") 1700000000200
               storedSession)]
  /\ Task.status
       (fst (addTodo (lit "write tests")
               (lit "0b7e1c1e-5a43-4a7e-8a3c-1f2e3d4c5b6a") 1700000000200
               storedSession)) = pending
  /\ updateTodo (lit "0b7e1c1e") completed
       (snd (addTodo (lit "write tests")
               (lit "0b7e1c1e-5a43-4a7e-8a3c-1f2e3d4c5b6a") 1700000000200
               storedSession))
     = (true,
        setTodos
          (Session.todos storedSession
           ++ [Task.mk (lit "0b7e1c1e") (lit "write tests") completed
                 1700000000200])
          storedSession).
Proof.
  apply (addTodo_then_updateTodo (lit "write tests")
           (lit "0b7e1c1e-5a43-4a7e-8a3c-1f2e3d4c5b6a") 1700000000200
           completed storedSession).
  apply (Forall_forallb _
           (fun k => negb (text_eqb (Task.id k)
                             (firstn 8 (lit "0b7e1c1e-5a43-4a7e-8a3c-1f2e3d4c5b6a"))))).
  - intros k H; apply text_neq_eqb, negb_true_iff; exact H.
  - vm_compute; reflexivity.
Defined.

(** X5.  Adding a task and removing it by its id gives back the session as
    it was, provided no task of the list already carries that id. *)
Theorem addTodo_then_removeTodo (content uuid : text) (now : Z)
  (s : Session.t) :
  Forall (fun k => Task.id k <> firstn 8 uuid) (Session.todos s) ->
  let task := fst (addTodo content uuid now s) in
  removeTodo (Task.id task) (snd (addTodo content uuid now s)) = (true, s).
Proof.
  intros H task; subst task; unfold addTodo, removeTodo.
  set (id := firstn 8 uuid) in *; clearbody id; simpl.
  rewrite (removeFirst_fresh id _ (Task.mk id content pending now) H eq_refl).
  destruct s; reflexivity.
Qed.

Lemma addTodo_then_removeTodo_witness :
  removeTodo (lit "0b7e1c1e")
    (snd (addTodo (lit "write tests")
            (lit "0b7e1c1e-5a43-4a7e-8a3c-1f2e3d4c5b6a") 1700000000200
            storedSession))
  = (true, storedSession).
Proof.
  apply (addTodo_then_removeTodo (lit "write tests")
           (lit "0b7e1c1e-5a43-4a7e-8a3c-1f2e3d4c5b6a") 1700000000200
           storedSession).
  apply (Forall_forallb _
           (fun k => negb (text_eqb (Task.id k)
                             (firstn 8 (lit "0b7e1c1e-5a43-4a7e-8a3c-1f2e3d4c5b6a"))))).
  - intros k H; apply text_neq_eqb, negb_true_iff; exact H.
  - vm_compute; reflexivity.
Defined.

(* ================================================================== *)
(** * Properties of the context sent to the model *)

Section Context.

Lemma filter_all {A : Type} (p : A -> bool) (l : list A) :
  Forall (fun x => p x = true) l -> filter p l = l.
Proof.
  induction 1 as [|x l Hx _ IH]; simpl; [reflexivity|].
  rewrite Hx, IH; reflexivity.
Qed.

Lemma sorted_lt_after (l : list Z) (i : nat) (x : Z) :
  StronglySorted Z.lt l -> nth_error l i = Some x ->
  Forall (fun y => (x < y)%Z) (skipn (S i) l).
Proof.
  intros H; revert i; induction H as [|a l Hs IH Ha]; intros i Hi.
  - destruct i; discriminate.
  - destruct i as [|i]; simpl in *.
    + injection Hi as <-; exact Ha.
    + apply IH; exact Hi.
Qed.

Lemma skipn_map {A B : Type} (f : A -> B) (n : nat) (l : list A) :
  skipn n (map f l) = map f (skipn n l).
Proof.
  revert l; induction n as [|n IH]; intros [|x l]; simpl; auto.
Qed.

(** What a compaction leaves, by the position of the last compacted
    message. *)
Lemma maybeCompress_split (digest : Digest) (s : Session.t) :
  fst (maybeCompress digest s) = true ->
  exists k last,
    S k + 10 = length (Session.messages s) /\
    nth_error (Session.messages s) k = Some last /\
    Session.messages (snd (maybeCompress digest s))
      = skipn (S k) (Session.messages s) /\
    Session.summaryUpTo (snd (maybeCompress digest s))
      = Message.timestamp last.
Proof.
  intros H; destruct (maybeCompress_true_inv digest s H) as [Htok Hlen].
  destruct (maybeCompress_compacting digest s Htok Hlen) as (m & Hm & E).
  exists (length (Session.messages s) - 11), m; rewrite E.
  cbn [snd Session.messages Session.summaryUpTo].
  split; [lia|]; split; [exact Hm|]; split; [|reflexivity].
  unfold lastN; f_equal; lia.
Qed.

End Context.

(** X6.  After a compaction that leaves a summary, in a session whose
    timestamps strictly increase, the context for the model is the system
    prompt extended by the summary, followed by exactly the ten messages the
    compaction kept. *)
Theorem context_after_compaction (digest : Digest) (prompt : text)
  (s : Session.t) (summary : text) :
  StronglySorted Z.lt (map Message.timestamp (Session.messages s)) ->
  fst (maybeCompress digest s) = true ->
  Session.summary (snd (maybeCompress digest s)) = Some summary ->
  summary <> [] ->
  getContextMessages prompt (snd (maybeCompress digest s))
  = Message.mk system
      (prompt ++ [nl; nl] ++ lit "## Previous Conversation Summary"
       ++ [nl] ++ summary) 0
    :: lastN 10 (Session.messages s).
Proof.
  intros Hs Hc Hsum Hne.
  destruct (maybeCompress_split digest s Hc) as (k & last & Hk & Hl & Hm & Hu).
  unfold getContextMessages; rewrite Hsum, Hm, Hu.
  destruct summary as [|c r]; [congruence|]; simpl truthy; cbv iota.
  f_equal.
  replace (lastN 10 (Session.messages s)) with (skipn (S k) (Session.messages s))
    by (unfold lastN; f_equal; lia).
  apply filter_all.
  assert (Hn : nth_error (map Message.timestamp (Session.messages s)) k
               = Some (Message.timestamp last))
    by (rewrite nth_error_map, Hl; reflexivity).
  pose proof (sorted_lt_after _ _ _ Hs Hn) as Hf.
  rewrite skipn_map in Hf; rewrite Forall_map in Hf.
  revert Hf; apply Forall_impl; intros m Hlt; apply Z.ltb_lt; exact Hlt.
Qed.

Lemma context_after_compaction_witness :
  getContextMessages (lit "You are Spot.")
    (snd (maybeCompress someDigest sampleSession))
  = Message.mk system
      (lit "You are Spot." ++ [nl; nl]
       ++ lit "## Previous Conversation Summary" ++ [nl] ++ lit "digest") 0
    :: lastN 10 (Session.messages sampleSession).
Proof.
  apply (context_after_compaction someDigest (lit "You are Spot.")
           sampleSession (lit "digest")).
  - unfold sampleSession, sampleMessages; cbn [Session.messages].
    rewrite map_map; cbn [Message.timestamp seq map].
    repeat (apply SSorted_cons;
            [|repeat (apply Forall_cons; [reflexivity|]); apply Forall_nil]).
    apply SSorted_nil.
  - vm_compute; reflexivity.
  - vm_compute; reflexivity.
  - discriminate.
Defined.





(** X8.  A session of at most ten messages is never compacted, however long
    its messages are: the run answers false and leaves the session as it is.
    *)
Theorem maybeCompress_short_session (digest : Digest) (s : Session.t) :
  length (Session.messages s) <= 10 ->
  maybeCompress digest s = (false, s).
Proof.
  intros H; unfold maybeCompress.
  destruct (_ <? _)%Z; [reflexivity|].
  rewrite (splitIndex_short _ H); reflexivity.
Qed.

Lemma maybeCompress_short_session_witness :
  maybeCompress failingDigest storedSession = (false, storedSession).
Proof.
  apply (maybeCompress_short_session failingDigest storedSession).
  vm_compute; repeat constructor.
Defined.

Section Estimates.

Lemma estimate_fold (messages : list Message.t) (acc : Z) :
  fold_left (fun sum m => (sum + estimateTokens (Message.content m))%Z)
    messages acc
  = (acc + estimateMessagesTokens messages)%Z.
Proof.
  unfold estimateMessagesTokens.
  revert acc; induction messages as [|m l IH]; intros acc; simpl; [lia|].
  rewrite IH, (IH (estimateTokens _)); lia.
Qed.

Lemma estimate_cons (m : Message.t) (l : list Message.t) :
  estimateMessagesTokens (m :: l)
  = (estimateTokens (Message.content m) + estimateMessagesTokens l)%Z.
Proof.
  unfold estimateMessagesTokens at 1; simpl; apply estimate_fold.
Qed.

End Estimates.

(** X9.  The token estimate of a message list is a quarter of the number of
    code units of its contents, each message rounded up on its own: four
    times the estimate lies between the total length and the total length
    plus three per message. *)
Theorem estimateMessagesTokens_bounds (messages : list Message.t) :
  (totalLength messages <= 4 * estimateMessagesTokens messages
   <= totalLength messages + 3 * Z.of_nat (length messages))%Z.
Proof.
  induction messages as [|m l IH]; [simpl; unfold estimateMessagesTokens; simpl; lia|].
  rewrite estimate_cons; simpl totalLength; simpl length.
  unfold estimateTokens.
  pose proof (Z.div_mod (Z.of_nat (length (Message.content m)) + 3) 4 ltac:(lia)).
  pose proof (Z.mod_pos_bound (Z.of_nat (length (Message.content m)) + 3) 4 ltac:(lia)).
  lia.
Qed.

Section Prompt.

Lemma length_join_le (sep : text) (items : list text) (b : nat) :
  Forall (fun x => length x <= b) items ->
  length (join sep items) <= (b + length sep) * length items.
Proof.
  induction 1 as [|x l Hx Hl IH]; [simpl; lia|].
  destruct l as [|y l]; [simpl in *; nia|].
  change (join sep (x :: y :: l)) with (x ++ sep ++ join sep (y :: l)).
  change (length (x :: y :: l)) with (S (length (y :: l))).
  rewrite !length_app.
  generalize dependent (length (join sep (y :: l))).
  generalize (length (y :: l)); intros; nia.
Qed.

Lemma length_formatMessage (m : Message.t) :
  length (formatMessage m) <= 2020.
Proof.
  unfold formatMessage.
  rewrite !length_app.
  assert (Hr : length (match Message.role m with
                       | user => lit "User"
                       | assistant => lit "Spot"
                       | _ => lit "Tool"
                       end) = 4)
    by (destruct (Message.role m); reflexivity).
  rewrite Hr; clear Hr.
  destruct (Nat.ltb_spec 2000 (length (Message.content m))) as [H|H].
  - rewrite length_app, length_firstn.
    change (length (lit "...[truncated]")) with 14.
    change (length (lit ": ")) with 2; lia.
  - change (length (lit ": ")) with 2; lia.
Qed.

End Prompt.

(** X10.  The request for a digest is bounded by the number of messages, not
    by their sizes: each message enters with at most 2000 code units of its
    content, and system messages do not enter at all. *)
Theorem summarizePrompt_bounded (messages : list Message.t) :
  length (summarizePrompt messages)
  <= length SUMMARIZE_PROMPT
     + 2022 * (length messages - count_role system messages).
Proof.
  unfold summarizePrompt, count_role; rewrite length_app.
  apply Nat.add_le_mono_l.
  set (kept := filter _ messages).
  assert (Hk : length kept
               = length messages
                 - length (filter (fun m => Role_eqb (Message.role m) system)
                             messages)).
  { pose proof (filter_length (fun m => Role_eqb (Message.role m) system)
                  messages) as L.
    cbv beta in L; subst kept; lia. }
  rewrite <- Hk.
  pose proof (length_join_le [nl; nl] (map formatMessage kept) 2020) as L.
  rewrite length_map in L; simpl length in L.
  change (2020 + 2) with 2022 in L.
  apply L.
  apply Forall_map, Forall_forall; intros m _; apply length_formatMessage.
Qed.

(* ================================================================== *)
(** * Properties of the tool instructions *)

Section Includes.

Lemma strip_prefix_app (p r : text) : JSON.strip_prefix p (p ++ r) = Some r.
Proof.
  induction p as [|c p IH]; simpl; [reflexivity|].
  rewrite N.eqb_refl; exact IH.
Qed.

Lemma strip_prefix_inv (p s r : text) :
  JSON.strip_prefix p s = Some r -> s = p ++ r.
Proof.
  revert s; induction p as [|c p IH]; intros s H; simpl in H.
  - injection H as ->; reflexivity.
  - destruct s as [|d s]; [discriminate|].
    destruct (N.eqb_spec c d) as [->|]; [|discriminate].
    simpl; f_equal; apply IH; exact H.
Qed.

(** [includes] is the search for an occurrence. *)
Lemma includes_iff (needle hay : text) :
  includes needle hay = true <-> exists a b, hay = a ++ needle ++ b.
Proof.
  split.
  - induction hay as [|c hay IH]; simpl.
    + destruct (JSON.strip_prefix needle []) as [r|] eqn:E; [|discriminate].
      intros _; exists [], r; apply strip_prefix_inv in E; exact E.
    + destruct (JSON.strip_prefix needle (c :: hay)) as [r|] eqn:E.
      * intros _; exists [], r; apply strip_prefix_inv in E; exact E.
      * intros H; destruct (IH H) as (a & b & ->).
        exists (c :: a), b; reflexivity.
  - intros (a & b & ->); induction a as [|c a IH].
    + simpl app; destruct (needle ++ b) as [|d r] eqn:E; simpl;
        rewrite <- E, strip_prefix_app; reflexivity.
    + simpl; rewrite IH; destruct (JSON.strip_prefix _ _); reflexivity.
Qed.

Lemma includes_inside (needle a hay b : text) :
  includes needle hay = true -> includes needle (a ++ hay ++ b) = true.
Proof.
  intros H; apply includes_iff in H; destruct H as (x & y & ->).
  apply includes_iff; exists (a ++ x), (y ++ b).
  rewrite <- !app_assoc; reflexivity.
Qed.

Lemma join_holds (sep : text) (items : list text) (x : text) :
  In x items -> exists a b, join sep items = a ++ x ++ b.
Proof.
  induction items as [|y l IH]; [intros []|].
  intros [->|H].
  - destruct l as [|z l].
    + exists [], []; simpl; rewrite app_nil_r; reflexivity.
    + exists [], (sep ++ join sep (z :: l)); reflexivity.
  - destruct (IH H) as (a & b & E).
    destruct l as [|z l]; [destruct H|].
    exists (y ++ sep ++ a), b.
    change (join sep (y :: z :: l)) with (y ++ sep ++ join sep (z :: l)).
    rewrite E, <- !app_assoc; reflexivity.
Qed.

End Includes.

(** X11.  The tool instructions are injected at most once: a message list
    that has gone through [messagesWithTools] goes through it again
    unchanged. Only the first message can differ from the input, and only by
    the instructions appended to its content. *)
Theorem messagesWithTools_idempotent (toolDesc : text)
  (messages : list ChatMessage.t) :
  messagesWithTools toolDesc (messagesWithTools toolDesc messages)
    = messagesWithTools toolDesc messages
  /\ length (messagesWithTools toolDesc messages) = length messages
  /\ tl (messagesWithTools toolDesc messages) = tl messages.
Proof.
  destruct messages as [|m rest]; [auto|].
  unfold messagesWithTools at 2 3 4.
  destruct (Role_eqb (ChatMessage.role m) system
            && negb (includes (lit "TOOL CALLING") (ChatMessage.content m)))
    eqn:E.
  - assert (H : includes (lit "TOOL CALLING")
                  (ChatMessage.content m ++ toolInstructions toolDesc) = true).
    { assert (Hi : exists b, toolInstructions toolDesc
                             = ([nl; nl] ++ lit "## ")
                               ++ lit "TOOL CALLING" ++ b)
        by (eexists; reflexivity).
      destruct Hi as [b ->].
      apply includes_iff.
      exists (ChatMessage.content m ++ [nl; nl] ++ lit "## "), b.
      rewrite <- !app_assoc; reflexivity. }
    repeat split; try reflexivity.
    unfold messagesWithTools; cbn [ChatMessage.role ChatMessage.content].
    rewrite H, andb_false_r; reflexivity.
    unfold messagesWithTools; rewrite E; reflexivity.
  - repeat split; unfold messagesWithTools; rewrite E; reflexivity.
Qed.

Section Marker.

Lemma messagesWithTools_marked (toolDesc : text) (r : Role) (content : text)
  (rest : list ChatMessage.t) :
  includes (lit "TOOL CALLING") content = true ->
  messagesWithTools toolDesc (ChatMessage.mk r content :: rest)
    = ChatMessage.mk r content :: rest.
Proof.
  intros H; unfold messagesWithTools.
  cbn [ChatMessage.role ChatMessage.content].
  rewrite H, andb_false_r; reflexivity.
Qed.

(** The context begins with a system message whose content begins with
    the system prompt and, when there is a summary, ends with it. *)
Lemma getContextMessages_head (prompt : text) (s : Session.t) :
  exists content rest,
    getContextMessages prompt s = Message.mk system content 0 :: rest /\
    (exists b, content = prompt ++ b) /\
    (forall t, Session.summary s = Some t -> t <> [] ->
               exists a, content = a ++ t).
Proof.
  unfold getContextMessages.
  destruct (Session.summary s) as [[|c t]|]; cbn [truthy];
    eexists; eexists; (split; [reflexivity|]); split.
  - exists []; rewrite app_nil_r; reflexivity.
  - intros t [= <-] H; congruence.
  - eexists; reflexivity.
  - intros t' [= <-] _.
    exists (prompt ++ [nl; nl] ++ lit "## Previous Conversation Summary"
            ++ [nl]).
    rewrite <- !app_assoc; reflexivity.
  - exists []; rewrite app_nil_r; reflexivity.
  - intros t [=].
Qed.

Lemma includes_prefix (needle hay b : text) :
  includes needle hay = true -> includes needle (hay ++ b) = true.
Proof. intros H; apply (includes_inside needle [] hay b H). Qed.

Lemma includes_suffix (needle a hay : text) :
  includes needle hay = true -> includes needle (a ++ hay) = true.
Proof.
  intros H; apply (includes_inside needle a hay []) in H.
  rewrite app_nil_r in H; exact H.
Qed.

Lemma formatTodosForPrompt_holds (s : Session.t) (k : Task.t) :
  In k (Session.todos s) ->
  exists a b, formatTodosForPrompt s = a ++ Task.content k ++ b.
Proof.
  intros Hk; unfold formatTodosForPrompt.
  destruct (Session.todos s) as [|k0 l] eqn:E; [destruct Hk|].
  cbn [length Nat.eqb]; rewrite <- E in *.
  destruct (join_holds [nl] (map taskLine (Session.todos s)) (taskLine k))
    as (a & b & ->); [apply in_map; exact Hk|].
  unfold taskLine.
  set (icon := match Task.status k with
               | pending => _ | in_progress => _ | completed => _ end).
  exists ([nl] ++ lit "## Current Tasks" ++ [nl] ++ a ++ icon ++ lit " "),
    (lit " (id: " ++ Task.id k ++ lit ")" ++ b).
  rewrite <- !app_assoc; reflexivity.
Qed.

Lemma formatProjectContext_holds (p : ProjectContext.t) (t : text) :
  ProjectContext.instructions p = Some t -> t <> [] ->
  exists a b, formatProjectContext p = a ++ t ++ b.
Proof.
  intros Hp Hne; unfold formatProjectContext; rewrite Hp.
  destruct t as [|c t]; [congruence|]; cbn [truthy orEmpty].
  match goal with
  | |- exists a b, join _ ([?x] ++ [?env]) = _ =>
      exists (lit "## Project Instructions (from SPOT.md)" ++ [nl; nl]),
        ([nl; nl] ++ env);
      change (join [nl; nl] ([x] ++ [env])) with (x ++ [nl; nl] ++ env)
  end.
  rewrite <- !app_assoc; reflexivity.
Qed.

End Marker.

(** X12.  When the summary of the session, the content of one of its tasks
    or the instructions of the project contain the words TOOL CALLING, the
    system prompt the REPL builds contains them, and [chat] sends the
    messages without the tool instructions. *)
Theorem marker_suppresses_tool_instructions (toolDesc : text)
  (project : option ProjectContext.t) (cwd : text) (s : Session.t) :
  (exists t, Session.summary s = Some t /\
             includes (lit "TOOL CALLING") t = true)
  \/ (exists k, In k (Session.todos s) /\
                includes (lit "TOOL CALLING") (Task.content k) = true)
  \/ (exists p t, project = Some p /\
                  ProjectContext.instructions p = Some t /\
                  includes (lit "TOOL CALLING") t = true) ->
  messagesWithTools toolDesc (getMessagesForModel project cwd s)
    = getMessagesForModel project cwd s.
Proof.
  intros H; unfold getMessagesForModel.
  set (prompt := buildSystemPrompt project cwd s).
  destruct (getContextMessages_head prompt s)
    as (content & rest & -> & (b & Hb) & Hsum).
  cbn [map toChatMessage Message.role Message.content].
  apply messagesWithTools_marked.
  assert (Hne : forall t, includes (lit "TOOL CALLING") t = true -> t <> [])
    by (intros t Ht ->; discriminate).
  destruct H as [(t & Hs & Hi)|[(k & Hk & Hi)|(p & t & Ep & Hp & Hi)]].
  - destruct (Hsum t Hs (Hne _ Hi)) as [a ->].
    apply includes_suffix; exact Hi.
  - rewrite Hb; apply includes_prefix.
    subst prompt; unfold buildSystemPrompt.
    destruct (formatTodosForPrompt_holds s k Hk) as (x & y & E).
    rewrite E.
    assert (N : nonempty (x ++ Task.content k ++ y) = true).
    { destruct x; [|reflexivity].
      pose proof (Hne _ Hi).
      destruct (Task.content k); [congruence | reflexivity]. }
    rewrite N, (app_assoc x).
    apply includes_suffix, includes_suffix, includes_prefix, includes_suffix.
    exact Hi.
  - rewrite Hb; apply includes_prefix.
    subst prompt project; unfold buildSystemPrompt.
    destruct (formatProjectContext_holds p t Hp (Hne _ Hi)) as (x & y & ->).
    assert (Hin : includes (lit "TOOL CALLING")
                    (BASE_SYSTEM_PROMPT ++ [nl] ++ x ++ t ++ y) = true).
    { apply includes_suffix, includes_suffix, includes_suffix, includes_prefix.
      exact Hi. }
    destruct (nonempty (formatTodosForPrompt s));
      [apply includes_prefix|]; exact Hin.
Qed.

(** A session whose summary quotes the heading of the tool instructions. *)
Definition markedSession : Session.t :=
  Session.mk (lit "s-3") (lit "/home/u/proj") (lit "qwen")
    [Message.mk user (lit "go on") 1700000000300]
    (Some (lit "The user asked how TOOL CALLING works.")) 1700000000200
    [] 1700000000100 1700000000300.

Lemma marker_suppresses_tool_instructions_witness :
  messagesWithTools (lit "ls: List contents of a directory.")
    (getMessagesForModel None (lit "/home/u/proj") markedSession)
  = getMessagesForModel None (lit "/home/u/proj") markedSession.
Proof.
  apply (marker_suppresses_tool_instructions
           (lit "ls: List contents of a directory.") None
           (lit "/home/u/proj") markedSession).
  left; exists (lit "The user asked how TOOL CALLING works."); split.
  - reflexivity.
  - vm_compute; reflexivity.
Defined.

Section History.

Variable World : Type.
Variable execute : Tool -> JSON.value -> World -> Outcome * World.
Variable backend : list ChatMessage.t -> list text * option text.
Variable toolDesc : text.

Lemma runToolCalls_roles (tcs : list ParsedToolCall.t) (w : World) :
  Forall (fun m => ChatMessage.role m = user)
    (fst (fst (runToolCalls execute tcs w))).
Proof.
  revert w; induction tcs as [|tc tcs IH]; intros w; simpl; [constructor|].
  destruct (runToolCall execute tc w) as [[r w1] ev].
  specialize (IH w1).
  destruct (runToolCalls execute tcs w1) as [[m w2] e]; simpl in *.
  constructor; [reflexivity | exact IH].
Qed.

End History.

(** X13.  [chat] only appends to the message list it is given: whatever the
    backend and the tools do, the list it leaves is the list it got followed
    by assistant messages (the responses that held tool calls) and user
    messages (the tool results); no message is changed or removed, and the
    tool instructions sent to the backend are not kept in it. *)
Theorem chat_only_appends (World : Type)
  (execute : Tool -> JSON.value -> World -> Outcome * World)
  (backend : list ChatMessage.t -> list text * option text)
  (toolDesc : text) (rounds : nat) (messages : list ChatMessage.t)
  (w : World) :
  exists added,
    snd (fst (fst (chat execute backend toolDesc rounds messages w)))
      = messages ++ added /\
    Forall (fun m => ChatMessage.role m = assistant \/
                     ChatMessage.role m = user) added.
Proof.
  revert messages w; induction rounds as [|rounds IH]; intros messages w.
  - exists []; simpl; rewrite app_nil_r; auto.
  - simpl.
    destruct (backend (messagesWithTools toolDesc messages))
      as [chunks [e|]].
    + exists []; simpl; rewrite app_nil_r; auto.
    + destruct (0 <? length (parseToolCalls (concat (filter nonempty chunks)))).
      * pose proof (runToolCalls_roles World execute
                      (parseToolCalls (concat (filter nonempty chunks))) w) as R.
        destruct (runToolCalls execute _ w) as [[results w'] evs].
        specialize (IH (messages
                        ++ ChatMessage.mk assistant
                             (concat (filter nonempty chunks)) :: results) w').
        destruct (chat execute backend toolDesc rounds _ w')
          as [[[r final] w''] evs'].
        destruct IH as (added & E & F); simpl in *.
        exists (ChatMessage.mk assistant (concat (filter nonempty chunks))
                  :: results ++ added).
        split.
        -- rewrite E, <- app_assoc; reflexivity.
        -- constructor; [left; reflexivity|].
           apply Forall_app; split; [|exact F].
           revert R; apply Forall_impl; auto.
      * exists []; simpl; rewrite app_nil_r; auto.
Qed.

(* ================================================================== *)
(** * The arguments of an extracted call *)

Section Payload.

Lemma run_Seq_tail (a b : regex) (st st' : mstate) :
  In st' (run (Seq a b) st) -> exists st1, In st' (run b st1).
Proof.
  intros H; apply run_Seq in H; destruct H as (st1 & _ & H); eauto.
Qed.

(** A group whose expression begins with the code unit [c] captures a
    text that begins with [c]. *)
Lemma group_starts (k : nat) (c : N) (a tail : regex) (st st' : mstate) :
  no_group k tail = true ->
  In st' (run (Seq (Group k (Seq (Is c) a)) tail) st) ->
  exists w, cap k (caps st') = Some (c :: w).
Proof.
  intros Hk H.
  apply run_Seq in H; destruct H as (st1 & H1 & H2).
  apply run_Group in H1; destruct H1 as (st2 & Ha & _ & Hc).
  rewrite (run_keeps_group k tail Hk _ _ H2), Hc.
  apply run_Seq in Ha; destruct Ha as (st3 & H3 & H4).
  apply run_Is in H3; apply run_consumes in H4; destruct H4 as [w E].
  exists w; f_equal; apply consumed_app.
  rewrite H3, E; reflexivity.
Qed.

Lemma jsonPattern_payload (st st' : mstate) :
  In st' (run jsonPattern st) ->
  exists w, cap 2 (caps st') = Some (ch "{" :: w).
Proof.
  unfold jsonPattern; intros H.
  do 16 (apply run_Seq_tail in H; destruct H as (? & H)).
  revert H; apply group_starts; reflexivity.
Qed.

Lemma funcPattern_payload (st st' : mstate) :
  In st' (run funcPattern st) ->
  exists w, cap 2 (caps st') = Some (ch "{" :: w).
Proof.
  unfold funcPattern; intros H.
  do 5 (apply run_Seq_tail in H; destruct H as (? & H)).
  revert H; apply group_starts; reflexivity.
Qed.

(** A text that begins with an opening brace parses to an object or not
    at all. *)
Lemma parse_object (w : text) (v : JSON.value) :
  JSON.parse (ch "{" :: w) = Some v -> exists ms, v = JSON.Obj ms.
Proof.
  unfold JSON.parse.
  destruct (JSON.parse_value _ _) as [[v' r]|] eqn:E; [|discriminate].
  intros H; destruct (JSON.is_nil _); [|discriminate].
  injection H as <-.
  cbn [JSON.parse_value] in E.
  change (JSON.skip_ws (ch "{" :: w)) with (ch "{" :: w) in E.
  change (N.eqb (ch "{") 123) with true in E; cbv iota in E.
  destruct (JSON.token 125 w).
  - injection E as <- _; eauto.
  - destruct (JSON.parse_members _ _) as [[ms k]|]; [|discriminate].
    injection E as <- _; eauto.
Qed.

End Payload.

(** X14.  The arguments of every extracted call are a JSON object: both
    grammars capture a payload that begins with an opening brace, and such a
    text parses to an object when it parses. So a tool never receives an
    array, a string, a number or [null] as its parameters. *)
Theorem extracted_arguments_are_objects (t : text) :
  Forall
    (fun tc => exists members,
                 ParsedToolCall.arguments tc = JSON.Obj members)
    (parseToolCalls t).
Proof.
  apply Forall_forall; intros tc H.
  unfold parseToolCalls in H; apply in_map_iff in H.
  destruct H as ((i & c) & <- & H); simpl.
  rewrite parseToolCallsAt_eq in H.
  assert (G : forall P m p a,
             (forall st st', In st' (run P st) ->
                             exists w, cap 2 (caps st') = Some (ch "{" :: w)) ->
             In m (match_all P t) -> group 2 m = Some p ->
             JSON.parse p = Some a -> exists ms, a = JSON.Obj ms).
  { intros P m p a HP Hm G2 Hp.
    apply scan_matches in Hm; destruct Hm as (q & s & pos & Hm).
    apply match_here_run in Hm; destruct Hm as (st' & Hr & _ & _ & Hg).
    destruct (HP _ _ Hr) as [w Hw].
    unfold group in G2; rewrite Hg, Hw in G2; injection G2 as <-.
    eapply parse_object; exact Hp. }
  destruct (length (collect (located jsonCall) (match_all jsonPattern t)) =? 0);
    apply In_collect in H; destruct H as (m & Hm & E); unfold located in E.
  - unfold funcCall in E.
    destruct (group 1 m) as [n|]; [|discriminate].
    destruct (group 2 m) as [p|] eqn:G2; [|discriminate].
    destruct (JSON.parse p) as [a|] eqn:Hp; [|discriminate].
    injection E as <- <-; simpl.
    exact (G funcPattern m p a funcPattern_payload Hm G2 Hp).
  - unfold jsonCall in E.
    destruct (group 1 m) as [n|]; [|discriminate].
    destruct (group 2 m) as [p|] eqn:G2; [|discriminate].
    destruct (JSON.parse p) as [a|] eqn:Hp; [|discriminate].
    destruct (getToolByName n); [|discriminate].
    injection E as <- <-; simpl.
    exact (G jsonPattern m p a jsonPattern_payload Hm G2 Hp).
Qed.

(* ================================================================== *)
(** * Properties of the session storage *)

Section StorageMoreFacts.

Variable sessionsDir : text.
Variable sha256hex : text -> text.

Let current := getCurrentPath sessionsDir sha256hex.
Let archiveDir := getArchiveDir sessionsDir sha256hex.

Lemma isFile_content (fs : FS.t) (p : text) :
  FS.isFile fs p = true <-> exists c, FS.content fs p = Some c.
Proof.
  unfold FS.isFile, FS.content.
  induction (FS.files fs) as [|f l IH]; simpl.
  - split; [discriminate | intros [c H]; discriminate].
  - destruct (text_eqb (fst f) p); simpl; [|exact IH].
    split; eauto.
Qed.

(** What [load] answers, by the content of the current record. *)
Lemma storage_load_content (root : text) (fs : FS.t) :
  storage_load sessionsDir sha256hex root fs
  = (Some match FS.content fs (current root) with
          | Some c => parseSession c
          | None => None
          end, fs).
Proof.
  unfold storage_load, bind, exists_, catch, readSession, bind, readText.
  fold (current root).
  destruct (FS.isFile fs (current root)) eqn:E.
  - apply isFile_content in E; destruct E as [c E]; rewrite E.
    destruct (parseSession c); reflexivity.
  - destruct (FS.content fs (current root)) as [c|] eqn:Ec; [|reflexivity].
    assert (H : FS.isFile fs (current root) = true)
      by (apply isFile_content; eauto).
    congruence.
Qed.

Lemma find_remove_other (p q : text) (l : list (text * text)) :
  p <> q ->
  find (fun f => text_eqb (fst f) q) (FS.remove p l)
  = find (fun f => text_eqb (fst f) q) l.
Proof.
  intros H; unfold FS.remove; induction l as [|f l IH]; simpl; [reflexivity|].
  destruct (text_eqb (fst f) p) eqn:E; simpl.
  - apply text_eqb_eq in E; rewrite E, (text_eqb_neq _ _ H); exact IH.
  - rewrite IH; reflexivity.
Qed.

Lemma find_remove_same (p : text) (l : list (text * text)) :
  find (fun f => text_eqb (fst f) p) (FS.remove p l) = None.
Proof.
  unfold FS.remove; induction l as [|f l IH]; simpl; [reflexivity|].
  destruct (text_eqb (fst f) p) eqn:E; simpl; [exact IH|].
  rewrite E; exact IH.
Qed.

End StorageMoreFacts.

(** X15.  [load] never throws and never changes the file system. It answers
    [null] when there is no current record and when the record is not JSON
    (the error of [JSON.parse] is swallowed). *)
Theorem storage_load_never_throws (sessionsDir : text)
  (sha256hex : text -> text) (root : text) (fs : FS.t) :
  exists r,
    storage_load sessionsDir sha256hex root fs = (Some r, fs) /\
    (FS.isFile fs (getCurrentPath sessionsDir sha256hex root) = false ->
     r = None) /\
    (forall c,
        FS.content fs (getCurrentPath sessionsDir sha256hex root) = Some c ->
        JSON.parse c = None -> r = None).
Proof.
  rewrite storage_load_content; eexists; split; [reflexivity|]; split.
  - intros H.
    destruct (FS.content fs _) as [c|] eqn:E; [|reflexivity].
    assert (FS.isFile fs (getCurrentPath sessionsDir sha256hex root) = true)
      by (apply isFile_content; eauto).
    congruence.
  - intros c -> H; unfold parseSession; rewrite H; reflexivity.
Qed.

(** X16.  After [delete] has succeeded there is no current session to load;
    the other files keep their content, and when there was no current record
    the file system is left as it is. *)
Theorem delete_then_load (sessionsDir : text) (sha256hex : text -> text)
  (root : text) (fs fs' : FS.t) :
  storage_delete sessionsDir sha256hex root fs = (Some tt, fs') ->
  storage_load sessionsDir sha256hex root fs' = (Some None, fs') /\
  (forall p, p <> getCurrentPath sessionsDir sha256hex root ->
             FS.content fs' p = FS.content fs p) /\
  (FS.isFile fs (getCurrentPath sessionsDir sha256hex root) = false ->
   fs' = fs).
Proof.
  unfold storage_delete, bind, exists_.
  set (cur := getCurrentPath sessionsDir sha256hex root).
  rewrite storage_load_content; fold cur.
  destruct (FS.isFile fs cur) eqn:E.
  - unfold rm; rewrite E; simpl andb.
    destruct (negb (FS.denied fs cur)); [|discriminate].
    intros H; injection H as <-.
    unfold FS.content; simpl.
    rewrite find_remove_same; repeat split; try discriminate.
    intros p Hp; rewrite find_remove_other by congruence; reflexivity.
  - unfold ret; intros H; injection H as <-.
    destruct (FS.content fs cur) as [c|] eqn:Ec.
    + assert (FS.isFile fs cur = true) by (apply isFile_content; eauto).
      congruence.
    + auto.
Qed.

Lemma delete_then_load_witness :
  storage_load (lit "./sessions") sampleHash (lit "/home/u/proj")
    (snd (storage_delete (lit "./sessions") sampleHash (lit "/home/u/proj")
            savedFS))
  = (Some None,
     snd (storage_delete (lit "./sessions") sampleHash (lit "/home/u/proj")
            savedFS))
  /\ (forall p,
        p <> getCurrentPath (lit "./sessions") sampleHash (lit "/home/u/proj") ->
        FS.content
          (snd (storage_delete (lit "./sessions") sampleHash
                  (lit "/home/u/proj") savedFS)) p
        = FS.content savedFS p)
  /\ (FS.isFile savedFS
        (getCurrentPath (lit "./sessions") sampleHash (lit "/home/u/proj"))
      = false ->
      snd (storage_delete (lit "./sessions") sampleHash (lit "/home/u/proj")
             savedFS) = savedFS).
Proof.
  apply (delete_then_load (lit "./sessions") sampleHash (lit "/home/u/proj")
           savedFS).
  vm_compute; reflexivity.
Defined.

(** X17.  [clear] is not in memory only: it marks the manager dirty, and
    when the save timer then fires and the save succeeds, the current record
    on disk is the empty session, so the conversation that was stored there
    can no longer be loaded. *)
Theorem clear_then_autosave (sessionsDir : text) (sha256hex : text -> text)
  (uuid : text) (now now' : Z) (m m' : Manager) (fs fs' : FS.t) :
  autosave sessionsDir sha256hex (manager_clear uuid now now' m) fs
    = (Some tt, m', fs') ->
  storage_load sessionsDir sha256hex (Session.projectRoot (session m)) fs'
    = (Some (Some (createEmptySession (Session.projectRoot (session m))
                     (Session.model (session m)) uuid now now')), fs') /\
  dirty m' = false /\ saveTimeout m' = false.
Proof.
  unfold autosave, manager_clear, markDirty, clear; simpl.
  destruct (storage_save _ _ _ fs) as [[[]|] fs1] eqn:Es; [|discriminate].
  intros H; injection H as <- <-.
  apply storage_save_ok in Es; destruct Es as [_ Hc]; simpl in Hc.
  rewrite storage_load_content, Hc, parseSession_stringify; auto.
Qed.

(** The sample manager is cleared and its save timer fires, on the file
    system that holds the saved sample session. *)
Definition cleared : option unit * Manager * FS.t :=
  autosave (lit "./sessions") sampleHash
    (manager_clear (lit "0b7e1c1e-5a43-4a7e-8a3c-1f2e3d4c5b6a")
       1700000000100 1700000000100 sampleManager)
    savedFS.

Lemma clear_then_autosave_witness :
  storage_load (lit "./sessions") sampleHash (lit "/home/u/proj") (snd cleared)
  = (Some (Some (createEmptySession (lit "/home/u/proj")
                   (lit "qwen2.5-coder:32b-instruct")
                   (lit "0b7e1c1e-5a43-4a7e-8a3c-1f2e3d4c5b6a")
                   1700000000100 1700000000100)),
     snd cleared)
  /\ dirty (snd (fst cleared)) = false
  /\ saveTimeout (snd (fst cleared)) = false.
Proof.
  apply (clear_then_autosave (lit "./sessions") sampleHash
           (lit "0b7e1c1e-5a43-4a7e-8a3c-1f2e3d4c5b6a")
           1700000000100 1700000000100 sampleManager (snd (fst cleared))
           savedFS (snd cleared)).
  vm_compute; reflexivity.
Defined.

(* ================================================================== *)
(** * The directory of a project *)

Section Paths.

Lemma lastSegment_no_slash (s cur : text) :
  ~ In 47%N cur -> ~ In 47%N (lastSegment cur s).
Proof.
  revert cur; induction s as [|c s IH]; intros cur H; simpl.
  - rewrite <- in_rev; exact H.
  - destruct (N.eqb_spec c 47) as [->|Hc]; apply IH.
    + intros [].
    + intros [E|E]; [congruence | contradiction].
Qed.

Lemma app_inv_same_length {A : Type} (a b c d : list A) :
  a ++ b = c ++ d -> length b = length d -> a = c /\ b = d.
Proof.
  revert c; induction a as [|x a IH]; intros [|y c] H L; simpl in *.
  - auto.
  - apply (f_equal (@length A)) in H; simpl in H; rewrite length_app in H; lia.
  - apply (f_equal (@length A)) in H; simpl in H; rewrite length_app in H; lia.
  - injection H as -> H; destruct (IH _ H L) as [-> ->]; auto.
Qed.

End Paths.

(** X18.  The directory name [hashPath] gives a project is one path segment:
    it is not empty and holds no slash, so the session directory is a direct
    child of the sessions directory. Two project roots get the same
    directory only when the last segments of their paths (or [default] for a
    path that ends in a slash) and the first twelve characters of their
    hashes agree. *)
Theorem hashPath_is_one_segment (sha256hex : text -> text) (a b : text) :
  (forall x, 12 <= length (sha256hex x) /\ ~ In 47%N (sha256hex x)) ->
  hashPath sha256hex a <> [] /\
  ~ In 47%N (hashPath sha256hex a) /\
  (hashPath sha256hex a = hashPath sha256hex b ->
   firstn 12 (sha256hex a) = firstn 12 (sha256hex b) /\
   (if nonempty (lastSegment [] a) then lastSegment [] a else lit "default")
   = (if nonempty (lastSegment [] b) then lastSegment [] b
      else lit "default")).
Proof.
  intros Hh; unfold hashPath.
  set (na := if nonempty (lastSegment [] a) then _ else _).
  set (nb := if nonempty (lastSegment [] b) then _ else _).
  assert (Hna : na <> [] /\ ~ In 47%N na).
  { subst na; destruct (lastSegment [] a) as [|c r] eqn:E;
      cbv [nonempty JSON.is_nil negb].
    - split; [discriminate|].
      intros H; simpl in H.
      repeat (destruct H as [H|H]; [discriminate|]); exact H.
    - split; [discriminate|].
      rewrite <- E; apply lastSegment_no_slash; intros []. }
  destruct Hna as [Hne Hns].
  split; [|split].
  - destruct na; [congruence | discriminate].
  - intros H; apply in_app_or in H; destruct H as [H|H]; [contradiction|].
    apply in_app_or in H; destruct H as [H|H].
    + simpl in H; destruct H as [H|[]]; discriminate.
    + apply (proj2 (Hh a)); revert H; apply In_prefix.
  - intros E; rewrite !app_assoc in E.
    apply app_inv_same_length in E.
    + destruct E as [E1 E2]; split; [exact E2|].
      apply app_inv_tail in E1; exact E1.
    + rewrite !length_firstn.
      pose proof (proj1 (Hh a)); pose proof (proj1 (Hh b)); lia.
Qed.

Lemma hashPath_is_one_segment_witness :
  hashPath sampleHash (lit "/home/u/proj") <> []
  /\ ~ In 47%N (hashPath sampleHash (lit "/home/u/proj"))
  /\ (hashPath sampleHash (lit "/home/u/proj")
      = hashPath sampleHash (lit "/srv/proj/") ->
      firstn 12 (sampleHash (lit "/home/u/proj"))
      = firstn 12 (sampleHash (lit "/srv/proj/"))
      /\ (if nonempty (lastSegment [] (lit "/home/u/proj"))
          then lastSegment [] (lit "/home/u/proj") else lit "default")
         = (if nonempty (lastSegment [] (lit "/srv/proj/"))
            then lastSegment [] (lit "/srv/proj/") else lit "default")).
Proof.
  apply (hashPath_is_one_segment sampleHash (lit "/home/u/proj")
           (lit "/srv/proj/")).
  intros x; split.
  - vm_compute; repeat constructor.
  - apply not_In_existsb; vm_compute; reflexivity.
Defined.

(* ================================================================== *)
(** * Archived sessions can be loaded again *)

Section Listing.

Lemma trimStart_nonspace (c : N) (r : text) :
  is_space c = false -> trimStart (c :: r) = c :: r.
Proof. intros H; simpl; rewrite H; reflexivity. Qed.

Lemma split_lines_line (p : text) :
  ~ In nl p -> forall cur, split_lines cur p = [rev cur ++ p].
Proof.
  induction p as [|c p IH]; intros H cur; simpl.
  - rewrite app_nil_r; reflexivity.
  - destruct (N.eqb_spec c nl) as [->|_]; [exfalso; apply H; left; reflexivity|].
    rewrite IH by (intros Hin; apply H; right; exact Hin).
    simpl; rewrite <- app_assoc; reflexivity.
Qed.

Lemma split_lines_more (p s : text) :
  ~ In nl p ->
  forall cur, split_lines cur (p ++ nl :: s)
              = (rev cur ++ p) :: split_lines [] s.
Proof.
  induction p as [|c p IH]; intros H cur; simpl.
  - rewrite ?N.eqb_refl, app_nil_r; reflexivity.
  - destruct (N.eqb_spec c nl) as [->|_]; [exfalso; apply H; left; reflexivity|].
    rewrite IH by (intros Hin; apply H; right; exact Hin).
    simpl; rewrite <- app_assoc; reflexivity.
Qed.

Lemma split_lines_join (paths : list text) :
  paths <> [] -> Forall (fun p => ~ In nl p) paths ->
  split_lines [] (join [nl] paths) = paths.
Proof.
  intros Hne H; induction H as [|p l Hp Hl IH]; [congruence|].
  destruct l as [|q l].
  - simpl; apply split_lines_line; exact Hp.
  - change (join [nl] (p :: q :: l)) with (p ++ nl :: join [nl] (q :: l)).
    rewrite split_lines_more by exact Hp.
    simpl rev; simpl app; f_equal; apply IH; discriminate.
Qed.

Lemma concat_lines (paths : list text) :
  paths <> [] ->
  concat (map (fun p => p ++ [nl]) paths) = join [nl] paths ++ [nl].
Proof.
  induction paths as [|p l IH]; [congruence|]; intros _.
  destruct l as [|q l]; [simpl; rewrite app_nil_r; reflexivity|].
  change (join [nl] (p :: q :: l)) with (p ++ [nl] ++ join [nl] (q :: l)).
  change (concat (map (fun p => p ++ [nl]) (p :: q :: l)))
    with ((p ++ [nl]) ++ concat (map (fun p => p ++ [nl]) (q :: l))).
  rewrite IH by discriminate.
  rewrite <- !app_assoc; reflexivity.
Qed.

Lemma trim_line (J : text) (c : N) (r r' : text) (c' : N) :
  J = c :: r -> J = r' ++ [c'] -> is_space c = false -> is_space c' = false ->
  trim (J ++ [nl]) = J.
Proof.
  intros E E' Hc Hc'; unfold trim.
  assert (H1 : trimStart (J ++ [nl]) = J ++ [nl]).
  { rewrite E; change ((c :: r) ++ [nl]) with (c :: (r ++ [nl])).
    apply trimStart_nonspace; exact Hc. }
  rewrite H1, rev_app_distr.
  change (rev [nl] ++ rev J) with (nl :: rev J).
  change (trimStart (nl :: rev J)) with (trimStart (rev J)).
  rewrite E' at 1; rewrite rev_app_distr.
  change (rev [c'] ++ rev r') with (c' :: rev r').
  rewrite (trimStart_nonspace _ _ Hc').
  change (rev (c' :: rev r')) with (rev (rev r') ++ [c']).
  rewrite rev_involutive; symmetry; exact E'.
Qed.

(** The lines of a listing are the listed paths. *)
Lemma lines_of_listing (paths : list text) :
  paths <> [] -> Forall tidy paths ->
  lines_of (concat (map (fun p => p ++ [nl]) paths)) = paths.
Proof.
  intros Hne H; unfold lines_of.
  rewrite concat_lines by exact Hne.
  assert (Hhead : exists c r, join [nl] paths = c :: r /\ is_space c = false).
  { destruct H as [|p l (_ & (c & r & -> & Hc) & _) _]; [congruence|].
    destruct l; simpl; eauto. }
  assert (Hlast : exists r c, join [nl] paths = r ++ [c] /\ is_space c = false).
  { clear Hhead; induction H as [|p l Hp Hl IH]; [congruence|].
    destruct l as [|q l].
    - destruct Hp as (_ & _ & H); exact H.
    - destruct IH as (r & c & E & Hc); [discriminate|].
      change (join [nl] (p :: q :: l)) with (p ++ [nl] ++ join [nl] (q :: l)).
      exists (p ++ [nl] ++ r), c; rewrite E, <- !app_assoc; auto. }
  assert (Htrim : trim (join [nl] paths ++ [nl]) = join [nl] paths).
  { destruct Hhead as (c & r & E & Hc), Hlast as (r' & c' & E' & Hc').
    exact (trim_line _ c r r' c' E E' Hc Hc'). }
  rewrite Htrim, split_lines_join.
  - apply filter_all; revert H; apply Forall_impl.
    intros p (_ & (c & r & -> & _) & _); reflexivity.
  - exact Hne.
  - revert H; apply Forall_impl; intros p H; apply H.
Qed.

Lemma ends_with_app (suffix s : text) : ends_with suffix (s ++ suffix) = true.
Proof.
  induction s as [|c s IH]; cbn [app ends_with].
  - destruct suffix; cbn [ends_with]; rewrite text_eqb_refl; reflexivity.
  - rewrite IH; apply orb_true_r.
Qed.

Lemma ends_with_inv (suffix s : text) :
  ends_with suffix s = true -> exists r, s = r ++ suffix.
Proof.
  induction s as [|c s IH]; cbn [ends_with]; intros H.
  - rewrite orb_false_r in H; apply text_eqb_eq in H; subst; exists [].
    reflexivity.
  - apply orb_true_iff in H; destruct H as [H|H].
    + apply text_eqb_eq in H; subst; exists []; reflexivity.
    + destruct (IH H) as [r ->]; exists (c :: r); reflexivity.
Qed.

(** A visible [.json] file of the directory [d] is a path under [d] that
    ends in a code unit other than white space. *)
Lemma json_in_inv (d p : text) :
  json_in d p = true ->
  exists name, p = d ++ lit "/" ++ name ++ lit ".json".
Proof.
  unfold json_in.
  destruct (JSON.strip_prefix (d ++ lit "/") p) as [name|] eqn:E;
    [|discriminate].
  intros H; apply andb_true_iff in H; destruct H as [_ H].
  apply ends_with_inv in H; destruct H as [r ->].
  apply strip_prefix_inv in E; exists r.
  rewrite E, <- app_assoc; reflexivity.
Qed.

End Listing.

Section Reload.

Variable sessionsDir : text.
Variable sha256hex : text -> text.

Lemma content_In (fs : FS.t) (p c : text) :
  FS.content fs p = Some c -> In p (map fst (FS.files fs)).
Proof.
  unfold FS.content.
  destruct (find _ (FS.files fs)) as [[q c']|] eqn:E; [|discriminate].
  intros _; apply find_some in E; destruct E as [Hin Hq].
  apply text_eqb_eq in Hq; simpl in Hq; subst q.
  apply (in_map fst) in Hin; exact Hin.
Qed.

Lemma In_content (fs : FS.t) (p : text) :
  In p (map fst (FS.files fs)) -> FS.isFile fs p = true.
Proof.
  unfold FS.isFile; intros H; apply in_map_iff in H.
  destruct H as (f & <- & Hin).
  apply existsb_exists; exists f; split; [exact Hin | apply text_eqb_refl].
Qed.

(** [archive] leaves the files other than the snapshot and the current
    record as they were. *)
Lemma storage_archive_others (isoNow : text) (s : Session.t)
  (fs fs' : FS.t) (path : text) :
  storage_archive sessionsDir sha256hex isoNow s fs = (Some path, fs') ->
  forall p, p <> path ->
            p <> getCurrentPath sessionsDir sha256hex (Session.projectRoot s) ->
            FS.content fs' p = FS.content fs p.
Proof.
  intros H p Hp Hc.
  pose proof (storage_archive_ok _ _ _ _ _ _ _ H) as (Epath & _).
  revert H; unfold storage_archive, bind.
  set (dir := getArchiveDir sessionsDir sha256hex (Session.projectRoot s)) in *.
  set (cur := getCurrentPath sessionsDir sha256hex (Session.projectRoot s)) in *.
  set (ap := dir ++ lit "/" ++ dashed isoNow ++ lit ".json") in *.
  destruct (mkdir_p dir fs) as [[[]|] fs1] eqn:Em; [|discriminate].
  assert (Hf : FS.files fs1 = FS.files fs).
  { revert Em; unfold mkdir_p.
    destruct (_ || _); [discriminate|].
    destruct (FS.isDir fs dir); intros H; injection H as <-; reflexivity. }
  destruct (write ap _ fs1) as [[[]|] fs2] eqn:Ew; [|discriminate].
  apply write_ok in Ew; destruct Ew as (_ & _ & ->).
  unfold exists_ at 1.
  destruct (FS.isFile _ cur) eqn:Ec.
  - unfold rm; rewrite Ec; simpl andb.
    destruct (negb _); simpl; [|discriminate].
    intros H; injection H as _ <-.
    unfold FS.content; simpl.
    rewrite find_remove_other, find_put_other, Hf by congruence.
    reflexivity.
  - simpl; intros H; injection H as _ <-.
    unfold FS.content; simpl.
    rewrite find_put_other, Hf by congruence; reflexivity.
Qed.

Lemma dashed_no_slash (s : text) : ~ In 47%N s -> ~ In 47%N (dashed s).
Proof.
  unfold dashed; intros H Hin; apply in_map_iff in Hin.
  destruct Hin as (c & E & Hc).
  destruct (N.eqb c 58 || N.eqb c 46); [discriminate|].
  subst c; contradiction.
Qed.

(** The snapshot is a visible [.json] file of the archive directory. *)
Lemma json_in_snapshot (d isoNow : text) :
  isoNow <> [] -> ~ In 47%N isoNow ->
  json_in d (d ++ lit "/" ++ dashed isoNow ++ lit ".json") = true.
Proof.
  intros Hne Hs; unfold json_in.
  rewrite app_assoc, strip_prefix_app.
  rewrite ends_with_app, andb_true_r.
  apply andb_true_iff; split.
  - apply negb_true_iff.
    destruct (existsb _ _) eqn:E; [|reflexivity].
    apply existsb_exists in E; destruct E as (c & Hin & Hc).
    apply N.eqb_eq in Hc; subst c.
    apply in_app_or in Hin; destruct Hin as [Hin|Hin].
    + exfalso; revert Hin; apply dashed_no_slash; exact Hs.
    + simpl in Hin.
      repeat (destruct Hin as [Hin|Hin]; [discriminate|]); destruct Hin.
  - destruct isoNow as [|c r]; [congruence|]; simpl.
    destruct (N.eqb_spec c 58) as [->|H1]; [reflexivity|].
    destruct (N.eqb_spec c 46) as [->|H2]; [reflexivity|].
    simpl; apply negb_true_iff, N.eqb_neq; exact H2.
Qed.

Lemma tidy_json_in (d p : text) (c : N) (r : text) :
  d ++ lit "/" = c :: r -> is_space c = false ->
  json_in d p = true -> ~ In nl p -> tidy p.
Proof.
  intros Ed Hc Hj Hn; apply json_in_inv in Hj; destruct Hj as [name ->].
  repeat split; [exact Hn | |].
  - exists c, (r ++ name ++ lit ".json").
    rewrite app_assoc, Ed; auto.
  - exists (d ++ lit "/" ++ name ++ lit ".jso"), (ch "n").
    rewrite <- !app_assoc; auto.
Qed.

Lemma field_id_sessionJSON (s : Session.t) :
  field (lit "id") (sessionJSON s) = Some (JSON.Str (Session.id s)).
Proof. destruct s; reflexivity. Qed.

Lemma hasId_sessionJSON (s : Session.t) (fs : FS.t) :
  hasId (Session.id s) (sessionJSON s) fs = (Some true, fs).
Proof.
  unfold hasId; cbn [sessionJSON]; fold (sessionJSON s).
  rewrite field_id_sessionJSON, text_eqb_refl; reflexivity.
Qed.

(** A value whose [id] is not the string looked for is passed over,
    whether the comparison gives false or throws. *)
Lemma hasId_other (i : text) (v : JSON.value) (fs : FS.t) :
  field (lit "id") v <> Some (JSON.Str i) ->
  hasId i v fs = (Some false, fs) \/ hasId i v fs = (None, fs).
Proof.
  intros H; unfold hasId.
  assert (E : match field (lit "id") v with
              | Some (JSON.Str j) => text_eqb j i
              | _ => false
              end = false).
  { destruct (field _ _) as [[|b|n|j|vs|ms]|]; try reflexivity.
    destruct (text_eqb j i) eqn:Ej; [|reflexivity].
    apply text_eqb_eq in Ej; subst j; congruence. }
  destruct v; [right; reflexivity | left; rewrite E; reflexivity ..].
Qed.

(** The search finds the stored session when no other listed file holds a
    value with its id. *)
Lemma findSession_found (s : Session.t) (path : text) (fs : FS.t)
  (paths : list text) :
  In path paths ->
  FS.content fs path = Some (stringify (sessionJSON s)) ->
  (forall p c v, In p paths -> p <> path -> FS.content fs p = Some c ->
                 JSON.parse c = Some v ->
                 field (lit "id") v <> Some (JSON.Str (Session.id s))) ->
  findSession (Session.id s) paths fs = (Some (Some (sessionJSON s)), fs).
Proof.
  intros Hin Hc Hothers; induction paths as [|p l IH]; [destruct Hin|].
  cbn [findSession]; unfold bind at 1; unfold catch, readRecord.
  unfold bind at 1; unfold bind at 1; unfold readText.
  destruct (list_eq_dec N.eq_dec p path) as [->|Hp].
  - rewrite Hc; cbn [ret].
    rewrite JSONFacts.parse_stringify by apply integral_sessionJSON.
    unfold ret at 1; unfold bind at 1.
    rewrite hasId_sessionJSON; reflexivity.
  - assert (IH' : findSession (Session.id s) l fs
                  = (Some (Some (sessionJSON s)), fs)).
    { apply IH.
      - destruct Hin as [E|Hin]; [congruence | exact Hin].
      - intros q c v Hq; apply Hothers; right; exact Hq. }
    destruct (FS.content fs p) as [c|] eqn:Ep; [|exact IH'].
    cbn [ret].
    destruct (JSON.parse c) as [v|] eqn:Ev; [|exact IH'].
    unfold ret at 1; unfold bind at 1.
    destruct (hasId_other (Session.id s) v fs) as [E|E];
      [ apply (Hothers p c v); auto; left; reflexivity
      | rewrite E; exact IH' | rewrite E; exact IH' ].
Qed.

End Reload.

(** X19.  A session that [archive] has stored is found again by
    [loadArchived] under its id: the value returned is the record that was
    written, which read as a session is the session as it was, with its
    messages, summary, tasks and times. This holds when the timestamp makes
    a file name, the path of the snapshot holds no line feed and does not
    begin with white space (the listing is split into lines and trimmed),
    the same holds of the files already in the archive, and none of these
    holds a value, session or not, whose [id] is the id looked for. *)
Theorem archive_then_loadArchived (sessionsDir : text)
  (sha256hex : text -> text) (isoNow : text) (s : Session.t)
  (fs fs' : FS.t) (path : text) :
  let dir := getArchiveDir sessionsDir sha256hex (Session.projectRoot s) in
  storage_archive sessionsDir sha256hex isoNow s fs = (Some path, fs') ->
  isoNow <> [] -> ~ In 47%N isoNow ->
  ~ In nl path ->
  (forall c r, path = c :: r -> is_space c = false) ->
  (forall p, FS.isFile fs p = true -> json_in dir p = true -> ~ In nl p) ->
  (forall p c v, FS.content fs p = Some c -> json_in dir p = true ->
                 p <> path -> JSON.parse c = Some v ->
                 field (lit "id") v <> Some (JSON.Str (Session.id s))) ->
  storage_loadArchived sessionsDir sha256hex (Session.projectRoot s)
    (Session.id s) fs'
  = (Some (Some (sessionJSON s)), fs')
  /\ asSession (sessionJSON s) = Some s.
Proof.
  intros dir Ha Hne Hslash Hnl Hsp Hfiles Hids.
  split; [|apply asSession_sessionJSON].
  pose proof (storage_archive_others _ _ _ _ _ _ _ Ha) as Hothers.
  pose proof (storage_archive_ok _ _ _ _ _ _ _ Ha) as (Epath & _ & Hc & Hcur).
  fold dir in Epath.
  set (cur := getCurrentPath sessionsDir sha256hex (Session.projectRoot s)) in *.
  set (paths := filter (json_in dir) (map fst (FS.files fs'))).
  assert (Hpath : In path paths).
  { apply filter_In; split; [eapply content_In; exact Hc|].
    rewrite Epath; apply json_in_snapshot; assumption. }
  assert (Hhead : exists c r, dir ++ lit "/" = c :: r /\ is_space c = false).
  { destruct (dir ++ lit "/") as [|c r] eqn:E;
      [destruct dir; discriminate|].
    exists c, r; split; [reflexivity|].
    apply (Hsp c (r ++ dashed isoNow ++ lit ".json")).
    rewrite Epath, app_assoc, E; reflexivity. }
  destruct Hhead as (c0 & r0 & Ed & Hc0).
  assert (Hold : forall p, In p paths -> p <> path ->
                           FS.content fs' p = FS.content fs p /\
                           FS.isFile fs p = true /\ json_in dir p = true).
  { intros p Hp Hpp; apply filter_In in Hp; destruct Hp as [Hin Hj].
    apply In_content in Hin.
    assert (Hpc : p <> cur) by (intros ->; congruence).
    rewrite <- (Hothers p Hpp Hpc).
    repeat split; [|exact Hj].
    apply isFile_content in Hin; destruct Hin as [c Hin].
    apply isFile_content; exists c.
    rewrite <- (Hothers p Hpp Hpc); exact Hin. }
  assert (Htidy : Forall tidy paths).
  { apply Forall_forall; intros p Hp.
    assert (Hj : json_in dir p = true)
      by (apply filter_In in Hp; apply Hp).
    apply (tidy_json_in dir p c0 r0 Ed Hc0 Hj).
    destruct (list_eq_dec N.eq_dec p path) as [->|N]; [exact Hnl|].
    destruct (Hold p Hp N) as (_ & Hf & _); apply Hfiles; assumption. }
  unfold storage_loadArchived, catch, bind, ls_json; fold dir; fold paths.
  destruct paths as [|p0 l] eqn:Epaths; [destruct Hpath|].
  rewrite <- Epaths in *.
  rewrite lines_of_listing by (try exact Htidy; rewrite Epaths; discriminate).
  rewrite (findSession_found s path fs' paths Hpath Hc); [reflexivity|].
  intros p c v Hp Hpp Hpc; destruct (Hold p Hp Hpp) as (E & _ & Hj).
  rewrite E in Hpc; eapply Hids; eassumption.
Qed.

(** An archive that already holds the snapshot of another session. *)
Definition otherSession : Session.t :=
  Session.mk (lit "77aa0c1e-1111-4a7e-8a3c-000000000000")
    (lit "/home/u/proj") (lit "llama3:8b-instruct")
    [Message.mk user (lit "hello") 1690000000001] None 0 []
    1690000000000 1690000000001.

Definition otherSnapshot : text :=
  lit "./sessions/proj-9f86d081884c/archive/2026-10-01T10-00-00-000Z.json".

Definition archiveFS : FS.t :=
  FS.mk [(otherSnapshot, stringify (sessionJSON otherSession))]
    [lit "./sessions/proj-9f86d081884c/archive";
     lit "./sessions/proj-9f86d081884c"]
    (fun _ => false).

Definition sampleSnapshot : text :=
  lit "./sessions/proj-9f86d081884c/archive/2026-11-03T06-06-00-000Z.json".

Lemma archive_then_loadArchived_witness :
  storage_loadArchived (lit "./sessions") sampleHash (lit "/home/u/proj")
    (Session.id storedSession)
    (snd (storage_archive (lit "./sessions") sampleHash
            (lit "2026-11-03T06:06:00.000Z") storedSession archiveFS))
  = (Some (Some (sessionJSON storedSession)),
     snd (storage_archive (lit "./sessions") sampleHash
            (lit "2026-11-03T06:06:00.000Z") storedSession archiveFS))
  /\ asSession (sessionJSON storedSession) = Some storedSession.
Proof.
  apply (archive_then_loadArchived (lit "./sessions") sampleHash
           (lit "2026-11-03T06:06:00.000Z") storedSession archiveFS
           (snd (storage_archive (lit "./sessions") sampleHash
                   (lit "2026-11-03T06:06:00.000Z") storedSession archiveFS))
           sampleSnapshot).
  - vm_compute; reflexivity.
  - discriminate.
  - apply not_In_existsb; vm_compute; reflexivity.
  - apply not_In_existsb; vm_compute; reflexivity.
  - intros c r H; vm_compute in H; injection H as <- _; reflexivity.
  - intros p Hf _.
    unfold FS.isFile, archiveFS in Hf; cbn [FS.files existsb fst] in Hf.
    rewrite orb_false_r in Hf; apply text_eqb_eq in Hf; subst p.
    apply not_In_existsb; vm_compute; reflexivity.
  - intros p c v Hc _ _ Hv.
    unfold FS.content, archiveFS in Hc; cbn [FS.files find fst] in Hc.
    destruct (text_eqb otherSnapshot p); [|discriminate].
    cbn [option_map snd] in Hc; injection Hc as <-.
    rewrite JSONFacts.parse_stringify in Hv by apply integral_sessionJSON.
    injection Hv as <-.
    rewrite field_id_sessionJSON; intros E.
    assert (Ei : Session.id otherSession = Session.id storedSession)
      by congruence.
    revert Ei; apply text_neq_eqb; vm_compute; reflexivity.
Defined.

(** The search compares the [id] and nothing else: a file of the archive
    that holds a record with the id and no other field is returned when it
    is listed before the snapshot. *)
Definition strayRecord : text :=
  lit "./sessions/proj-9f86d081884c/archive/2026-01-01T00-00-00-000Z.json".

Definition strayFS : FS.t :=
  FS.mk [(strayRecord,
          js "{'id': '" ++ Session.id storedSession ++ js "'}");
         (sampleSnapshot, stringify (sessionJSON storedSession))]
    [lit "./sessions/proj-9f86d081884c/archive";
     lit "./sessions/proj-9f86d081884c"]
    (fun _ => false).

Example loadArchived_casts :
  fst (storage_loadArchived (lit "./sessions") sampleHash (lit "/home/u/proj")
         (Session.id storedSession) strayFS)
  = Some (Some (JSON.Obj [(lit "id", JSON.Str (Session.id storedSession))]))
  /\ asSession (JSON.Obj [(lit "id", JSON.Str (Session.id storedSession))])
     = None.
Proof. split; vm_compute; reflexivity. Qed.

(* ------------------------------------------------------------------ *)
(** ** The archive of the manager, on the samples *)

Lemma archive_leaves_fresh_session_witness :
  session (snd (fst archived))
  = Session.mk (lit "0b7e1c1e-5a43-4a7e-8a3c-1f2e3d4c5b6a")
      (Session.projectRoot (session sampleManager))
      (Session.model (session sampleManager)) [] None 0 []
      1700000000100 1700000000100
  /\ FS.content (snd archived) sampleSnapshot
     = Some (stringify (sessionJSON (session sampleManager)))
  /\ FS.isFile (snd archived)
       (getCurrentPath (lit "./sessions") sampleHash
          (Session.projectRoot (session sampleManager)))
     = false.
Proof.
  apply (archive_leaves_fresh_session (lit "./sessions") sampleHash
           (lit "2026-11-03T06:06:00.000Z")
           (lit "0b7e1c1e-5a43-4a7e-8a3c-1f2e3d4c5b6a")
           1700000000100 1700000000100 sampleManager (snd (fst archived))
           emptyFS (snd archived) sampleSnapshot).
  vm_compute; reflexivity.
Defined.

(** A file system that holds the saved sample session and refuses the
    snapshots of the archive. *)
Definition noArchiveFS : FS.t :=
  FS.mk (FS.files savedFS) (FS.dirs savedFS) (ends_with (lit "Z.json")).

Definition notArchived : option text * Manager * FS.t :=
  manager_archive (lit "./sessions") sampleHash
    (lit "2026-11-03T06:06:00.000Z")
    (lit "0b7e1c1e-5a43-4a7e-8a3c-1f2e3d4c5b6a") 1700000000100 1700000000100
    sampleManager noArchiveFS.

Lemma archive_failure_keeps_current_witness :
  session (snd (fst notArchived)) = session sampleManager
  /\ (FS.content (snd notArchived)
        (getCurrentPath (lit "./sessions") sampleHash
           (Session.projectRoot (session sampleManager)))
      = FS.content noArchiveFS
          (getCurrentPath (lit "./sessions") sampleHash
             (Session.projectRoot (session sampleManager)))
      \/ FS.content (snd notArchived)
           (getCurrentPath (lit "./sessions") sampleHash
              (Session.projectRoot (session sampleManager)))
         = Some (stringify (sessionJSON (session sampleManager)))).
Proof.
  apply (archive_failure_keeps_current (lit "./sessions") sampleHash
           (lit "2026-11-03T06:06:00.000Z")
           (lit "0b7e1c1e-5a43-4a7e-8a3c-1f2e3d4c5b6a")
           1700000000100 1700000000100 sampleManager (snd (fst notArchived))
           noArchiveFS (snd notArchived)).
  vm_compute; reflexivity.
Defined.

(* ================================================================== *)
(** * Properties of the todo tool *)

Section TodoTool.

Lemma starts_with_Error (c : N) (r : text) :
  c <> ch "E" -> JSON.strip_prefix (lit "Error") (c :: r) = None.
Proof.
  intros H; change (lit "Error") with (ch "E" :: lit "rror").
  cbn [JSON.strip_prefix].
  destruct (N.eqb_spec (ch "E") c) as [E|_]; [|reflexivity].
  exfalso; apply H; symmetry; exact E.
Qed.

Lemma withId_error (action : text) (id : option JSON.value) (s : Session.t)
  (run : text -> text * Session.t) (out : text) (ctx' : option Session.t) :
  (forall i o s', run i = (o, s') ->
                  JSON.strip_prefix (lit "Error") o <> None -> s' = s) ->
  withId action id s run = Some (out, ctx') ->
  JSON.strip_prefix (lit "Error") out <> None -> ctx' = Some s.
Proof.
  intros Hrun; unfold withId.
  destruct (truthyText id) as [[i|]|]; [| |discriminate].
  - destruct (run i) as [o s'] eqn:E; intros H; injection H as <- <-.
    intros He; f_equal; eapply Hrun; eassumption.
  - intros H; injection H as <- <-; reflexivity.
Qed.

End TodoTool.

(** X22.  The todo tool changes the task list only when it reports success:
    whenever its result begins with [Error] (no session context, a missing
    content or id, an id no task carries, an unknown action) the session is
    left exactly as it was. *)
Theorem todo_errors_change_nothing (params : JSON.value) (uuid : text)
  (now : Z) (context context' : option Session.t) (out : text) :
  todo_execute params uuid now context = Some (out, context') ->
  JSON.strip_prefix (lit "Error") out <> None ->
  context' = context.
Proof.
  unfold todo_execute.
  destruct context as [s|]; [|intros H; injection H as <- <-; reflexivity].
  destruct params as [| | | | |ms]; try discriminate.
  set (unknown := fun action : text => _).
  destruct (field (lit "action") (JSON.Obj ms)) as [[|b|n|action|vs|ms']|];
    try (destruct (jsString _) as [a|]; cbn [option_map];
         [intros H; injection H as <- <-; reflexivity | discriminate]).
  destruct (text_eqb action (lit "list")).
  { destruct (length (Session.todos s) =? 0);
      intros H; injection H as <- <-; reflexivity. }
  destruct (text_eqb action (lit "add")).
  { destruct (truthyText _) as [[c|]|]; [| |discriminate].
    - destruct (addTodo c uuid now s) as [task s'].
      intros H; injection H as <- <-.
      intros He; exfalso; apply He; reflexivity.
    - intros H; injection H as <- <-; reflexivity. }
  destruct (text_eqb action (lit "start")).
  { apply withId_error; intros i o s' E; unfold updateTodo in E.
    destruct (updateFirst i in_progress (Session.todos s)); injection E as <- <-;
      [intros He; exfalso; apply He; reflexivity | reflexivity]. }
  destruct (text_eqb action (lit "complete")).
  { apply withId_error; intros i o s' E; unfold updateTodo in E.
    destruct (updateFirst i completed (Session.todos s)); injection E as <- <-;
      [intros He; exfalso; apply He; reflexivity | reflexivity]. }
  destruct (text_eqb action (lit "remove")).
  { apply withId_error; intros i o s' E; unfold removeTodo in E.
    destruct (removeFirst i (Session.todos s)); injection E as <- <-;
      [intros He; exfalso; apply He; reflexivity | reflexivity]. }
  destruct (text_eqb action (lit "clear_completed")).
  { destruct (clearCompletedTodos s) as [count s'].
    intros H; injection H as <- <-.
    intros He; exfalso; apply He; reflexivity. }
  intros H; injection H as <- <-; reflexivity.
Qed.

(** The call [{'name': 'todo', 'arguments': {'action': 'complete',
    'id': 'nope'}}] on the sample session, which has no such task. *)
Definition completeUnknown : option (text * option Session.t) :=
  todo_execute
    (JSON.Obj [(lit "action", JSON.Str (lit "complete"));
               (lit "id", JSON.Str (lit "nope"))])
    (lit "0b7e1c1e-5a43-4a7e-8a3c-1f2e3d4c5b6a") 1700000000200
    (Some storedSession).

Lemma todo_errors_change_nothing_witness :
  match completeUnknown with
  | Some (_, context') => context'
  | None => None
  end = Some storedSession.
Proof.
  apply (todo_errors_change_nothing
           (JSON.Obj [(lit "action", JSON.Str (lit "complete"));
                      (lit "id", JSON.Str (lit "nope"))])
           (lit "0b7e1c1e-5a43-4a7e-8a3c-1f2e3d4c5b6a") 1700000000200
           (Some storedSession)
           match completeUnknown with
           | Some (_, context') => context'
           | None => None
           end
           (lit "Error: Task nope not found")).
  - vm_compute; reflexivity.
  - vm_compute; discriminate.
Defined.

(** On the sample session the tool answers as follows. *)
Example todo_samples :
  completeUnknown
  = Some (lit "Error: Task nope not found", Some storedSession)
  /\ option_map fst
       (todo_execute (JSON.Obj [(lit "action", JSON.Str (lit "list"))])
          [] 0 (Some storedSession))
     = Some (lit "Tasks:" ++ [nl] ++ lit "[ ] fix bug (id: 3f2c9a52)")
  /\ option_map fst
       (todo_execute
          (JSON.Obj [(lit "action", JSON.Str (lit "complete"));
                     (lit "id", JSON.Str (lit "3f2c9a52"))])
          [] 0 (Some storedSession))
     = Some (lit "Task 3f2c9a52 marked as completed")
  /\ option_map fst
       (todo_execute (JSON.Obj [(lit "action", JSON.Num (JSON.Int 7))])
          [] 0 (Some storedSession))
     = Some (js "Error: Unknown action '7'. Use: list, add, start, complete, remove, clear_completed").
Proof. repeat split; vm_compute; reflexivity. Qed.

(* ================================================================== *)
(** * Properties of the edit tool *)

Section Split.

Lemma split_from_cons (fuel : nat) (sep cur s : text) :
  exists x l, split_from fuel sep cur s = x :: l.
Proof.
  destruct fuel; simpl; eauto.
  destruct (JSON.strip_prefix sep s); eauto.
  destruct s; eauto.
  revert cur n s; induction fuel as [|fuel IH]; intros cur c s; simpl; eauto.
  destruct (JSON.strip_prefix sep s); eauto.
  destruct s; eauto.
Qed.

(** Joining the pieces with the separator gives the text back. *)
Lemma join_split_from (sep : text) (fuel : nat) :
  forall cur s, join sep (split_from fuel sep cur s) = rev cur ++ s.
Proof.
  induction fuel as [|fuel IH]; intros cur s; simpl; [reflexivity|].
  destruct (JSON.strip_prefix sep s) as [after|] eqn:E.
  - apply strip_prefix_inv in E; subst s.
    destruct (split_from_cons fuel sep [] after) as (x & l & El).
    specialize (IH [] after); rewrite El in *.
    change (join sep (rev cur :: x :: l))
      with (rev cur ++ sep ++ join sep (x :: l)).
    rewrite IH; reflexivity.
  - destruct s as [|c t]; [simpl; rewrite app_nil_r; reflexivity|].
    rewrite IH; simpl; rewrite <- app_assoc; reflexivity.
Qed.

Lemma join_splitOn (sep s : text) : sep <> [] -> join sep (splitOn sep s) = s.
Proof.
  intros H; unfold splitOn; destruct sep as [|c sep]; [congruence|].
  apply join_split_from.
Qed.

(** The total length of the pieces joined by a text [new]. *)
Lemma length_join (new : text) (pieces : list text) :
  length (join new pieces) + length new
  = list_sum (map (@length N) pieces) + length pieces * length new
    + (if JSON.is_nil pieces then length new else 0).
Proof.
  induction pieces as [|x l IH]; [simpl; lia|].
  destruct l as [|y l]; [simpl; lia|].
  change (join new (x :: y :: l)) with (x ++ new ++ join new (y :: l)).
  rewrite !length_app.
  change (JSON.is_nil (y :: l)) with false in IH.
  change (JSON.is_nil (x :: y :: l)) with false.
  change (list_sum (map (@length N) (x :: y :: l)))
    with (length x + list_sum (map (@length N) (y :: l))).
  change (length (x :: y :: l)) with (S (length (y :: l))).
  revert IH.
  generalize (length (join new (y :: l))).
  generalize (list_sum (map (@length N) (y :: l))).
  generalize (length (y :: l)); intros; nia.
Qed.

(** [replace] rewrites the first occurrence: the text before the first
    separator stays, the replacement text follows, then the rest as it
    was. *)
Lemma replace_from_split (old new : text) (fuel : nat) :
  old <> [] ->
  forall before s x y l,
    length s < fuel ->
    split_from fuel old before s = x :: y :: l ->
    replace_from old new before s
    = x ++ substitute old x (join old (y :: l)) new ++ join old (y :: l)
    /\ rev before ++ s = x ++ old ++ join old (y :: l).
Proof.
  intros Hold; induction fuel as [|fuel IH]; intros before s x y l Hf; [lia|].
  cbn [split_from]; destruct s as [|c t].
  - destruct old as [|o old']; [congruence | discriminate].
  - cbn [replace_from].
    destruct (JSON.strip_prefix old (c :: t)) as [after|] eqn:E.
    + intros H; injection H as <- H.
      pose proof (join_split_from old fuel [] after) as J.
      rewrite H in J; simpl rev in J; simpl app in J.
      apply strip_prefix_inv in E; rewrite E, J; auto.
    + intros H; simpl in Hf.
      destruct (IH (c :: before) t x y l ltac:(lia) H) as [E1 E2].
      rewrite E1; split; [reflexivity|].
      rewrite <- E2; simpl; rewrite <- app_assoc; reflexivity.
Qed.

Lemma substitute_plain (matched before after template : text) :
  ~ In 36%N template ->
  substitute matched before after template = template.
Proof.
  induction template as [|c t IH]; intros H; simpl; [reflexivity|].
  destruct (N.eqb_spec c 36) as [->|_]; [exfalso; apply H; left; reflexivity|].
  rewrite IH by (intros Hin; apply H; right; exact Hin); reflexivity.
Qed.

End Split.

Section EditFacts.

Variable resolve : text -> text -> text.
Variable thrown : text.

Lemma content_put (p c : text) (fs : FS.t) :
  FS.content (FS.mk (FS.put p c (FS.files fs)) (FS.dirs fs) (FS.denied fs)) p
  = Some c.
Proof. unfold FS.content; simpl; rewrite find_put; reflexivity. Qed.

Lemma content_put_other (p q c : text) (fs : FS.t) :
  q <> p ->
  FS.content (FS.mk (FS.put p c (FS.files fs)) (FS.dirs fs) (FS.denied fs)) q
  = FS.content fs q.
Proof.
  intros H; unfold FS.content; simpl.
  rewrite find_put_other by congruence; reflexivity.
Qed.

(** The summary of a successful edit does not begin with [Error]. *)
Lemma edit_summary_plain (new old tail : text) :
  JSON.strip_prefix (lit "Error")
    ((if JSON.is_nil new then lit "Deleted"
      else if JSON.is_nil old then lit "Inserted" else lit "Replaced")
     ++ tail) = None.
Proof.
  destruct (JSON.is_nil new); [reflexivity|].
  destruct (JSON.is_nil old); reflexivity.
Qed.

(** What the edit tool does once the file is read and the occurrences
    are found acceptable: it writes the new content and reports it, or
    reports the error of the write. *)
Lemma edit_execute_found (p : EditParams.t) (cwd : text) (fs : FS.t)
  (content : text) :
  let full := resolve cwd (EditParams.path p) in
  let old := EditParams.old_string p in
  let new := EditParams.new_string p in
  let all := EditParams.replace_all p in
  let occurrences := (Z.of_nat (length (splitOn old content)) - 1)%Z in
  FS.content fs full = Some content ->
  includes old content = true ->
  negb all && (1 <? occurrences)%Z = false ->
  FS.denied fs full || FS.isDir fs full = false ->
  edit_execute resolve thrown p cwd fs
  = (Some ((if JSON.is_nil new then lit "Deleted"
            else if JSON.is_nil old then lit "Inserted" else lit "Replaced")
           ++ (if all && (1 <? (if all then occurrences else 1))%Z
               then lit " " ++ show_Z (if all then occurrences else 1%Z)
                    ++ lit " occurrences in " ++ EditParams.path p
               else lit " text in " ++ EditParams.path p)),
     FS.mk (FS.put full
              (if all then join new (splitOn old content)
               else replaceFirst old new content) (FS.files fs))
       (FS.dirs fs) (FS.denied fs)).
Proof.
  intros full old new all occurrences Hc Hi Ho Hw.
  assert (Hf : FS.isFile fs full = true) by (apply isFile_content; eauto).
  unfold edit_execute, catch, bind, exists_, readText, write, ret.
  cbv beta zeta; fold full old new all.
  rewrite Hf; cbn [negb]; cbv beta iota; rewrite Hc; cbv beta iota.
  rewrite Hi; cbn [negb]; cbv beta iota; fold occurrences.
  rewrite Ho; cbv beta iota; rewrite Hw; cbv beta iota.
  destruct (all && _)%bool; rewrite <- ?app_assoc; reflexivity.
Qed.

End EditFacts.

(** X23.  The edit tool never throws, changes no file other than the one its
    path resolves to, and changes that file only when it reports success:
    whenever its result begins with [Error] (the file is missing, the string
    is not found or is found more than once without [replace_all], the write
    fails) the file system is left exactly as it was. *)
Theorem edit_errors_change_nothing (resolve : text -> text -> text)
  (thrown : text) (p : EditParams.t) (cwd : text) (fs : FS.t) :
  exists out fs',
    edit_execute resolve thrown p cwd fs = (Some out, fs') /\
    (JSON.strip_prefix (lit "Error") out <> None -> fs' = fs) /\
    (forall q, q <> resolve cwd (EditParams.path p) ->
               FS.content fs' q = FS.content fs q).
Proof.
  set (full := resolve cwd (EditParams.path p)).
  destruct (FS.content fs full) as [content|] eqn:Hc.
  2:{ assert (Hf : FS.isFile fs full = false).
      { destruct (FS.isFile fs full) eqn:E; [|reflexivity].
        apply isFile_content in E; destruct E as [c E]; congruence. }
      unfold edit_execute, catch, bind, exists_, ret.
      cbv beta zeta; fold full.
      rewrite Hf; cbn [negb]; cbv beta iota; eauto. }
  assert (Hf : FS.isFile fs full = true) by (apply isFile_content; eauto).
  destruct (includes (EditParams.old_string p) content) eqn:Hi.
  2:{ unfold edit_execute, catch, bind, exists_, readText, ret.
      cbv beta zeta; fold full.
      rewrite Hf; cbn [negb]; cbv beta iota; rewrite Hc; cbv beta iota.
      rewrite Hi; cbn [negb]; cbv beta iota; eauto. }
  destruct (negb (EditParams.replace_all p)
            && (1 <? Z.of_nat (length (splitOn (EditParams.old_string p)
                                         content)) - 1)%Z) eqn:Ho.
  { unfold edit_execute, catch, bind, exists_, readText, ret.
    cbv beta zeta; fold full.
    rewrite Hf; cbn [negb]; cbv beta iota; rewrite Hc; cbv beta iota.
    rewrite Hi; cbn [negb]; cbv beta iota; rewrite Ho; cbv beta iota; eauto. }
  destruct (FS.denied fs full || FS.isDir fs full) eqn:Hw.
  { unfold edit_execute, catch, bind, exists_, readText, write, ret.
    cbv beta zeta; fold full.
    rewrite Hf; cbn [negb]; cbv beta iota; rewrite Hc; cbv beta iota.
    rewrite Hi; cbn [negb]; cbv beta iota; rewrite Ho; cbv beta iota.
    rewrite Hw; cbv beta iota; eauto. }
  rewrite (edit_execute_found resolve thrown p cwd fs content Hc Hi Ho Hw).
  eexists; eexists; split; [reflexivity|]; split.
  - intros H; exfalso; apply H; apply edit_summary_plain.
  - intros q Hq; apply content_put_other; exact Hq.
Qed.

(** X24.  Without [replace_all], when the string occurs exactly once (the
    content splits into two pieces around it), the edit succeeds and the
    file holds the text before the occurrence, the replacement, and the text
    after it. The replacement is [new_string] itself when it holds no dollar
    sign; otherwise it is [new_string] with the replacement patterns of
    [String.prototype.replace] expanded. *)
Theorem edit_replaces_the_occurrence (resolve : text -> text -> text)
  (thrown : text) (p : EditParams.t) (cwd : text) (fs : FS.t)
  (content before after : text) :
  let full := resolve cwd (EditParams.path p) in
  let old := EditParams.old_string p in
  let new := EditParams.new_string p in
  FS.content fs full = Some content ->
  FS.denied fs full = false -> FS.isDir fs full = false ->
  EditParams.replace_all p = false ->
  old <> [] ->
  splitOn old content = [before; after] ->
  exists out fs',
    edit_execute resolve thrown p cwd fs = (Some out, fs') /\
    JSON.strip_prefix (lit "Error") out = None /\
    content = before ++ old ++ after /\
    FS.content fs' full
      = Some (before ++ substitute old before after new ++ after) /\
    (~ In 36%N new -> FS.content fs' full = Some (before ++ new ++ after)).
Proof.
  intros full old new Hc Hd Hdir Hall Hold Hs.
  assert (Hj : content = before ++ old ++ after).
  { rewrite <- (join_splitOn old content Hold), Hs; reflexivity. }
  assert (Hi : includes old content = true)
    by (apply includes_iff; eauto).
  assert (Hr : replaceFirst old new content
               = before ++ substitute old before after new ++ after).
  { unfold splitOn in Hs; destruct old as [|o old'] eqn:Eo; [congruence|].
    rewrite <- Eo in *.
    destruct (replace_from_split old new (S (length content)) Hold
                [] content before after [] ltac:(lia) Hs) as [E _].
    exact E. }
  pose proof (edit_execute_found resolve thrown p cwd fs content Hc) as E.
  cbv zeta in E; fold full old new in E.
  rewrite Hall, Hs, Hd, Hdir in E; specialize (E Hi eq_refl eq_refl).
  rewrite E; eexists; eexists; split; [reflexivity|].
  cbn [andb]; rewrite Hr, content_put.
  repeat split; try assumption.
  - apply edit_summary_plain.
  - intros Hn; rewrite substitute_plain by exact Hn; reflexivity.
Qed.

(** A stand-in for [path.resolve] in the samples: relative paths only. *)
Definition sampleResolve (cwd path : text) : text := cwd ++ lit "/" ++ path.

Definition sourceFS : FS.t :=
  FS.mk [(lit "/w/a.ts", lit "let x = 1;" ++ [nl] ++ lit "print(x);" ++ [nl])]
    [lit "/w"] (fun _ => false).

Definition renameOnce : EditParams.t :=
  EditParams.mk (lit "a.ts") (lit "x = 1") (lit "y = 2") false.

Lemma edit_replaces_the_occurrence_witness :
  exists out fs',
    edit_execute sampleResolve (lit "EACCES") renameOnce (lit "/w") sourceFS
      = (Some out, fs') /\
    JSON.strip_prefix (lit "Error") out = None /\
    lit "let x = 1;" ++ [nl] ++ lit "print(x);" ++ [nl]
      = lit "let " ++ lit "x = 1" ++ (lit ";" ++ [nl] ++ lit "print(x);" ++ [nl])
    /\
    FS.content fs' (lit "/w/a.ts")
      = Some (lit "let "
              ++ substitute (lit "x = 1") (lit "let ")
                   (lit ";" ++ [nl] ++ lit "print(x);" ++ [nl]) (lit "y = 2")
              ++ (lit ";" ++ [nl] ++ lit "print(x);" ++ [nl])) /\
    (~ In 36%N (lit "y = 2") ->
     FS.content fs' (lit "/w/a.ts")
       = Some (lit "let " ++ lit "y = 2"
               ++ (lit ";" ++ [nl] ++ lit "print(x);" ++ [nl]))).
Proof.
  apply (edit_replaces_the_occurrence sampleResolve (lit "EACCES") renameOnce
           (lit "/w") sourceFS
           (lit "let x = 1;" ++ [nl] ++ lit "print(x);" ++ [nl])
           (lit "let ") (lit ";" ++ [nl] ++ lit "print(x);" ++ [nl]));
    try (vm_compute; reflexivity).
  discriminate.
Defined.

(** X25.  With [replace_all], the edit cuts the content at the occurrences
    of the string, found from left to right without overlap, and joins the
    pieces with the new string: the pieces joined with the old string are
    the content as it was, the lengths add up, and replacing a string by
    itself leaves the content as it was. *)
Theorem edit_replace_all (resolve : text -> text -> text)
  (thrown : text) (p : EditParams.t) (cwd : text) (fs : FS.t)
  (content : text) :
  let full := resolve cwd (EditParams.path p) in
  let old := EditParams.old_string p in
  let new := EditParams.new_string p in
  let pieces := splitOn old content in
  FS.content fs full = Some content ->
  FS.denied fs full = false -> FS.isDir fs full = false ->
  EditParams.replace_all p = true ->
  old <> [] ->
  includes old content = true ->
  exists out fs',
    edit_execute resolve thrown p cwd fs = (Some out, fs') /\
    JSON.strip_prefix (lit "Error") out = None /\
    content = join old pieces /\
    FS.content fs' full = Some (join new pieces) /\
    length (join new pieces) + (length pieces - 1) * length old
    = length content + (length pieces - 1) * length new /\
    (new = old -> FS.content fs' full = Some content).
Proof.
  intros full old new pieces Hc Hd Hdir Hall Hold Hi.
  assert (Hj : join old pieces = content) by (apply join_splitOn; exact Hold).
  pose proof (edit_execute_found resolve thrown p cwd fs content Hc) as E.
  cbv zeta in E; fold full old new pieces in E.
  rewrite Hall, Hd, Hdir in E; specialize (E Hi eq_refl eq_refl).
  rewrite E; eexists; eexists; split; [reflexivity|].
  rewrite content_put.
  repeat split.
  - apply edit_summary_plain.
  - symmetry; exact Hj.
  - pose proof (length_join new pieces) as L1.
    pose proof (length_join old pieces) as L2.
    rewrite Hj in L2.
    assert (Hp : JSON.is_nil pieces = false).
    { subst pieces; unfold splitOn.
      destruct old as [|o old']; [congruence|].
      destruct (split_from_cons (S (length content)) (o :: old') [] content)
        as (x & l & ->); reflexivity. }
    rewrite Hp in L1, L2.
    destruct pieces as [|x l]; [discriminate|].
    change (length (x :: l)) with (S (length l)) in *.
    replace (S (length l) - 1) with (length l) by lia.
    nia.
  - intros ->; fold old; rewrite Hj; reflexivity.
Qed.

Definition renameAll : EditParams.t :=
  EditParams.mk (lit "a.ts") (lit "x") (lit "count") true.

Lemma edit_replace_all_witness :
  exists out fs',
    edit_execute sampleResolve (lit "EACCES") renameAll (lit "/w") sourceFS
      = (Some out, fs') /\
    JSON.strip_prefix (lit "Error") out = None /\
    lit "let x = 1;" ++ [nl] ++ lit "print(x);" ++ [nl]
      = join (lit "x")
          (splitOn (lit "x")
             (lit "let x = 1;" ++ [nl] ++ lit "print(x);" ++ [nl])) /\
    FS.content fs' (lit "/w/a.ts")
      = Some (join (lit "count")
                (splitOn (lit "x")
                   (lit "let x = 1;" ++ [nl] ++ lit "print(x);" ++ [nl]))) /\
    length (join (lit "count")
              (splitOn (lit "x")
                 (lit "let x = 1;" ++ [nl] ++ lit "print(x);" ++ [nl])))
    + (length (splitOn (lit "x")
                 (lit "let x = 1;" ++ [nl] ++ lit "print(x);" ++ [nl])) - 1)
      * length (lit "x")
    = length (lit "let x = 1;" ++ [nl] ++ lit "print(x);" ++ [nl])
      + (length (splitOn (lit "x")
                   (lit "let x = 1;" ++ [nl] ++ lit "print(x);" ++ [nl])) - 1)
        * length (lit "count") /\
    (lit "count" = lit "x" ->
     FS.content fs' (lit "/w/a.ts")
       = Some (lit "let x = 1;" ++ [nl] ++ lit "print(x);" ++ [nl])).
Proof.
  apply (edit_replace_all sampleResolve (lit "EACCES") renameAll
           (lit "/w") sourceFS
           (lit "let x = 1;" ++ [nl] ++ lit "print(x);" ++ [nl]));
    try (vm_compute; reflexivity).
  discriminate.
Defined.

(** On the sample the two edits report what they did and leave these
    files. *)
Example edit_samples :
  edit_execute sampleResolve (lit "EACCES") renameOnce (lit "/w") sourceFS
  = (Some (lit "Replaced text in a.ts"),
     FS.mk [(lit "/w/a.ts",
             lit "let y = 2;" ++ [nl] ++ lit "print(x);" ++ [nl])]
       [lit "/w"] (FS.denied sourceFS))
  /\ edit_execute sampleResolve (lit "EACCES") renameAll (lit "/w") sourceFS
     = (Some (lit "Replaced 2 occurrences in a.ts"),
        FS.mk [(lit "/w/a.ts",
                lit "let count = 1;" ++ [nl] ++ lit "print(count);" ++ [nl])]
          [lit "/w"] (FS.denied sourceFS))
  /\ fst (edit_execute sampleResolve (lit "EACCES")
            (EditParams.mk (lit "a.ts") (lit "x") (lit "y") false)
            (lit "/w") sourceFS)
     = Some (lit "Error: Found 2 occurrences of the string. Either:" ++ [nl]
             ++ lit "1. Provide more context to make the match unique, or"
             ++ [nl]
             ++ lit "2. Set replace_all: true to replace all occurrences")
  /\ FS.content
       (snd (edit_execute sampleResolve (lit "EACCES")
               (EditParams.mk (lit "a.ts") (lit "x = 1") (lit "$& + $$1")
                  false)
               (lit "/w") sourceFS)) (lit "/w/a.ts")
     = Some (lit "let x = 1 + $1;" ++ [nl] ++ lit "print(x);" ++ [nl]).
Proof. repeat split; vm_compute; reflexivity. Qed.
